(** * Glyph v2 token envelopes of radiantjs: encoder, decoder and validator

    A shallow embedding of the Glyph module of radiantjs: its constants
    ([lib/glyph/constants.js]), encoder ([lib/glyph/encoder.js], whose text
    is kept in [lib/util/fixed_time.js]), decoder ([lib/glyph/decoder.js]) and
    validator ([lib/glyph/validator.js]), with the properties of the
    encode / decode / validate subsystem, and the constant-time comparison of
    [lib/util/fixed_time.js].

    Conventions of the embedding:
    - a [Buffer] is a list of bytes;
    - a JavaScript value is a term of [value]. Numbers are the integer-valued
      doubles (no NaN, no fractions, no infinities); a sum of numbers is the
      double nearest to the integer sum, so that it is exact within the safe
      integers. Strings are sequences of code units below 256;
    - an object is the list of its own enumerable properties, in the order in
      which [Object.keys] and [JSON.stringify] enumerate them;
    - a function that can throw returns an [outcome]; a function that mutates
      its argument returns the argument's new state next to its result. *)

From Stdlib Require Import ZArith NArith List String Ascii Bool Lia.
From Stdlib Require Import Strings.Byte.
From Stdlib Require Import Permutation Sorted DecimalString.
From Stdlib Require Import DecimalPos.
Import ListNotations.

Set Warnings "-register-all".

Local Open Scope string_scope.
Local Open Scope list_scope.
Local Open Scope Z_scope.

(** ** Exceptions *)

Inductive exn : Type :=
| Error (message : string)
| TypeError
| RangeError
| SyntaxError.

Inductive outcome (A : Type) : Type :=
| Ret (a : A)
| Throw (e : exn).

Arguments Ret {A} a.
Arguments Throw {A} e.

Definition bind {A B : Type} (c : outcome A) (k : A -> outcome B) : outcome B :=
  match c with
  | Ret a => k a
  | Throw e => Throw e
  end.

Notation "x <- c ;; k" := (bind c (fun x => k))
  (at level 61, c at next level, right associativity).
Notation "' pat <- c ;; k" := (bind c (fun pat => k))
  (at level 61, pat pattern, c at next level, right associativity).

(** [try { body } catch (e) { handler }] *)
Definition try_catch {A : Type} (body : outcome A) (handler : exn -> outcome A)
  : outcome A :=
  match body with
  | Ret a => Ret a
  | Throw e => handler e
  end.

(** ** JavaScript values *)

Inductive value : Type :=
| VUndefined
| VNull
| VBool (b : bool)
| VNum (n : Z)
| VStr (s : string)
| VArr (elems : list value)
| VObj (props : list (string * value)).

Definition object : Type := list (string * value).

(** ToBoolean *)
Definition truthy (v : value) : bool :=
  match v with
  | VUndefined | VNull => false
  | VBool b => b
  | VNum n => negb (n =? 0)
  | VStr s => negb (s =? EmptyString)%string
  | VArr _ | VObj _ => true
  end.

Definition isNumber (v : value) : bool :=
  match v with VNum _ => true | _ => false end.

Definition isString (v : value) : bool :=
  match v with VStr _ => true | _ => false end.

(** [v === w] between a value and a number *)
Definition strict_eq_num (v : value) (n : Z) : bool :=
  match v with VNum m => m =? n | _ => false end.

(** *** Own properties *)

Fixpoint lookup (props : object) (key : string) : value :=
  match props with
  | [] => VUndefined
  | (k, v) :: rest => if (k =? key)%string then v else lookup rest key
  end.

Fixpoint has_own (props : object) (key : string) : bool :=
  match props with
  | [] => false
  | (k, _) :: rest => (k =? key)%string || has_own rest key
  end.

(** [Object.keys(obj)] *)
Definition Object_keys (props : object) : list string := map fst props.

(** [v.key] for the property names read by this code base: [undefined] and
    [null] have no properties, an object answers with its own property, and
    on a boolean, number, string or array none of these names is defined. *)
Definition get (v : value) (key : string) : outcome value :=
  match v with
  | VUndefined | VNull => Throw TypeError
  | VObj props => Ret (lookup props key)
  | _ => Ret VUndefined
  end.

(** *** Property order

    An object enumerates its array-index keys first, in ascending numeric
    order, and then its other keys in the order of their creation. An array
    index is the canonical decimal form of an integer below 2^32 - 1. *)

Definition digit (c : ascii) : option N :=
  let n := N_of_ascii c in
  if ((48 <=? n) && (n <=? 57))%N then Some (n - 48)%N else None.

Fixpoint decimal (s : string) (acc : N) : option N :=
  match s with
  | EmptyString => Some acc
  | String c rest =>
      match digit c with
      | Some d => decimal rest (10 * acc + d)%N
      | None => None
      end
  end.

Definition array_index (key : string) : option N :=
  match key with
  | EmptyString => None
  | String c rest =>
      if (c =? "0")%char then
        match rest with EmptyString => Some 0%N | _ => None end
      else
        match decimal key 0 with
        | Some n => if (n <=? 4294967294)%N then Some n else None
        | None => None
        end
  end.

Fixpoint replace_own (props : object) (key : string) (v : value) : object :=
  match props with
  | [] => []
  | (k, x) :: rest =>
      if (k =? key)%string then (k, v) :: rest
      else (k, x) :: replace_own rest key v
  end.

(** A new array-index key [n] goes before the first key that is not a
    smaller array index. *)
Fixpoint insert_index (props : object) (key : string) (n : N) (v : value)
  : object :=
  match props with
  | [] => [(key, v)]
  | (k, x) :: rest =>
      match array_index k with
      | Some m =>
          if (m <? n)%N then (k, x) :: insert_index rest key n v
          else (key, v) :: props
      | None => (key, v) :: props
      end
  end.

(** [obj[key] = v] on an ordinary object whose prototype is [Object.prototype]:
    an own property keeps its place; assigning to a missing ["__proto__"]
    reaches the inherited setter and creates no own property; any other new
    key is created, at the place the property order gives it. *)
Definition obj_set (props : object) (key : string) (v : value) : object :=
  if has_own props key then replace_own props key v
  else if (key =? "__proto__")%string then props
  else match array_index key with
       | Some n => insert_index props key n v
       | None => props ++ [(key, v)]
       end.

(** *** [Array.prototype.sort] on strings

    The default comparison orders strings by their code units. The keys of an
    object are pairwise different, so every sorting algorithm returns the same
    list; insertion sort stands for the engine's. *)

Fixpoint insert_sorted (k : string) (l : list string) : list string :=
  match l with
  | [] => [k]
  | x :: rest => if (k <=? x)%string then k :: l else x :: insert_sorted k rest
  end.

Fixpoint sort (l : list string) : list string :=
  match l with
  | [] => []
  | x :: rest => insert_sorted x (sort rest)
  end.

(** ** Buffers *)

Definition Buffer : Type := list byte.

Definition byte_of_Z (n : Z) : option byte := Byte.of_N (Z.to_N n).
Definition Z_of_byte (b : byte) : Z := Z.of_N (Byte.to_N b).

(** [buf.length] *)
Definition len {A : Type} (l : list A) : Z := Z.of_nat (List.length l).

(** [Buffer.from(str, 'utf8')]: a code unit below 128 is one byte, a code unit
    from 128 to 255 is two. *)
Definition utf8_char (c : ascii) : Buffer :=
  let n := N_of_ascii c in
  if (n <? 128)%N then [byte_of_ascii c]
  else match Byte.of_N (192 + n / 64), Byte.of_N (128 + n mod 64) with
       | Some b1, Some b2 => [b1; b2]
       | _, _ => []
       end.

Fixpoint Buffer_from_utf8 (s : string) : Buffer :=
  match s with
  | EmptyString => []
  | String c rest => utf8_char c ++ Buffer_from_utf8 rest
  end.

(** [Buffer.byteLength(str, 'utf8')] *)
Definition utf8_byteLength (s : string) : Z := len (Buffer_from_utf8 s).

Fixpoint starts_with (needle hay : Buffer) : bool :=
  match needle, hay with
  | [], _ => true
  | _ :: _, [] => false
  | n :: needle', h :: hay' => Byte.eqb n h && starts_with needle' hay'
  end.

Fixpoint indexOf_from (hay needle : Buffer) (i : Z) : Z :=
  match hay with
  | [] => match needle with [] => i | _ => -1 end
  | _ :: rest =>
      if starts_with needle hay then i else indexOf_from rest needle (i + 1)
  end.

(** [buf.indexOf(needle)]: the offset of the first occurrence, or -1 *)
Definition indexOf (hay needle : Buffer) : Z := indexOf_from hay needle 0.

(** [buf.slice(start)] *)
Definition slice_from (buf : Buffer) (start : Z) : Buffer :=
  let start' := if start <? 0 then Z.max (len buf + start) 0 else start in
  skipn (Z.to_nat start') buf.

(** ** Constants ([lib/glyph/constants.js]) *)

Definition GLYPH_MAGIC : Buffer := list_byte_of_string "gly".

Module GlyphVersion.
Definition V1 : Z := 1.
Definition V2 : Z := 2.
End GlyphVersion.

Module GlyphProtocol.
Definition GLYPH_FT : Z := 1.
Definition GLYPH_NFT : Z := 2.
Definition GLYPH_DAT : Z := 3.
Definition GLYPH_DMINT : Z := 4.
Definition GLYPH_MUT : Z := 5.
Definition GLYPH_BURN : Z := 6.
Definition GLYPH_CONTAINER : Z := 7.
Definition GLYPH_ENCRYPTED : Z := 8.
Definition GLYPH_TIMELOCK : Z := 9.
Definition GLYPH_AUTHORITY : Z := 10.
Definition GLYPH_WAVE : Z := 11.
End GlyphProtocol.

Definition ProtocolNames : list (Z * string) :=
  [ (1, "Fungible Token");
    (2, "Non-Fungible Token");
    (3, "Data Storage");
    (4, "Decentralized Minting");
    (5, "Mutable State");
    (6, "Burn");
    (7, "Container");
    (8, "Encrypted");
    (9, "Timelock");
    (10, "Authority");
    (11, "WAVE Name") ].

Module EnvelopeFlags.
Definition HAS_CONTENT_ROOT : Z := Z.shiftl 1 0.
Definition HAS_CONTROLLER : Z := Z.shiftl 1 1.
Definition HAS_PROFILE_HINT : Z := Z.shiftl 1 2.
Definition IS_REVEAL : Z := Z.shiftl 1 7.
End EnvelopeFlags.

Module GlyphLimits.
Definition MAX_NAME_SIZE : Z := 256.
Definition MAX_DESC_SIZE : Z := 4096.
Definition MAX_PATH_SIZE : Z := 512.
Definition MAX_MIME_SIZE : Z := 128.
Definition MAX_METADATA_SIZE : Z := 262144.
Definition MAX_COMMIT_ENVELOPE_SIZE : Z := 102400.
Definition MAX_REVEAL_ENVELOPE_A_SIZE : Z := 102400.
Definition MAX_REVEAL_ENVELOPE_B_SIZE : Z := 12582912.
Definition MAX_UPDATE_ENVELOPE_SIZE : Z := 65536.
Definition MAX_INLINE_FILE_SIZE : Z := 1048576.
Definition MAX_TOTAL_INLINE_SIZE : Z := 10485760.
Definition MAX_PROTOCOLS : Z := 16.
End GlyphLimits.

(** ** Buffer writer and reader ([lib/encoding]) *)

(** Modelled from the spec: [lib/encoding/bufferwriter.js] is not among the
    sources. The encoder "emits magic, version, flags, commit hash, then
    contentRoot if present, then controller if present": a writer is the bytes
    written so far. *)
Definition BufferWriter : Type := Buffer.

(** Modelled from the spec: [new BufferWriter()] of the missing writer, with
    nothing written. *)
Definition new_BufferWriter : BufferWriter := [].

(** Modelled from the spec: [write] of the missing writer appends a buffer
    ("fixed order", "append-only"). *)
Definition write (w : BufferWriter) (buf : Buffer) : BufferWriter := w ++ buf.

(** Modelled from the spec: [writeUInt8] of the missing writer appends the one
    byte of the layout ("version(1) | flags(1)"); a number that is not a byte
    is refused with a RangeError. *)
Definition writeUInt8 (w : BufferWriter) (n : Z) : outcome BufferWriter :=
  if (0 <=? n) && (n <=? 255) then
    match byte_of_Z n with
    | Some b => Ret (w ++ [b])
    | None => Throw RangeError
    end
  else Throw RangeError.

(** Modelled from the spec: [toBuffer] of the missing writer returns the
    bytes written. *)
Definition toBuffer (w : BufferWriter) : Buffer := w.

(** Modelled from the spec: [lib/encoding/bufferreader.js] is not among the
    sources. A reader is the bytes that remain after its position. *)
Definition BufferReader : Type := Buffer.

(** Modelled from the spec: [new BufferReader(buf)] of the missing reader,
    positioned at the start of [buf]. *)
Definition new_BufferReader (buf : Buffer) : BufferReader := buf.

(** Modelled from the spec: [read] of the missing reader "reads exactly" the
    number of bytes asked for; "any underflow/truncation during structured
    reads" is an exception for the caller to catch. *)
Definition read (r : BufferReader) (n : nat) : outcome (Buffer * BufferReader) :=
  if (n <=? List.length r)%nat then Ret (firstn n r, skipn n r)
  else Throw RangeError.

(** Modelled from the spec: [readUInt8] of the missing reader reads the
    version or flags byte as a number, and throws when no byte remains. *)
Definition readUInt8 (r : BufferReader) : outcome (Z * BufferReader) :=
  match r with
  | [] => Throw RangeError
  | b :: rest => Ret (Z_of_byte b, rest)
  end.

(** Modelled from the spec: [readAll] of the missing reader returns "all
    remaining bytes". *)
Definition readAll (r : BufferReader) : Buffer * BufferReader := (r, []).

(** ** Bitwise operators on numbers

    [a | b] and [a & b] work on the 32-bit two's complement form of their
    operands. *)
Definition to_int32 (n : Z) : Z := (n + 2 ^ 31) mod 2 ^ 32 - 2 ^ 31.

Definition js_or (a b : Z) : Z := Z.lor (to_int32 a) (to_int32 b).
Definition js_and (a b : Z) : Z := Z.land (to_int32 a) (to_int32 b).

(** ** Addition of numbers

    A number is a double, with 53 bits of mantissa. The sum of two
    integer-valued numbers is the double nearest to their integer sum, the one
    of even mantissa when two doubles are equally near, and an infinity when
    that would be 2^1024 or more. [round_double x] is that double for the
    integer [x]: below
    2^53 it is [x] itself; from there on, [e] is the exponent of the last bit
    of the mantissa, [q] the mantissa and [r] what lies below it. *)

Inductive number : Type :=
| Finite (n : Z)
| Infinity (negative : bool).

Definition round_double (x : Z) : number :=
  let a := Z.abs x in
  let e := Z.log2 a - 52 in
  let rounded :=
    if e <=? 0 then a
    else
      let q := Z.shiftr a e in
      let r := Z.land a (Z.ones e) in
      let half := Z.shiftl 1 (e - 1) in
      let q := if (r <? half) || ((r =? half) && Z.even q) then q else q + 1 in
      Z.shiftl q e in
  if rounded <? 2 ^ 1024 then Finite (Z.sgn x * rounded)
  else Infinity (x <? 0).

Arguments round_double : simpl never.

(** [total + n], where [n] is a number of the embedding and [total] the
    result of such additions: an infinity stays what it is. *)
Definition js_add (total : number) (n : Z) : number :=
  match total with
  | Finite t => round_double (t + n)
  | Infinity negative => Infinity negative
  end.

(** [v === total]: no value of the embedding is an infinity *)
Definition strict_eq_number (v : value) (total : number) : bool :=
  match total with
  | Finite t => strict_eq_num v t
  | Infinity _ => false
  end.

(** ** Encoder ([lib/glyph/encoder.js]) *)

(** Recursively sort object keys for canonical encoding. The inner function
    is [canonicalizeObject(obj[key])]. *)
Fixpoint canonicalizeObject (obj : value) : value :=
  match obj with
  | VArr elems => VArr (map canonicalizeObject elems)
  | VObj props =>
      let canonical_of :=
        (fix canonical_of (ps : object) (key : string) : value :=
           match ps with
           | [] => VUndefined
           | (k, v) :: rest =>
               if (k =? key)%string then canonicalizeObject v
               else canonical_of rest key
           end) props in
      let sortedKeys := sort (Object_keys props) in
      VObj (fold_left (fun result key => obj_set result key (canonical_of key))
                      sortedKeys [])
  | _ => obj
  end.

(** The argument of [computeCommitHash] and [encodeRevealEnvelope]: a metadata
    object or its canonical bytes ([Buffer.isBuffer]). *)
Inductive metadata_arg : Type :=
| MetaObject (m : object)
| MetaBytes (b : Buffer).

Module CommitOptions.
Record t : Type := mk {
  commitHash : option Buffer;
  flags : option Z;
  contentRoot : option Buffer;
  controller : option Buffer }.
End CommitOptions.

Module RevealOptions.
Record t : Type := mk {
  metadata : metadata_arg;
  files : option (list Buffer) }.
End RevealOptions.

(** ** Decoded envelopes ([lib/glyph/decoder.js]) *)

Module Commit.
Record t : Type := mk {
  version : Z;
  flags : Z;
  commitHash : Buffer;
  contentRoot : option Buffer;
  controller : option Buffer }.
End Commit.

Module Reveal.
Record t : Type := mk {
  version : Z;
  flags : Z;
  metadata : value;
  files : list Buffer;
  rawMetadata : option Buffer }.
End Reveal.

(** [type: 'commit', isReveal: false] or [type: 'reveal', isReveal: true] *)
Inductive envelope : Type :=
| CommitEnvelope (c : Commit.t)
| RevealEnvelope (r : Reveal.t).

Definition isReveal (e : envelope) : bool :=
  match e with CommitEnvelope _ => false | RevealEnvelope _ => true end.

(** ** Validator ([lib/glyph/validator.js])

    Protocol IDs are numbers: a protocol list is a list of integers, and
    [None] stands for an argument that is not an array. *)

Fixpoint assoc {A : Type} (table : list (Z * A)) (key : Z) : option A :=
  match table with
  | [] => None
  | (k, a) :: rest => if k =? key then Some a else assoc rest key
  end.

(** [`${ProtocolNames[id]}`] *)
Definition protocol_name (id : Z) : string :=
  match assoc ProtocolNames id with
  | Some name => name
  | None => "undefined"
  end.

(** Protocol requirements - which protocols require others *)
Definition PROTOCOL_REQUIREMENTS : list (Z * list Z) :=
  [ (GlyphProtocol.GLYPH_DMINT, [GlyphProtocol.GLYPH_FT]);
    (GlyphProtocol.GLYPH_MUT, [GlyphProtocol.GLYPH_NFT]);
    (GlyphProtocol.GLYPH_CONTAINER, [GlyphProtocol.GLYPH_NFT]);
    (GlyphProtocol.GLYPH_ENCRYPTED, [GlyphProtocol.GLYPH_NFT]);
    (GlyphProtocol.GLYPH_TIMELOCK, [GlyphProtocol.GLYPH_ENCRYPTED]);
    (GlyphProtocol.GLYPH_AUTHORITY, [GlyphProtocol.GLYPH_NFT]);
    (GlyphProtocol.GLYPH_WAVE,
      [GlyphProtocol.GLYPH_NFT; GlyphProtocol.GLYPH_MUT]) ].

(** Mutually exclusive protocols *)
Definition PROTOCOL_EXCLUSIONS : list (Z * Z) :=
  [ (GlyphProtocol.GLYPH_FT, GlyphProtocol.GLYPH_NFT) ].

(** Protocols that cannot exist alone *)
Definition PROTOCOLS_REQUIRE_BASE : list Z :=
  [ GlyphProtocol.GLYPH_DMINT;
    GlyphProtocol.GLYPH_MUT;
    GlyphProtocol.GLYPH_BURN;
    GlyphProtocol.GLYPH_CONTAINER;
    GlyphProtocol.GLYPH_ENCRYPTED;
    GlyphProtocol.GLYPH_TIMELOCK;
    GlyphProtocol.GLYPH_AUTHORITY;
    GlyphProtocol.GLYPH_WAVE ].

(** [arr.includes(x)] on numbers *)
Definition includes (arr : list Z) (x : Z) : bool := existsb (Z.eqb x) arr.

Module ProtocolValidation.
Record t : Type := mk { valid : bool; error : option string }.
End ProtocolValidation.

Definition invalid (message : string) : ProtocolValidation.t :=
  ProtocolValidation.mk false (Some message).

(** The loop over [PROTOCOL_EXCLUSIONS] *)
Fixpoint check_exclusions (protocols : list Z) (exclusions : list (Z * Z))
  : option string :=
  match exclusions with
  | [] => None
  | (a, b) :: rest =>
      if includes protocols a && includes protocols b
      then Some (protocol_name a ++ " and " ++ protocol_name b
                 ++ " are mutually exclusive")%string
      else check_exclusions protocols rest
  end.

(** The inner loop [for (const required of requirements)] *)
Fixpoint check_required (protocols : list Z) (protocol : Z)
  (requirements : list Z) : option string :=
  match requirements with
  | [] => None
  | required :: rest =>
      if negb (includes protocols required)
      then Some (protocol_name protocol ++ " requires "
                 ++ protocol_name required)%string
      else check_required protocols protocol rest
  end.

(** The outer loop [for (const protocol of protocols)] *)
Fixpoint check_requirements (protocols todo : list Z) : option string :=
  match todo with
  | [] => None
  | protocol :: rest =>
      let found :=
        match assoc PROTOCOL_REQUIREMENTS protocol with
        | Some requirements => check_required protocols protocol requirements
        | None => None
        end in
      match found with
      | Some message => Some message
      | None => check_requirements protocols rest
      end
  end.

(** Validate protocol combination *)
Definition validateProtocols (protocols : option (list Z))
  : ProtocolValidation.t :=
  match protocols with
  | None => invalid "Protocols array is required"
  | Some protocols =>
      if len protocols =? 0 then invalid "Protocols array is required"
      else if len protocols >? GlyphLimits.MAX_PROTOCOLS
      then invalid "Too many protocols (max 16)"
      else
        match check_exclusions protocols PROTOCOL_EXCLUSIONS with
        | Some message => invalid message
        | None =>
            match check_requirements protocols protocols with
            | Some message => invalid message
            | None =>
                if (len protocols =? 1)
                   && includes PROTOCOLS_REQUIRE_BASE (nth 0 protocols 0)
                then invalid (protocol_name (nth 0 protocols 0)
                              ++ " cannot exist alone")%string
                else if includes protocols GlyphProtocol.GLYPH_BURN
                        && (negb (includes protocols GlyphProtocol.GLYPH_FT)
                            && negb (includes protocols GlyphProtocol.GLYPH_NFT))
                then invalid
                  "Burn must accompany Fungible Token or Non-Fungible Token"
                else ProtocolValidation.mk true None
            end
        end
  end.

(** The metadata object as the validator reads it. A field that is missing
    is [VUndefined]; [p] is [None] when missing and a list of protocol IDs
    otherwise. *)
Module Metadata.
Record t : Type := mk {
  v : value;
  type : value;
  p : option (list Z);
  name : value;
  desc : value;
  content : value;
  ticker : value;
  container : value;
  dmint : value;
  authority : value;
  crypto : value;
  royalty : value }.
End Metadata.

Module MetadataValidation.
Record t : Type := mk { valid : bool; errors : list string }.
End MetadataValidation.

(** [errors.push(message)] *)
Definition push (errors : list string) (message : string) : list string :=
  errors ++ [message].

(** [Buffer.byteLength(x, 'utf8')], which refuses what is not a string *)
Definition byteLength (x : value) : outcome Z :=
  match x with
  | VStr s => Ret (utf8_byteLength s)
  | _ => Throw TypeError
  end.

(** [`${i}`] for an array position *)
Definition index_string (i : nat) : string :=
  NilZero.string_of_uint (Nat.to_uint i).

(** Validate content file object *)
Definition validateContentFile (file : value) (path : string)
  (errors : list string) : outcome (list string) :=
  file_path <- get file "path" ;;
  errors <-
    (if negb (truthy file_path) then Ret (push errors (path ++ " requires path"))
     else
       n <- byteLength file_path ;;
       if n >? GlyphLimits.MAX_PATH_SIZE
       then Ret (push errors (path ++ ".path exceeds 512 bytes"))
       else Ret errors) ;;
  file_mime <- get file "mime" ;;
  errors <-
    (if negb (truthy file_mime)
     then Ret (push errors (path ++ " requires mime type"))
     else
       n <- byteLength file_mime ;;
       if n >? GlyphLimits.MAX_MIME_SIZE
       then Ret (push errors (path ++ ".mime exceeds 128 bytes"))
       else Ret errors) ;;
  file_size <- get file "size" ;;
  let errors :=
    if negb (isNumber file_size) then push errors (path ++ " requires size")
    else errors in
  file_hash <- get file "hash" ;;
  missing_hash <-
    (if negb (truthy file_hash) then Ret true
     else
       algo <- get file_hash "algo" ;;
       if negb (truthy algo) then Ret true
       else hex <- get file_hash "hex" ;; Ret (negb (truthy hex))) ;;
  if (missing_hash : bool)
  then Ret (push errors (path ++ " requires hash with algo and hex"))
  else Ret errors.

(** [content.files.forEach((file, i) => ...)], from position [i] on *)
Fixpoint forEach_file (files : list value) (i : nat) (errors : list string)
  : outcome (list string) :=
  match files with
  | [] => Ret errors
  | file :: rest =>
      errors <- validateContentFile file
                  ("content.files[" ++ index_string i ++ "]") errors ;;
      forEach_file rest (S i) errors
  end.

(** [content.refs.forEach((ref, i) => ...)], from position [i] on *)
Fixpoint forEach_ref (refs : list value) (i : nat) (errors : list string)
  : outcome (list string) :=
  match refs with
  | [] => Ret errors
  | ref :: rest =>
      let path := ("content.refs[" ++ index_string i ++ "]")%string in
      errors <- validateContentFile ref path errors ;;
      uri <- get ref "uri" ;;
      let errors :=
        if negb (truthy uri)
        then push errors (path ++ " requires uri for external reference")
        else errors in
      forEach_ref rest (S i) errors
  end.

(** Validate content object *)
Definition validateContent (content : value) (errors : list string)
  : outcome (list string) :=
  primary <- get content "primary" ;;
  errors <-
    (if truthy primary then validateContentFile primary "content.primary" errors
     else Ret errors) ;;
  files <- get content "files" ;;
  errors <-
    match files with
    | VArr files => forEach_file files 0 errors
    | _ => Ret errors
    end ;;
  refs <- get content "refs" ;;
  match refs with
  | VArr refs => forEach_ref refs 0 errors
  | _ => Ret errors
  end.

(** [royalty.splits.forEach((split, i) => ...)], from position [i] on; the
    state is the error list and [totalBps]. *)
Fixpoint forEach_split (splits : list value) (i : nat)
  (errors : list string) (totalBps : number)
  : outcome (list string * number) :=
  match splits with
  | [] => Ret (errors, totalBps)
  | split :: rest =>
      address <- get split "address" ;;
      let errors :=
        if negb (truthy address)
        then push errors ("royalty.splits[" ++ index_string i
                          ++ "] requires address")
        else errors in
      bps <- get split "bps" ;;
      match bps with
      | VNum n => forEach_split rest (S i) errors (js_add totalBps n)
      | _ =>
          forEach_split rest (S i)
            (push errors ("royalty.splits[" ++ index_string i
                          ++ "] requires bps"))
            totalBps
      end
  end.

(** Validate royalty object *)
Definition validateRoyalty (royalty : value) (errors : list string)
  : outcome (list string) :=
  bps <- get royalty "bps" ;;
  let errors :=
    match bps with
    | VNum n =>
        if (n <? 0) || (n >? 10000)
        then push errors "Royalty bps must be 0-10000"
        else errors
    | _ => push errors "Royalty bps must be 0-10000"
    end in
  address <- get royalty "address" ;;
  let errors :=
    if negb (truthy address) then push errors "Royalty requires address"
    else errors in
  splits <- get royalty "splits" ;;
  match splits with
  | VArr splits =>
      '(errors, totalBps) <- forEach_split splits 0 errors (Finite 0) ;;
      if negb (strict_eq_number bps totalBps)
      then Ret (push errors "Royalty splits must sum to total bps")
      else Ret errors
  | _ => Ret errors
  end.

(** The parts of [validateMetadata], named after its comments *)

(** Required fields *)
Definition requiredFields (metadata : Metadata.t) (errors : list string)
  : list string :=
  let v := Metadata.v metadata in
  let errors :=
    if negb (truthy v)
       || (negb (strict_eq_num v GlyphVersion.V1)
           && negb (strict_eq_num v GlyphVersion.V2))
    then push errors "Invalid or missing version (v)"
    else errors in
  let errors :=
    if negb (truthy (Metadata.type metadata))
       || negb (isString (Metadata.type metadata))
    then push errors "Missing type field"
    else errors in
  match Metadata.p metadata with
  | None => push errors "Missing protocols array (p)"
  | Some protocols =>
      let protocolValidation := validateProtocols (Some protocols) in
      if negb (ProtocolValidation.valid protocolValidation)
      then match ProtocolValidation.error protocolValidation with
           | Some message => push errors message
           | None => errors
           end
      else errors
  end.

(** Size limits *)
Definition sizeLimits (metadata : Metadata.t) (errors : list string)
  : outcome (list string) :=
  errors <-
    (if truthy (Metadata.name metadata) then
       n <- byteLength (Metadata.name metadata) ;;
       if n >? GlyphLimits.MAX_NAME_SIZE
       then Ret (push errors "Name exceeds 256 bytes")
       else Ret errors
     else Ret errors) ;;
  if truthy (Metadata.desc metadata) then
    n <- byteLength (Metadata.desc metadata) ;;
    if n >? GlyphLimits.MAX_DESC_SIZE
    then Ret (push errors "Description exceeds 4096 bytes")
    else Ret errors
  else Ret errors.

(** Type-specific validation *)
Definition typeSpecific (metadata : Metadata.t) (errors : list string)
  : outcome (list string) :=
  match Metadata.p metadata with
  | None => Ret errors
  | Some protocols =>
      errors <-
        (if includes protocols GlyphProtocol.GLYPH_NFT then
           if negb (truthy (Metadata.content metadata))
           then Ret (push errors "NFT requires content.primary")
           else
             primary <- get (Metadata.content metadata) "primary" ;;
             if negb (truthy primary)
             then Ret (push errors "NFT requires content.primary")
             else Ret errors
         else Ret errors) ;;
      let errors :=
        if includes protocols GlyphProtocol.GLYPH_FT
           && (negb (truthy (Metadata.content metadata))
               && negb (truthy (Metadata.ticker metadata)))
        then push errors "FT requires ticker if no content"
        else errors in
      let errors :=
        if includes protocols GlyphProtocol.GLYPH_CONTAINER
           && negb (truthy (Metadata.container metadata))
        then push errors "Container protocol requires container object"
        else errors in
      let errors :=
        if includes protocols GlyphProtocol.GLYPH_DMINT
           && negb (truthy (Metadata.dmint metadata))
        then push errors "dMint protocol requires dmint configuration"
        else errors in
      let errors :=
        if includes protocols GlyphProtocol.GLYPH_AUTHORITY
           && negb (truthy (Metadata.authority metadata))
        then push errors "Authority protocol requires authority object"
        else errors in
      let errors :=
        if includes protocols GlyphProtocol.GLYPH_ENCRYPTED
           && negb (truthy (Metadata.crypto metadata))
        then push errors "Encrypted protocol requires crypto object"
        else errors in
      Ret errors
  end.

(** Validate Glyph metadata object *)
Definition validateMetadata (metadata : Metadata.t)
  : outcome MetadataValidation.t :=
  let errors := [] in
  let errors := requiredFields metadata errors in
  errors <- sizeLimits metadata errors ;;
  errors <- typeSpecific metadata errors ;;
  (* Content validation *)
  errors <-
    (if truthy (Metadata.content metadata)
     then validateContent (Metadata.content metadata) errors
     else Ret errors) ;;
  (* Royalty validation *)
  errors <-
    (if truthy (Metadata.royalty metadata)
     then validateRoyalty (Metadata.royalty metadata) errors
     else Ret errors) ;;
  Ret (MetadataValidation.mk (len errors =? 0) errors).

(** ** Stand-ins for the external functions

    The development is parametric in [JSON.stringify], [JSON.parse],
    [buf.toString('utf8')] and the hash provider. To run the encoder and the
    decoder on concrete inputs, the examples use these stand-ins: a serializer
    in the style of [JSON.stringify], a parser that knows the empty object
    only, the reading of bytes as code units, and a 32-byte truncation in the
    place of the hash. *)

Definition double_quote : ascii := ascii_of_nat 34.
Definition backslash : ascii := ascii_of_nat 92.

Fixpoint sample_escape (s : string) : string :=
  match s with
  | EmptyString => EmptyString
  | String c rest =>
      if ((c =? double_quote) || (c =? backslash))%char
      then String backslash (String c (sample_escape rest))
      else String c (sample_escape rest)
  end.

Definition sample_quote (s : string) : string :=
  String double_quote (sample_escape s ++ String double_quote EmptyString).

Fixpoint sample_stringify (v : value) : string :=
  match v with
  | VUndefined | VNull => "null"
  | VBool true => "true"
  | VBool false => "false"
  | VNum n => NilZero.string_of_int (Z.to_int n)
  | VStr s => sample_quote s
  | VArr elems =>
      "[" ++
      (fix items (l : list value) : string :=
         match l with
         | [] => EmptyString
         | x :: rest =>
             sample_stringify x
             ++ match rest with [] => EmptyString | _ => "," ++ items rest end
         end) elems
      ++ "]"
  | VObj props =>
      "{" ++
      (fix members (ps : object) : string :=
         match ps with
         | [] => EmptyString
         | (k, x) :: rest =>
             sample_quote k ++ ":" ++ sample_stringify x
             ++ match rest with [] => EmptyString | _ => "," ++ members rest end
         end) props
      ++ "}"
  end%string.

Definition sample_toString (buf : Buffer) : string := string_of_list_byte buf.

Definition sample_parse (s : string) : outcome value :=
  if (s =? "{}")%string then Ret (VObj []) else Throw SyntaxError.

Definition sample_hash (bytes : Buffer) : Buffer :=
  firstn 32 (bytes ++ repeat x00 32).

Section Glyph.

(** [JSON.stringify], the hash provider ([Hash.sha256]), [buf.toString('utf8')]
    and [JSON.parse] are not part of this code base: the development holds for
    every choice of them. *)
Variable JSON_stringify : value -> string.
Variable sha256 : Buffer -> Buffer.
Variable Buffer_toString_utf8 : Buffer -> string.
Variable JSON_parse : string -> outcome value.

(** Encode metadata object to canonical JSON bytes. Returns the metadata
    object as the call leaves it, and the bytes. *)
Definition encodeMetadata (metadata : object) : object * Buffer :=
  let metadata :=
    if negb (truthy (lookup metadata "v"))
    then obj_set metadata "v" (VNum GlyphVersion.V2)
    else metadata in
  let canonical := canonicalizeObject (VObj metadata) in
  let jsonStr := JSON_stringify canonical in
  (metadata, Buffer_from_utf8 jsonStr).

Definition metadataBytes_of (metadata : metadata_arg) : metadata_arg * Buffer :=
  match metadata with
  | MetaBytes b => (MetaBytes b, b)
  | MetaObject m => let '(m', bytes) := encodeMetadata m in (MetaObject m', bytes)
  end.

Definition computeCommitHash (metadata : metadata_arg) : metadata_arg * Buffer :=
  let '(metadata, bytes) := metadataBytes_of metadata in
  (metadata, sha256 bytes).

Definition encodeCommitEnvelope (options : CommitOptions.t) : outcome Buffer :=
  let commitHash := CommitOptions.commitHash options in
  let flags := match CommitOptions.flags options with Some f => f | None => 0 end in
  let contentRoot := CommitOptions.contentRoot options in
  let controller := CommitOptions.controller options in
  match commitHash with
  | None => Throw (Error "Invalid commit hash")
  | Some commitHash =>
      if negb (len commitHash =? 32) then Throw (Error "Invalid commit hash")
      else
        let writer := new_BufferWriter in
        let writer := write writer GLYPH_MAGIC in
        writer <- writeUInt8 writer GlyphVersion.V2 ;;
        let actualFlags := flags in
        let actualFlags :=
          match contentRoot with
          | Some _ => js_or actualFlags EnvelopeFlags.HAS_CONTENT_ROOT
          | None => actualFlags
          end in
        let actualFlags :=
          match controller with
          | Some _ => js_or actualFlags EnvelopeFlags.HAS_CONTROLLER
          | None => actualFlags
          end in
        writer <- writeUInt8 writer actualFlags ;;
        let writer := write writer commitHash in
        let writer :=
          match contentRoot with
          | Some contentRoot => write writer contentRoot
          | None => writer
          end in
        let writer :=
          match controller with
          | Some controller => write writer controller
          | None => writer
          end in
        Ret (toBuffer writer)
  end.

(** The loop over [files] of [encodeRevealEnvelope] *)
Fixpoint push_files (files chunks : list Buffer) : outcome (list Buffer) :=
  match files with
  | [] => Ret chunks
  | file :: rest =>
      if len file >? GlyphLimits.MAX_INLINE_FILE_SIZE
      then Throw (Error "File exceeds maximum inline size of 1048576 bytes")
      else push_files rest (chunks ++ [file])
  end.

Definition encodeRevealEnvelope (options : RevealOptions.t)
  : metadata_arg * outcome (list Buffer) :=
  let metadata := RevealOptions.metadata options in
  let files := match RevealOptions.files options with Some f => f | None => [] end in
  let '(metadata, metadataBytes) := metadataBytes_of metadata in
  if len metadataBytes >? GlyphLimits.MAX_METADATA_SIZE
  then (metadata, Throw (Error "Metadata exceeds maximum size of 262144 bytes"))
  else
    let chunks := [] in
    let header :=
      GLYPH_MAGIC ++
      match byte_of_Z GlyphVersion.V2, byte_of_Z EnvelopeFlags.IS_REVEAL with
      | Some v, Some f => [v; f]
      | _, _ => []
      end in
    let chunks := chunks ++ [header] in
    let chunks := chunks ++ [metadataBytes] in
    (metadata, push_files files chunks).

Definition encodeRevealEnvelopeB (options : RevealOptions.t)
  : metadata_arg * list Buffer :=
  let metadata := RevealOptions.metadata options in
  let files := match RevealOptions.files options with Some f => f | None => [] end in
  let '(metadata, metadataBytes) := metadataBytes_of metadata in
  (metadata, [GLYPH_MAGIC] ++ [metadataBytes] ++ files).

(** ** Decoder ([lib/glyph/decoder.js]) *)

Definition decodeCommitEnvelope (reader : BufferReader) (version flags : Z)
  : outcome envelope :=
  '(commitHash, reader) <- read reader 32 ;;
  '(contentRoot, reader) <-
    (if negb (js_and flags EnvelopeFlags.HAS_CONTENT_ROOT =? 0)
     then '(b, reader) <- read reader 32 ;; Ret (Some b, reader)
     else Ret (None, reader)) ;;
  '(controller, reader) <-
    (if negb (js_and flags EnvelopeFlags.HAS_CONTROLLER =? 0)
     then '(b, reader) <- read reader 36 ;; Ret (Some b, reader)
     else Ret (None, reader)) ;;
  Ret (CommitEnvelope (Commit.mk version flags commitHash contentRoot controller)).

Definition decodeRevealEnvelope (reader : BufferReader) (version flags : Z)
  : outcome envelope :=
  let result := Reveal.mk version flags VNull [] None in
  let '(remaining, reader) := readAll reader in
  if len remaining >? 0 then
    try_catch
      (let metadataJson := Buffer_toString_utf8 remaining in
       metadata <- JSON_parse metadataJson ;;
       Ret (RevealEnvelope (Reveal.mk version flags metadata [] None)))
      (fun e =>
         Ret (RevealEnvelope (Reveal.mk version flags VNull [] (Some remaining))))
  else Ret (RevealEnvelope result).

(** Decode an envelope from script buffer; [None] is [null]. *)
Definition decodeEnvelope (scriptBuf : Buffer) : outcome (option envelope) :=
  let magicIndex := indexOf scriptBuf GLYPH_MAGIC in
  if magicIndex =? -1 then Ret None
  else
    try_catch
      (let reader := new_BufferReader (slice_from scriptBuf magicIndex) in
       '(_, reader) <- read reader 3 ;;
       '(version, reader) <- readUInt8 reader ;;
       if negb (version =? GlyphVersion.V1) && negb (version =? GlyphVersion.V2)
       then Ret None
       else
         '(flags, reader) <- readUInt8 reader ;;
         let isReveal := negb (js_and flags EnvelopeFlags.IS_REVEAL =? 0) in
         if isReveal
         then e <- decodeRevealEnvelope reader version flags ;; Ret (Some e)
         else e <- decodeCommitEnvelope reader version flags ;; Ret (Some e))
      (fun e => Ret None).

End Glyph.

(** ** Constant-time comparison ([lib/util/fixed_time.js]) *)

(** [a ^ b] works on the 32-bit two's complement form of its operands. *)
Definition js_xor (a b : Z) : Z := Z.lxor (to_int32 a) (to_int32 b).

Module FixedTime.

(** The loop [for (var i = 0; i < a.length; i++) res |= a[i] ^ b[i]] of
    [areEqual], which runs on two buffers of the same length: both are walked
    together. *)
Fixpoint areEqual_loop (a b : Buffer) (res : Z) : Z :=
  match a, b with
  | x :: a', y :: b' =>
      areEqual_loop a' b' (js_or res (js_xor (Z_of_byte x) (Z_of_byte y)))
  | _, _ => res
  end.

(** Constant-time comparison of two buffers *)
Definition areEqual (a b : Buffer) : bool :=
  if negb (len a =? len b) then false
  else
    let res := 0 in
    let res := areEqual_loop a b res in
    res =? 0.

End FixedTime.

(** ** Further functions of the decoder ([lib/glyph/decoder.js]) *)

(** [buf.toString('hex')]: two lower-case hexadecimal digits per byte *)
Definition hex_char (n : N) : ascii :=
  if (n <? 10)%N then ascii_of_N (48 + n) else ascii_of_N (87 + n).

Definition hex_of_byte (b : byte) : string :=
  let n := Byte.to_N b in
  String (hex_char (n / 16)) (String (hex_char (n mod 16)) EmptyString).

Fixpoint Buffer_toString_hex (buf : Buffer) : string :=
  match buf with
  | [] => EmptyString
  | b :: rest => (hex_of_byte b ++ Buffer_toString_hex rest)%string
  end.

Definition GLYPH_MAGIC_HEX : string := "676c79".

(** [str.includes(needle)] *)
Fixpoint String_includes (str needle : string) : bool :=
  String.prefix needle str
  || match str with
     | EmptyString => false
     | String _ rest => String_includes rest needle
     end.

(** Check if buffer contains Glyph magic bytes *)
Definition containsGlyphMagic (buf : Buffer) : bool :=
  let hex := Buffer_toString_hex buf in
  String_includes hex GLYPH_MAGIC_HEX.

(** A transaction as the decoder reads it: the bytes of each output's script
    ([output.script.toBuffer()]) and, for each input, the bytes of its script
    when it has one ([input.script && ...]). *)
Module Transaction.
Record t : Type := mk {
  outputs : list Buffer;
  inputs : list (option Buffer) }.
End Transaction.

(** Check if a transaction contains Glyph data *)
Definition isGlyphTransaction (tx : Transaction.t) : bool :=
  if existsb containsGlyphMagic (Transaction.outputs tx) then true
  else if existsb (fun input =>
                     match input with
                     | Some script => containsGlyphMagic script
                     | None => false
                     end) (Transaction.inputs tx)
  then true
  else false.

(** The result of [parseGlyphTransaction]:
    [{ type, outputIndex, envelope }] or [{ type, inputIndex, envelope }] *)
Module Parsed.
Inductive place : Type :=
| outputIndex (i : Z)
| inputIndex (i : Z).
Record t : Type := mk {
  type : string;
  index : place;
  envelope : envelope }.
End Parsed.

(** [`${txid}:${vout}`] prints the number [vout]: an integer below 10^21 in
    absolute value is printed in decimal, with a sign when negative. *)
Definition Number_toString (n : Z) : string :=
  NilZero.string_of_int (Z.to_int n).

(** Extract Glyph ID from reveal transaction *)
Definition getGlyphId (txid : string) (vout : Z) : string :=
  (txid ++ ":" ++ Number_toString vout)%string.

(** [str.split(':')] *)
Fixpoint split_colon (str : string) : list string :=
  match str with
  | EmptyString => [EmptyString]
  | String c rest =>
      if (c =? ":")%char then EmptyString :: split_colon rest
      else match split_colon rest with
           | part :: parts => String c part :: parts
           | [] => [String c EmptyString]
           end
  end.

(** White space and line terminators among the code units below 256 *)
Definition is_whitespace (c : ascii) : bool :=
  let n := N_of_ascii c in
  ((9 <=? n) && (n <=? 13) || (n =? 32) || (n =? 160))%N.

Fixpoint trim_start (s : string) : string :=
  match s with
  | EmptyString => EmptyString
  | String c rest => if is_whitespace c then trim_start rest else s
  end.

(** The value of the longest prefix of decimal digits *)
Fixpoint parse_digits (s : string) (acc : N) : N :=
  match s with
  | EmptyString => acc
  | String c rest =>
      match digit c with
      | Some d => parse_digits rest (10 * acc + d)%N
      | None => acc
      end
  end.

(** [parseInt(x, 10)] of a string or of [undefined] ([None]); the result
    [None] is NaN. Leading white space is skipped, then a sign is read, then
    the longest prefix of digits; without a digit the result is NaN, as it is
    for [undefined]. *)
Definition parseInt (x : option string) : option Z :=
  match x with
  | None => None
  | Some s =>
      let s := trim_start s in
      let '(sign, s) :=
        match s with
        | String c rest =>
            if (c =? "-")%char then (-1, rest)
            else if (c =? "+")%char then (1, rest)
            else (1, s)
        | EmptyString => (1, s)
        end in
      match s with
      | EmptyString => None
      | String c _ =>
          match digit c with
          | Some _ => Some (sign * Z.of_N (parse_digits s 0))
          | None => None
          end
      end
  end.

Module GlyphId.
Record t : Type := mk { txid : string; vout : option Z }.
End GlyphId.

(** Parse Glyph ID into components: [const [txid, voutStr] = glyphId.split(':')]
    takes the first two parts; the second is [undefined] when there is one
    part only. *)
Definition parseGlyphId (glyphId : string) : GlyphId.t :=
  let parts := split_colon glyphId in
  let txid := nth 0 parts EmptyString in
  let voutStr := nth_error parts 1 in
  GlyphId.mk txid (parseInt voutStr).

(** ** Further functions of the validator ([lib/glyph/validator.js]) *)

(** Get token type from protocols *)
Definition getTokenType (protocols : list Z) : string :=
  if includes protocols GlyphProtocol.GLYPH_FT then
    if includes protocols GlyphProtocol.GLYPH_DMINT then "dMint Fungible Token"
    else "Fungible Token"
  else if includes protocols GlyphProtocol.GLYPH_NFT then
    if includes protocols GlyphProtocol.GLYPH_WAVE then "WAVE Name"
    else if includes protocols GlyphProtocol.GLYPH_AUTHORITY
    then "Authority Token"
    else if includes protocols GlyphProtocol.GLYPH_CONTAINER then "Container"
    else if includes protocols GlyphProtocol.GLYPH_ENCRYPTED
    then "Encrypted NFT"
    else if includes protocols GlyphProtocol.GLYPH_MUT then "Mutable NFT"
    else "NFT"
  else if includes protocols GlyphProtocol.GLYPH_DAT then "Data Token"
  else "Unknown".

(** Check if metadata represents a valid Glyph *)
Definition isValidGlyph (metadata : Metadata.t) : outcome bool :=
  result <- validateMetadata metadata ;;
  Ret (MetadataValidation.valid result).

Section GlyphTransactions.

Variable JSON_stringify : value -> string.
Variable Buffer_toString_utf8 : Buffer -> string.
Variable JSON_parse : string -> outcome value.


(** Decode metadata from bytes *)
Definition decodeMetadata (buf : Buffer) : outcome value :=
  let jsonStr := Buffer_toString_utf8 buf in
  JSON_parse jsonStr.

(** The loop over [tx.outputs] of [parseGlyphTransaction], from position [i]
    on; [None] when no output returns. *)
Fixpoint parse_outputs (outputs : list Buffer) (i : Z)
  : outcome (option Parsed.t) :=
  match outputs with
  | [] => Ret None
  | scriptBuf :: rest =>
      envelope <- decodeEnvelope Buffer_toString_utf8 JSON_parse scriptBuf ;;
      match envelope with
      | Some envelope =>
          Ret (Some (Parsed.mk (if isReveal envelope then "reveal" else "commit")
                               (Parsed.outputIndex i) envelope))
      | None => parse_outputs rest (i + 1)
      end
  end.

(** The loop over [tx.inputs] of [parseGlyphTransaction], from position [i]
    on *)
Fixpoint parse_inputs (inputs : list (option Buffer)) (i : Z)
  : outcome (option Parsed.t) :=
  match inputs with
  | [] => Ret None
  | None :: rest => parse_inputs rest (i + 1)
  | Some scriptBuf :: rest =>
      envelope <- decodeEnvelope Buffer_toString_utf8 JSON_parse scriptBuf ;;
      match envelope with
      | Some envelope =>
          if isReveal envelope
          then Ret (Some (Parsed.mk "reveal" (Parsed.inputIndex i) envelope))
          else parse_inputs rest (i + 1)
      | None => parse_inputs rest (i + 1)
      end
  end.

(** Parse a Glyph transaction; [None] is [null]. *)
Definition parseGlyphTransaction (tx : Transaction.t)
  : outcome (option Parsed.t) :=
  found <- parse_outputs (Transaction.outputs tx) 0 ;;
  match found with
  | Some parsed => Ret (Some parsed)
  | None => parse_inputs (Transaction.inputs tx) 0
  end.

End GlyphTransactions.

(** ** Notions used to state the properties *)

(** Structural equality of metadata values up to the order in which objects
    list their keys: the same keys with equivalent values, at every depth;
    arrays are compared position by position. *)
Inductive equivalent : value -> value -> Prop :=
| equivalent_primitive (v : value) :
    match v with VArr _ | VObj _ => False | _ => True end ->
    equivalent v v
| equivalent_array (l1 l2 : list value) :
    Forall2 equivalent l1 l2 ->
    equivalent (VArr l1) (VArr l2)
| equivalent_object (p1 p2 : object) :
    NoDup (Object_keys p1) ->
    NoDup (Object_keys p2) ->
    (forall k, In k (Object_keys p1) <-> In k (Object_keys p2)) ->
    (forall k, In k (Object_keys p1) -> equivalent (lookup p1 k) (lookup p2 k)) ->
    equivalent (VObj p1) (VObj p2).

(** A key that is neither an array index nor ["__proto__"] *)
Definition plain_key (key : string) : Prop :=
  array_index key = None /\ key <> "__proto__".

(** The order of strings by code units *)
Definition string_le (a b : string) : Prop := (a <=? b)%string = true.

(** The rules of [validateProtocols] as the specification words them, in
    their order of priority. *)
Inductive rule : Type :=
| Structural
| MutualExclusion
| DependencyRequirement
| StandaloneForbidden
| BurnSpecialCase.

Definition present (id : Z) (protocols : list Z) : bool :=
  if in_dec Z.eq_dec id protocols then true else false.

(** (1) must be a non-empty list of at most 16 entries *)
Definition spec_structural (protocols : option (list Z)) : bool :=
  match protocols with
  | None => false
  | Some l => (1 <=? List.length l)%nat && (List.length l <=? 16)%nat
  end.

(** (2) FT and NFT cannot co-occur *)
Definition spec_exclusion (l : list Z) : bool :=
  negb (present GlyphProtocol.GLYPH_FT l && present GlyphProtocol.GLYPH_NFT l).

(** (3) DMINT requires FT; MUT, CONTAINER, ENCRYPTED, AUTHORITY each require
    NFT; TIMELOCK requires ENCRYPTED; WAVE requires both NFT and MUT *)
Definition spec_dependency_pairs : list (Z * Z) :=
  [ (GlyphProtocol.GLYPH_DMINT, GlyphProtocol.GLYPH_FT);
    (GlyphProtocol.GLYPH_MUT, GlyphProtocol.GLYPH_NFT);
    (GlyphProtocol.GLYPH_CONTAINER, GlyphProtocol.GLYPH_NFT);
    (GlyphProtocol.GLYPH_ENCRYPTED, GlyphProtocol.GLYPH_NFT);
    (GlyphProtocol.GLYPH_AUTHORITY, GlyphProtocol.GLYPH_NFT);
    (GlyphProtocol.GLYPH_TIMELOCK, GlyphProtocol.GLYPH_ENCRYPTED);
    (GlyphProtocol.GLYPH_WAVE, GlyphProtocol.GLYPH_NFT);
    (GlyphProtocol.GLYPH_WAVE, GlyphProtocol.GLYPH_MUT) ].

Definition spec_dependencies (l : list Z) : bool :=
  forallb (fun '(a, b) => implb (present a l) (present b l))
          spec_dependency_pairs.

(** (4) DMINT, MUT, BURN, CONTAINER, ENCRYPTED, TIMELOCK, AUTHORITY, WAVE may
    never be the sole protocol present *)
Definition spec_never_sole : list Z :=
  [ GlyphProtocol.GLYPH_DMINT; GlyphProtocol.GLYPH_MUT;
    GlyphProtocol.GLYPH_BURN; GlyphProtocol.GLYPH_CONTAINER;
    GlyphProtocol.GLYPH_ENCRYPTED; GlyphProtocol.GLYPH_TIMELOCK;
    GlyphProtocol.GLYPH_AUTHORITY; GlyphProtocol.GLYPH_WAVE ].

(** A token is described by the set of the IDs of its list: [id] is the sole
    protocol present when it is present and no entry of the list is another
    ID, however often the list repeats it. *)
Definition sole_protocol (id : Z) (l : list Z) : bool :=
  present id l && forallb (Z.eqb id) l.


(** (5) BURN must co-occur with FT or NFT *)
Definition spec_burn (l : list Z) : bool :=
  implb (present GlyphProtocol.GLYPH_BURN l)
        (present GlyphProtocol.GLYPH_FT l || present GlyphProtocol.GLYPH_NFT l).


(** The fourth check as [validateProtocols] makes it
    ([protocols.length === 1 && PROTOCOLS_REQUIRE_BASE.includes(protocols[0])]):
    it looks at a list of one entry only. *)
Definition single_entry_check (l : list Z) : bool :=
  match l with
  | [id] => negb (present id spec_never_sole)
  | _ => true
  end.

(** The first of the five checks that fails, the fourth taken as the code
    makes it *)
Definition first_failed_check (protocols : option (list Z)) : option rule :=
  if negb (spec_structural protocols) then Some Structural
  else
    match protocols with
    | None => Some Structural
    | Some l =>
        if negb (spec_exclusion l) then Some MutualExclusion
        else if negb (spec_dependencies l) then Some DependencyRequirement
        else if negb (single_entry_check l) then Some StandaloneForbidden
        else if negb (spec_burn l) then Some BurnSpecialCase
        else None
    end.


(** The messages that report a violation of each rule *)
Definition reports (r : rule) (protocols : option (list Z)) (message : string)
  : Prop :=
  match r with
  | Structural =>
      message = "Protocols array is required"
      \/ message = "Too many protocols (max 16)"
  | MutualExclusion =>
      message = "Fungible Token and Non-Fungible Token are mutually exclusive"
  | DependencyRequirement =>
      exists a b l,
        protocols = Some l /\ In (a, b) spec_dependency_pairs
        /\ In a l /\ ~ In b l
        /\ message = (protocol_name a ++ " requires " ++ protocol_name b)%string
  | StandaloneForbidden =>
      exists a l,
        protocols = Some l /\ In a spec_never_sole
        /\ sole_protocol a l = true
        /\ message = (protocol_name a ++ " cannot exist alone")%string
  | BurnSpecialCase =>
      message = "Burn must accompany Fungible Token or Non-Fungible Token"
  end.




(** The integer sum of [splits[].bps] *)
Fixpoint splits_bps_sum (splits : list value) : Z :=
  match splits with
  | [] => 0
  | split :: rest =>
      match split with
      | VObj props =>
          match lookup props "bps" with
          | VNum n => n + splits_bps_sum rest
          | _ => splits_bps_sum rest
          end
      | _ => splits_bps_sum rest
      end
  end.


(** What follows the magic is a truncated header (fewer than the two bytes
    of version and flags) or starts with an unknown version byte. *)
Definition truncated_or_unknown_version (rest : Buffer) : Prop :=
  match rest with
  | [] => True
  | [_] => True
  | version :: _ =>
      Z_of_byte version <> GlyphVersion.V1 /\ Z_of_byte version <> GlyphVersion.V2
  end.

(** [str.includes(c)] for one character *)
Fixpoint contains_char (c : ascii) (s : string) : bool :=
  match s with
  | EmptyString => false
  | String x rest => (x =? c)%char || contains_char c rest
  end.

(** The integers that a number represents exactly *)
Definition safe_integer (n : Z) : Prop := - 2 ^ 53 < n < 2 ^ 53.

(** [v.key] as a value: [undefined] where [v] has no such property *)
Definition field (v : value) (key : string) : value :=
  match v with
  | VObj props => lookup props key
  | _ => VUndefined
  end.

(** The running total of the [bps] of [splits], from [total] on, stays
    within the safe integers: each addition of the code is then exact. *)
Fixpoint safe_sums (splits : list value) (total : Z) : Prop :=
  match splits with
  | [] => True
  | split :: rest =>
      match field split "bps" with
      | VNum n => safe_integer (total + n) /\ safe_sums rest (total + n)
      | _ => safe_sums rest total
      end
  end.

(** A royalty whose [splits], when an array, have such a running total *)
Definition safe_royalty (royalty : value) : Prop :=
  match field royalty "splits" with
  | VArr splits => safe_sums splits 0
  | _ => True
  end.

(** [undefined] or [null] *)
Definition nullish (v : value) : bool :=
  match v with VUndefined | VNull => true | _ => false end.

(** A step of validation only appends to the errors array: the entries it
    finds stay in place, and what it adds, or whether it throws, does not
    depend on them. *)
Definition appends (step : list string -> outcome (list string)) : Prop :=
  forall errors,
    step errors
    = match step [] with
      | Ret added => Ret (errors ++ added)
      | Throw e => Throw e
      end.

(** A non-empty string of at most [limit] bytes *)
Definition string_within (x : value) (limit : Z) : bool :=
  match x with
  | VStr s => truthy x && (utf8_byteLength s <=? limit)
  | _ => false
  end.

(** A file object that passes every check of [validateContentFile] *)
Definition file_accepted (file : value) : bool :=
  string_within (field file "path") GlyphLimits.MAX_PATH_SIZE
  && string_within (field file "mime") GlyphLimits.MAX_MIME_SIZE
  && isNumber (field file "size")
  && truthy (field file "hash")
  && truthy (field (field file "hash") "algo")
  && truthy (field (field file "hash") "hex").

(** A content object that passes every check of [validateContent] *)
Definition content_accepted (content : value) : bool :=
  (negb (truthy (field content "primary"))
   || file_accepted (field content "primary"))
  && match field content "files" with
     | VArr files => forallb file_accepted files
     | _ => true
     end
  && match field content "refs" with
     | VArr refs =>
         forallb (fun ref => file_accepted ref && truthy (field ref "uri")) refs
     | _ => true
     end.

(** The total of the [bps] of the splits, when every split has an address
    and a numeric [bps] *)
Fixpoint splits_total (splits : list value) : option Z :=
  match splits with
  | [] => Some 0
  | split :: rest =>
      match field split "bps", splits_total rest with
      | VNum n, Some total =>
          if truthy (field split "address") then Some (n + total) else None
      | _, _ => None
      end
  end.

(** A royalty object that passes every check of [validateRoyalty] *)
Definition royalty_accepted (royalty : value) : bool :=
  match field royalty "bps" with
  | VNum bps =>
      (0 <=? bps) && (bps <=? 10000)
      && truthy (field royalty "address")
      && match field royalty "splits" with
         | VArr splits =>
             match splits_total splits with
             | Some total => total =? bps
             | None => false
             end
         | _ => true
         end
  | _ => false
  end.

(** The type-specific requirements of [validateMetadata] *)
Definition type_specific_accepted (metadata : Metadata.t) : bool :=
  match Metadata.p metadata with
  | None => true
  | Some protocols =>
      implb (includes protocols GlyphProtocol.GLYPH_NFT)
            (truthy (Metadata.content metadata)
             && truthy (field (Metadata.content metadata) "primary"))
      && implb (includes protocols GlyphProtocol.GLYPH_FT)
               (truthy (Metadata.content metadata)
                || truthy (Metadata.ticker metadata))
      && implb (includes protocols GlyphProtocol.GLYPH_CONTAINER)
               (truthy (Metadata.container metadata))
      && implb (includes protocols GlyphProtocol.GLYPH_DMINT)
               (truthy (Metadata.dmint metadata))
      && implb (includes protocols GlyphProtocol.GLYPH_AUTHORITY)
               (truthy (Metadata.authority metadata))
      && implb (includes protocols GlyphProtocol.GLYPH_ENCRYPTED)
               (truthy (Metadata.crypto metadata))
  end.

(** A metadata object that passes every check of [validateMetadata] *)
Definition metadata_accepted (metadata : Metadata.t) : bool :=
  (strict_eq_num (Metadata.v metadata) GlyphVersion.V1
   || strict_eq_num (Metadata.v metadata) GlyphVersion.V2)
  && (truthy (Metadata.type metadata) && isString (Metadata.type metadata))
  && ProtocolValidation.valid (validateProtocols (Metadata.p metadata))
  && (negb (truthy (Metadata.name metadata))
      || string_within (Metadata.name metadata) GlyphLimits.MAX_NAME_SIZE)
  && (negb (truthy (Metadata.desc metadata))
      || string_within (Metadata.desc metadata) GlyphLimits.MAX_DESC_SIZE)
  && type_specific_accepted metadata
  && (negb (truthy (Metadata.content metadata))
      || content_accepted (Metadata.content metadata))
  && (negb (truthy (Metadata.royalty metadata))
      || royalty_accepted (Metadata.royalty metadata)).

(** The fields on which the validator measures a byte length hold a string
    or nothing *)
Definition string_or_falsy (x : value) : bool :=
  negb (truthy x) || isString x.

Definition file_typed (file : value) : bool :=
  negb (nullish file)
  && string_or_falsy (field file "path")
  && string_or_falsy (field file "mime").

Definition content_typed (content : value) : bool :=
  (negb (truthy (field content "primary"))
   || file_typed (field content "primary"))
  && match field content "files" with
     | VArr files => forallb file_typed files
     | _ => true
     end
  && match field content "refs" with
     | VArr refs => forallb file_typed refs
     | _ => true
     end.

Definition royalty_typed (royalty : value) : bool :=
  match field royalty "splits" with
  | VArr splits => forallb (fun split => negb (nullish split)) splits
  | _ => true
  end.

(** The metadata on which [validateMetadata] returns *)
Definition metadata_typed (metadata : Metadata.t) : bool :=
  string_or_falsy (Metadata.name metadata)
  && string_or_falsy (Metadata.desc metadata)
  && (negb (truthy (Metadata.content metadata))
      || content_typed (Metadata.content metadata))
  && (negb (truthy (Metadata.royalty metadata))
      || royalty_typed (Metadata.royalty metadata)).

(** A call that returns when its argument is well typed, and throws a
    TypeError when it is not *)
Definition returns_iff {A : Type} (c : outcome A) (typed : bool) : Prop :=
  match c with
  | Ret _ => typed = true
  | Throw e => typed = false /\ e = TypeError
  end.

(** The flag byte that [encodeCommitEnvelope] writes: the caller's flags with
    the bits of the optional fields that are given *)
Definition actualFlags (flags : Z) (contentRoot controller : option Buffer)
  : Z :=
  let actualFlags := flags in
  let actualFlags :=
    match contentRoot with
    | Some _ => js_or actualFlags EnvelopeFlags.HAS_CONTENT_ROOT
    | None => actualFlags
    end in
  match controller with
  | Some _ => js_or actualFlags EnvelopeFlags.HAS_CONTROLLER
  | None => actualFlags
  end.

(** The bytes that an optional field adds to the envelope *)
Definition optional_bytes (field : option Buffer) : Buffer :=
  match field with
  | Some bytes => bytes
  | None => []
  end.

(** An optional field that, when given, has [n] bytes *)
Definition optional_len (field : option Buffer) (n : Z) : Prop :=
  match field with
  | Some bytes => len bytes = n
  | None => True
  end.

(** Whether an optional field is given *)
Definition given (field : option Buffer) : bool :=
  match field with
  | Some _ => true
  | None => false
  end.

(** [flags = 0] when the option is missing *)
Definition flags_or_default (flags : option Z) : Z :=
  match flags with
  | Some f => f
  | None => 0
  end.

(** The reveal envelope that [decodeRevealEnvelope] builds from the bytes
    [body] that follow the header: the metadata that [decodeMetadata] reads
    from them, the raw bytes when it throws, and no metadata at all when
    there are no bytes. *)
Definition reveal_of_body (Buffer_toString_utf8 : Buffer -> string)
  (JSON_parse : string -> outcome value) (version flags : Z) (body : Buffer)
  : Reveal.t :=
  if len body >? 0 then
    match decodeMetadata Buffer_toString_utf8 JSON_parse body with
    | Ret metadata => Reveal.mk version flags metadata [] None
    | Throw _ => Reveal.mk version flags VNull [] (Some body)
    end
  else Reveal.mk version flags VNull [] None.

(** An output script from which [decodeEnvelope] returns nothing *)
Definition no_envelope (Buffer_toString_utf8 : Buffer -> string)
  (JSON_parse : string -> outcome value) (script : Buffer) : Prop :=
  decodeEnvelope Buffer_toString_utf8 JSON_parse script = Ret None.

(** An input that has no script, or a script from which [decodeEnvelope]
    returns nothing or a commit envelope *)
Definition no_reveal (Buffer_toString_utf8 : Buffer -> string)
  (JSON_parse : string -> outcome value) (input : option Buffer) : Prop :=
  match input with
  | None => True
  | Some script =>
      decodeEnvelope Buffer_toString_utf8 JSON_parse script = Ret None
      \/ exists c,
           decodeEnvelope Buffer_toString_utf8 JSON_parse script
           = Ret (Some (CommitEnvelope c))
  end.

(** A metadata value as JSON carries it: the keys of an object are pairwise
    different and none is ["__proto__"], at every depth. *)
Inductive well_formed : value -> Prop :=
| well_formed_primitive (v : value) :
    match v with VArr _ | VObj _ => False | _ => True end ->
    well_formed v
| well_formed_array (elems : list value) :
    Forall well_formed elems ->
    well_formed (VArr elems)
| well_formed_object (props : object) :
    NoDup (Object_keys props) ->
    ~ In "__proto__" (Object_keys props) ->
    Forall (fun kv => well_formed (snd kv)) props ->
    well_formed (VObj props).

(** Whether a key is an array index *)
Definition is_index (key : string) : bool :=
  match array_index key with
  | Some _ => true
  | None => false
  end.

(** The numeric order of array-index keys *)
Definition index_le (a b : string) : Prop :=
  match array_index a, array_index b with
  | Some m, Some n => (m <= n)%N
  | _, _ => False
  end.

(** A list of keys in the order of enumeration: the array indices in
    ascending numeric order, then the keys that are not array indices *)
Definition index_first (keys : list string) : Prop :=
  exists indices others,
    keys = indices ++ others
    /\ Forall (fun k => is_index k = true) indices
    /\ Forall (fun k => is_index k = false) others
    /\ StronglySorted index_le indices.

(** ** Inputs of the examples *)

Definition example_hash : Buffer := repeat xab 32.
Definition example_contentRoot : Buffer := repeat xcd 32.
Definition example_controller : Buffer := repeat xef 36.

(** The same metadata with the keys in two orders, at both depths *)
Definition example_metadata_1 : object :=
  [ ("type", VStr "token");
    ("attrs", VObj [("b", VNum 1); ("a", VNum 2)]);
    ("p", VArr [VNum 2; VNum 5]) ].

Definition example_metadata_2 : object :=
  [ ("p", VArr [VNum 2; VNum 5]);
    ("attrs", VObj [("a", VNum 2); ("b", VNum 1)]);
    ("type", VStr "token") ].

(** A royalty of 500 bps whose splits add up to 400 *)
Definition example_splits : list value :=
  [ VObj [("address", VStr "rxd1a"); ("bps", VNum 200)];
    VObj [("address", VStr "rxd1b"); ("bps", VNum 200)] ].

Definition example_royalty : object :=
  [ ("bps", VNum 500); ("address", VStr "rxd1"); ("splits", VArr example_splits) ].

Definition example_metadata : Metadata.t :=
  Metadata.mk (VNum 2) (VStr "token") (Some [1]) (VStr "Test Token") VUndefined
    VUndefined (VStr "TEST") VUndefined VUndefined VUndefined VUndefined
    (VObj example_royalty).


(** A script with an unknown version byte after the first magic, and a
    complete commit envelope after it *)
Definition example_later_envelope : Buffer :=
  GLYPH_MAGIC ++ [x02; x00] ++ example_hash.

Definition example_script_prefix : Buffer := [x00; x6a].

Definition example_script_rest : Buffer := x09 :: example_later_envelope.

(** A script that starts with OP_FALSE OP_RETURN and then holds a commit
    envelope *)
Definition example_script : Buffer :=
  example_script_prefix ++ example_later_envelope.

(** Four bytes whose hexadecimal text holds the digits of the magic, shifted
    by one digit *)
Definition example_shifted : Buffer := [x06; x76; xc7; x90].

Definition example_txid : string :=
  "5e3b5a7f9c1d4e8a0b2c6d7e9f1a3b5c7d9e0f2a4b6c8d0e1f3a5b7c9d0e2f4a".

(** NFT, MUT and WAVE *)
Definition example_protocols : list Z := [2; 5; 11].

(** The bytes of the JSON text of the empty object *)
Definition example_json : Buffer := [x7b; x7d].

(** The chunks of the style A reveal envelope of [example_json] *)
Definition example_chunks : list Buffer :=
  [GLYPH_MAGIC ++ [x02; x80]; example_json].

(** The chunks of the style A reveal envelope of [example_metadata_1], with
    the stand-in for [JSON.stringify] *)
Definition example_object_chunks : list Buffer :=
  match snd (encodeRevealEnvelope sample_stringify
               (RevealOptions.mk (MetaObject example_metadata_1) None)) with
  | Ret chunks => chunks
  | Throw _ => []
  end.

(** A transaction whose second output holds a commit envelope *)
Definition example_tx : Transaction.t :=
  Transaction.mk [[x6a]; example_later_envelope] [].

(** A transaction that holds a commit envelope in the script of an input *)
Definition example_spend : Transaction.t :=
  Transaction.mk [[x6a]] [None; Some example_later_envelope].

(** An object with array-index keys and a nested object *)
Definition example_indexed : object :=
  [ ("9", VNum 2);
    ("name", VStr "x");
    ("10", VNum 1);
    ("attrs", VObj [("b", VNum 1); ("a", VNum 2)]) ].

(** A complete file object, and a content that holds it *)
Definition example_file : value :=
  VObj [ ("path", VStr "image.png");
         ("mime", VStr "image/png");
         ("size", VNum 1024);
         ("hash", VObj [("algo", VStr "sha256"); ("hex", VStr "00ff")]) ].

Definition example_content : value :=
  VObj [ ("primary", example_file); ("files", VArr [example_file]) ].

(** A royalty of 500 bps whose splits add up to 500 *)
Definition example_royalty_even : value :=
  VObj [ ("bps", VNum 500);
         ("address", VStr "rxd1");
         ("splits",
           VArr [ VObj [("address", VStr "rxd1a"); ("bps", VNum 200)];
                  VObj [("address", VStr "rxd1b"); ("bps", VNum 300)] ]) ].

(** The token of the examples with that royalty *)
Definition example_accepted : Metadata.t :=
  Metadata.mk (VNum 2) (VStr "token") (Some [1]) (VStr "Test Token") VUndefined
    VUndefined (VStr "TEST") VUndefined VUndefined VUndefined VUndefined
    example_royalty_even.

(** Splits of 2^53, 1 and -2^53 bps under a royalty of 0 bps: their integer
    sum is 1, and the code, which adds them as doubles, finds 0 *)
Definition example_splits_large : list value :=
  [ VObj [("address", VStr "rxd1a"); ("bps", VNum (2 ^ 53))];
    VObj [("address", VStr "rxd1b"); ("bps", VNum 1)];
    VObj [("address", VStr "rxd1c"); ("bps", VNum (- 2 ^ 53))] ].

Definition example_royalty_large : object :=
  [ ("bps", VNum 0); ("address", VStr "rxd1");
    ("splits", VArr example_splits_large) ].


(** A buffer of [n] zero bytes *)
Definition example_bytes (n : Z) : Buffer := repeat x00 (Z.to_nat n).

(** A metadata whose name is a number *)
Definition example_ill_typed : Metadata.t :=
  Metadata.mk (VNum 2) (VStr "token") (Some [1]) (VNum 5) VUndefined
    VUndefined (VStr "TEST") VUndefined VUndefined VUndefined VUndefined
    VUndefined.

(** ** Induction on values *)

Section ValueInduction.

Variable P : value -> Prop.
Hypothesis P_undefined : P VUndefined.
Hypothesis P_null : P VNull.
Hypothesis P_bool : forall b, P (VBool b).
Hypothesis P_num : forall n, P (VNum n).
Hypothesis P_str : forall s, P (VStr s).
Hypothesis P_arr : forall elems, Forall P elems -> P (VArr elems).
Hypothesis P_obj :
  forall props, Forall (fun kv => P (snd kv)) props -> P (VObj props).

Fixpoint value_induction (v : value) : P v :=
  match v with
  | VUndefined => P_undefined
  | VNull => P_null
  | VBool b => P_bool b
  | VNum n => P_num n
  | VStr s => P_str s
  | VArr elems =>
      P_arr elems
        ((fix all (l : list value) : Forall P l :=
            match l with
            | [] => Forall_nil P
            | x :: rest => Forall_cons x (value_induction x) (all rest)
            end) elems)
  | VObj props =>
      P_obj props
        ((fix all (l : object) : Forall (fun kv => P (snd kv)) l :=
            match l with
            | [] => Forall_nil _
            | kv :: rest =>
                Forall_cons kv (value_induction (snd kv)) (all rest)
            end) props)
  end.

End ValueInduction.

(** ** The order of keys and the sort *)

Lemma string_compare_lt_trans (a b c : string) :
  (a ?= b)%string = Lt -> (b ?= c)%string = Lt -> (a ?= c)%string = Lt.
Proof.
  revert b c.
  induction a as [|x a IH]; intros [|y b] [|z c]; simpl; try discriminate; auto.
  unfold Ascii.compare.
  destruct (N.compare_spec (N_of_ascii x) (N_of_ascii y)) as [Hxy|Hxy|Hxy];
    try discriminate;
    destruct (N.compare_spec (N_of_ascii y) (N_of_ascii z)) as [Hyz|Hyz|Hyz];
    try discriminate; intros H1 H2.
  - rewrite Hxy, Hyz, N.compare_refl. eauto.
  - rewrite Hxy. now rewrite (proj2 (N.compare_lt_iff _ _) Hyz).
  - rewrite <- Hyz. now rewrite (proj2 (N.compare_lt_iff _ _) Hxy).
  - assert (Hxz : (N_of_ascii x < N_of_ascii z)%N) by lia.
    now rewrite (proj2 (N.compare_lt_iff _ _) Hxz).
Qed.

Lemma string_le_refl (a : string) : string_le a a.
Proof.
  unfold string_le, String.leb.
  destruct (a ?= a)%string eqn:E; auto.
  pose proof (String.compare_antisym a a) as H.
  rewrite E in H. discriminate.
Qed.

Lemma string_le_trans (a b c : string) :
  string_le a b -> string_le b c -> string_le a c.
Proof.
  unfold string_le, String.leb.
  destruct (a ?= b)%string eqn:Eab; try discriminate;
    destruct (b ?= c)%string eqn:Ebc; try discriminate; intros _ _.
  - apply String.compare_eq_iff in Eab, Ebc. subst.
    apply (string_le_refl c).
  - apply String.compare_eq_iff in Eab. subst. now rewrite Ebc.
  - apply String.compare_eq_iff in Ebc. subst. now rewrite Eab.
  - now rewrite (string_compare_lt_trans _ _ _ Eab Ebc).
Qed.

Lemma string_le_antisym (a b : string) :
  string_le a b -> string_le b a -> a = b.
Proof. apply String.leb_antisym. Qed.

Lemma string_le_total (a b : string) : string_le a b \/ string_le b a.
Proof. apply String.leb_total. Qed.

Lemma insert_sorted_perm (k : string) (l : list string) :
  Permutation (k :: l) (insert_sorted k l).
Proof.
  induction l as [|x l IH]; simpl; auto.
  destruct (k <=? x)%string; auto.
  rewrite perm_swap. now constructor.
Qed.

Lemma sort_perm (l : list string) : Permutation l (sort l).
Proof.
  induction l as [|x l IH]; simpl; auto.
  rewrite <- insert_sorted_perm. now constructor.
Qed.

Lemma insert_sorted_sorted (k : string) (l : list string) :
  StronglySorted string_le l -> StronglySorted string_le (insert_sorted k l).
Proof.
  induction l as [|x l IH]; simpl; intros Hs.
  - repeat constructor.
  - destruct (k <=? x)%string eqn:E.
    + constructor; auto. constructor; auto.
      inversion Hs; subst.
      eapply Forall_impl; [|eassumption].
      intros y Hy. now apply (string_le_trans k x y).
    + inversion Hs; subst. constructor; auto.
      eapply Permutation_Forall; [apply insert_sorted_perm|].
      constructor; auto.
      destruct (string_le_total k x) as [H|H]; auto.
      unfold string_le in H. congruence.
Qed.

Lemma sort_sorted (l : list string) : StronglySorted string_le (sort l).
Proof.
  induction l as [|x l IH]; simpl.
  - constructor.
  - now apply insert_sorted_sorted.
Qed.

Lemma sorted_perm_unique (l1 l2 : list string) :
  StronglySorted string_le l1 -> StronglySorted string_le l2 ->
  Permutation l1 l2 -> l1 = l2.
Proof.
  revert l2.
  induction l1 as [|a l1 IH]; intros l2 S1 S2 HP.
  - now apply Permutation_nil in HP.
  - destruct l2 as [|b l2].
    + symmetry in HP. now apply Permutation_nil in HP.
    + inversion S1 as [|? ? S1' F1]; inversion S2 as [|? ? S2' F2]; subst.
      assert (Hab : a = b).
      { assert (Ha : In a (b :: l2)).
        { eapply Permutation_in; [exact HP|now left]. }
        assert (Hb : In b (a :: l1)).
        { eapply Permutation_in; [symmetry; exact HP|now left]. }
        destruct Ha as [Ha|Ha]; auto.
        destruct Hb as [Hb|Hb]; auto.
        rewrite Forall_forall in F1, F2.
        apply string_le_antisym; auto. }
      subst. f_equal. apply IH; auto.
      now apply Permutation_cons_inv in HP.
Qed.

(** The sorted list of keys depends on the set of keys only. *)
Lemma sort_perm_eq (l1 l2 : list string) :
  Permutation l1 l2 -> sort l1 = sort l2.
Proof.
  intros HP. apply sorted_perm_unique; try apply sort_sorted.
  rewrite <- (sort_perm l1), <- (sort_perm l2). exact HP.
Qed.

(** ** Own properties and assignment *)

Lemma has_own_In (props : object) (key : string) :
  has_own props key = true <-> In key (Object_keys props).
Proof.
  induction props as [|[k x] rest IH]; simpl.
  - split; [discriminate | tauto].
  - rewrite orb_true_iff, IH, String.eqb_eq. tauto.
Qed.

Lemma has_own_false (props : object) (key : string) :
  has_own props key = false <-> ~ In key (Object_keys props).
Proof.
  rewrite <- has_own_In. destruct (has_own props key); split; congruence.
Qed.

Lemma lookup_In (props : object) (key : string) :
  In key (Object_keys props) -> In (key, lookup props key) props.
Proof.
  induction props as [|[k x] rest IH]; simpl; [tauto|].
  destruct (String.eqb_spec k key) as [->|Hne]; [now left|].
  intros [H|H]; [contradiction | right; auto].
Qed.

Lemma lookup_missing (props : object) (key : string) :
  ~ In key (Object_keys props) -> lookup props key = VUndefined.
Proof.
  induction props as [|[k x] rest IH]; simpl; auto.
  destruct (String.eqb_spec k key) as [->|Hne]; [tauto|].
  intros H. apply IH. tauto.
Qed.

Lemma keys_replace_own (props : object) (key : string) (v : value) :
  Object_keys (replace_own props key v) = Object_keys props.
Proof.
  induction props as [|[k x] rest IH]; simpl; auto.
  destruct (k =? key)%string; simpl; [reflexivity | now rewrite IH].
Qed.

Lemma lookup_replace_own_same (props : object) (key : string) (v : value) :
  has_own props key = true -> lookup (replace_own props key v) key = v.
Proof.
  induction props as [|[k x] rest IH]; simpl; [discriminate|].
  destruct (k =? key)%string eqn:E; simpl; rewrite E; auto.
Qed.

Lemma lookup_replace_own_other (props : object) (key k' : string) (v : value) :
  k' <> key -> lookup (replace_own props key v) k' = lookup props k'.
Proof.
  intros Hne.
  induction props as [|[k x] rest IH]; simpl; auto.
  destruct (String.eqb_spec k key) as [->|Hk]; simpl.
  - destruct (String.eqb_spec key k'); [congruence | reflexivity].
  - now rewrite IH.
Qed.

Lemma lookup_app (p1 p2 : object) (key : string) :
  lookup (p1 ++ p2) key =
  if has_own p1 key then lookup p1 key else lookup p2 key.
Proof.
  induction p1 as [|[k x] rest IH]; simpl; auto.
  destruct (k =? key)%string; simpl; auto.
Qed.

(** Assignment to a key that is neither an array index nor ["__proto__"] *)
Lemma obj_set_plain (props : object) (key : string) (v : value) :
  array_index key = None -> key <> "__proto__" ->
  obj_set props key v =
  if has_own props key then replace_own props key v else props ++ [(key, v)].
Proof.
  intros Hidx Hproto. unfold obj_set. rewrite Hidx.
  destruct (String.eqb_spec key "__proto__"); [contradiction | reflexivity].
Qed.

Lemma lookup_obj_set_same (props : object) (key : string) (v : value) :
  array_index key = None -> key <> "__proto__" ->
  lookup (obj_set props key v) key = v.
Proof.
  intros Hidx Hproto. rewrite obj_set_plain by assumption.
  destruct (has_own props key) eqn:E.
  - now apply lookup_replace_own_same.
  - rewrite lookup_app, E. simpl. now rewrite String.eqb_refl.
Qed.

Lemma lookup_obj_set_other (props : object) (key k' : string) (v : value) :
  array_index key = None -> key <> "__proto__" -> k' <> key ->
  lookup (obj_set props key v) k' = lookup props k'.
Proof.
  intros Hidx Hproto Hne. rewrite obj_set_plain by assumption.
  destruct (has_own props key) eqn:E.
  - now apply lookup_replace_own_other.
  - rewrite lookup_app. simpl.
    destruct (String.eqb_spec key k'); [congruence|].
    destruct (has_own props k') eqn:E'; auto.
    symmetry. apply lookup_missing. now apply has_own_false.
Qed.

Lemma keys_obj_set_plain (props : object) (key : string) (v : value) :
  array_index key = None -> key <> "__proto__" ->
  Object_keys (obj_set props key v) =
  if has_own props key then Object_keys props else Object_keys props ++ [key].
Proof.
  intros Hidx Hproto. rewrite obj_set_plain by assumption.
  destruct (has_own props key).
  - apply keys_replace_own.
  - unfold Object_keys. now rewrite map_app.
Qed.

(** ** Canonical form *)

Lemma canonicalizeObject_object (props : object) :
  canonicalizeObject (VObj props) =
  VObj (fold_left
          (fun result key =>
             obj_set result key (canonicalizeObject (lookup props key)))
          (sort (Object_keys props)) []).
Proof.
  simpl. f_equal.
  generalize (sort (Object_keys props)) as keys.
  generalize (@nil (string * value)) as acc.
  intros acc keys. revert acc.
  induction keys as [|key keys IH]; intros acc; simpl; auto.
  rewrite IH. f_equal. f_equal.
  clear. induction props as [|[k x] rest IH]; simpl; auto.
  destruct (k =? key)%string; auto.
Qed.

Lemma fold_obj_set_ext (f g : string -> value) (keys : list string)
  (acc : object) :
  (forall key, In key keys -> f key = g key) ->
  fold_left (fun result key => obj_set result key (f key)) keys acc =
  fold_left (fun result key => obj_set result key (g key)) keys acc.
Proof.
  revert acc.
  induction keys as [|key keys IH]; intros acc H; simpl; auto.
  rewrite (H key) by now left.
  apply IH. intros k Hk. apply H. now right.
Qed.

(** The canonical form of a value does not depend on the order in which its
    objects list their keys. *)
Lemma canonicalizeObject_equivalent (a a' : value) :
  equivalent a a' -> canonicalizeObject a = canonicalizeObject a'.
Proof.
  revert a'.
  induction a as [ | | | | |elems IH|props IH] using value_induction;
    intros a' Hab; inversion Hab; subst; auto; try contradiction.
  - (* arrays *)
    simpl. f_equal.
    match goal with H : Forall2 equivalent _ _ |- _ =>
      induction H as [|x y l1 l2 Hxy Hl IHl]
    end; simpl; auto.
    inversion IH; subst. f_equal; auto.
    apply IHl; auto. now constructor.
  - (* objects *)
    rewrite !canonicalizeObject_object. f_equal.
    match goal with
    | Hk : forall k, In k (Object_keys props) <-> In k (Object_keys ?p2) |- _ =>
        rewrite (sort_perm_eq (Object_keys props) (Object_keys p2))
          by (apply NoDup_Permutation; auto)
    end.
    apply fold_obj_set_ext. intros key Hkey.
    match goal with
    | Hk : forall k, In k (Object_keys props) <-> In k (Object_keys ?p2) |- _ =>
        assert (Hin : In key (Object_keys props))
          by (apply Hk; eapply Permutation_in;
              [symmetry; apply sort_perm | exact Hkey])
    end.
    rewrite Forall_forall in IH.
    apply (IH (key, lookup props key)).
    + now apply lookup_In.
    + simpl. auto.
Qed.

Lemma In_keys_obj_set (props : object) (key k' : string) (v : value) :
  array_index key = None -> key <> "__proto__" ->
  In k' (Object_keys (obj_set props key v)) <->
  k' = key \/ In k' (Object_keys props).
Proof.
  intros Hidx Hproto. rewrite keys_obj_set_plain by assumption.
  destruct (has_own props key) eqn:E.
  - apply has_own_In in E. split; [tauto|]. intros [->|H]; auto.
  - rewrite in_app_iff. simpl. intuition congruence.
Qed.

Lemma NoDup_keys_obj_set (props : object) (key : string) (v : value) :
  array_index key = None -> key <> "__proto__" ->
  NoDup (Object_keys props) -> NoDup (Object_keys (obj_set props key v)).
Proof.
  intros Hidx Hproto Hnd. rewrite keys_obj_set_plain by assumption.
  destruct (has_own props key) eqn:E; auto.
  apply has_own_false in E.
  eapply Permutation_NoDup; [apply Permutation_cons_append|].
  now constructor.
Qed.

Lemma truthy_equivalent (a a' : value) :
  equivalent a a' -> truthy a = truthy a'.
Proof. intros H. inversion H; subst; reflexivity. Qed.

Lemma lookup_equivalent (p1 p2 : object) (key : string) :
  equivalent (VObj p1) (VObj p2) ->
  equivalent (lookup p1 key) (lookup p2 key).
Proof.
  intros H. inversion H as [? Hprim| |? ? N1 N2 Hkeys Hval]; subst.
  - contradiction.
  - destruct (in_dec string_dec key (Object_keys p1)) as [Hin|Hout]; auto.
    rewrite (lookup_missing p1 key Hout).
    rewrite (lookup_missing p2 key) by (rewrite <- Hkeys; exact Hout).
    now constructor.
Qed.

Lemma equivalent_obj_set (p1 p2 : object) (key : string) (v : value) :
  array_index key = None -> key <> "__proto__" ->
  equivalent v v ->
  equivalent (VObj p1) (VObj p2) ->
  equivalent (VObj (obj_set p1 key v)) (VObj (obj_set p2 key v)).
Proof.
  intros Hidx Hproto Hv H.
  pose proof (lookup_equivalent p1 p2) as Hlook.
  inversion H as [? Hprim| |? ? N1 N2 Hkeys Hval]; subst; [contradiction|].
  constructor.
  - now apply NoDup_keys_obj_set.
  - now apply NoDup_keys_obj_set.
  - intros k. rewrite !In_keys_obj_set by assumption. rewrite Hkeys. tauto.
  - intros k _. destruct (string_dec k key) as [->|Hne].
    + now rewrite !lookup_obj_set_same.
    + rewrite !lookup_obj_set_other by assumption. now apply Hlook.
Qed.

(** A second call of [encodeMetadata] on the object the first call left
    behind encodes the same bytes and changes nothing. *)
Lemma encodeMetadata_again (JSON_stringify : value -> string)
  (metadata : object) :
  encodeMetadata JSON_stringify (fst (encodeMetadata JSON_stringify metadata))
  = encodeMetadata JSON_stringify metadata.
Proof.
  unfold encodeMetadata. simpl.
  destruct (truthy (lookup metadata "v")) eqn:E; simpl.
  - now rewrite E.
  - rewrite lookup_obj_set_same by (reflexivity || discriminate).
    reflexivity.
Qed.

(** C10: [encodeMetadata] changes no field of its argument but [v]: every
    other key keeps its presence and its value; the object is left as it is
    exactly when its [v] is truthy; otherwise [v] is set to 2, also over an
    existing [undefined], [null], [false], [0] or empty string. *)
Theorem encodeMetadata_mutates_only_v (JSON_stringify : value -> string)
  (metadata : object) :
  let metadata' := fst (encodeMetadata JSON_stringify metadata) in
  (forall key, key <> "v" ->
     lookup metadata' key = lookup metadata key
     /\ has_own metadata' key = has_own metadata key)
  /\ (metadata' = metadata <-> truthy (lookup metadata "v") = true)
  /\ (truthy (lookup metadata "v") = false ->
      metadata' = obj_set metadata "v" (VNum 2)
      /\ lookup metadata' "v" = VNum 2)
  /\ (In (lookup metadata "v") [VUndefined; VNull; VBool false; VNum 0; VStr EmptyString] ->
      lookup metadata' "v" = VNum 2).
Proof.
  assert (Hfalsy : truthy (lookup metadata "v") = false ->
                   fst (encodeMetadata JSON_stringify metadata)
                   = obj_set metadata "v" (VNum 2)
                   /\ lookup (fst (encodeMetadata JSON_stringify metadata)) "v"
                      = VNum 2).
  { intros E. unfold encodeMetadata. simpl. rewrite E. simpl. split; auto.
    apply lookup_obj_set_same; [reflexivity | discriminate]. }
  cbv zeta. repeat split.
  - unfold encodeMetadata. simpl.
    destruct (truthy (lookup metadata "v")); simpl; auto.
    apply lookup_obj_set_other; [reflexivity | discriminate | assumption].
  - unfold encodeMetadata. simpl.
    destruct (truthy (lookup metadata "v")); simpl; auto.
    destruct (has_own (obj_set metadata "v" (VNum GlyphVersion.V2)) key) eqn:E1;
      destruct (has_own metadata key) eqn:E2; auto.
    + apply has_own_In in E1. apply has_own_false in E2.
      apply In_keys_obj_set in E1; [|reflexivity|discriminate]. tauto.
    + apply has_own_false in E1. apply has_own_In in E2.
      exfalso. apply E1. apply In_keys_obj_set; [reflexivity|discriminate|tauto].
  - intros Heq. destruct (truthy (lookup metadata "v")) eqn:E; auto.
    destruct (Hfalsy eq_refl) as [_ H2]. rewrite Heq in H2.
    rewrite H2 in E. discriminate.
  - intros E. unfold encodeMetadata. simpl. now rewrite E.
  - apply Hfalsy; assumption.
  - apply Hfalsy; assumption.
  - intros Hin. apply Hfalsy.
    simpl in Hin.
    destruct Hin as [<-|[<-|[<-|[<-|[<-|[]]]]]]; reflexivity.
Qed.

(** C5: two metadata objects that are structurally equal, whatever the order
    of their keys at any depth, are encoded to the same bytes and have the
    same commit hash (of 32 bytes when the hash provider's digests are); and
    the commit hash of a metadata object is the commit hash of its encoded
    bytes, whether these are encoded from the object as the caller built it
    or as an earlier call left it. *)
Theorem encodeMetadata_key_order_independent
  (JSON_stringify : value -> string) (sha256 : Buffer -> Buffer)
  (m1 m2 : object) :
  equivalent (VObj m1) (VObj m2) ->
  let encode := encodeMetadata JSON_stringify in
  let commitHash := computeCommitHash JSON_stringify sha256 in
  snd (encode m1) = snd (encode m2)
  /\ snd (commitHash (MetaObject m1)) = snd (commitHash (MetaObject m2))
  /\ (forall m : object,
        snd (commitHash (MetaObject m))
        = snd (commitHash (MetaBytes (snd (encode m))))
        /\ snd (commitHash (MetaObject m))
           = snd (commitHash (MetaBytes (snd (encode (fst (encode m)))))))
  /\ ((forall bytes, len (sha256 bytes) = 32) ->
      len (snd (commitHash (MetaObject m1))) = 32
      /\ len (snd (commitHash (MetaObject m2))) = 32).
Proof.
  intros H. cbv zeta.
  assert (Hbytes : snd (encodeMetadata JSON_stringify m1)
                   = snd (encodeMetadata JSON_stringify m2)).
  { unfold encodeMetadata. cbv beta zeta. cbn [snd].
    rewrite (truthy_equivalent _ _ (lookup_equivalent m1 m2 "v" H)).
    f_equal. f_equal.
    apply canonicalizeObject_equivalent.
    destruct (truthy (lookup m2 "v")); cbn [negb]; auto.
    apply equivalent_obj_set; auto; try reflexivity; try discriminate.
    now constructor. }
  split; [exact Hbytes|]. split.
  - unfold computeCommitHash, metadataBytes_of.
    destruct (encodeMetadata JSON_stringify m1) as [m1' b1],
      (encodeMetadata JSON_stringify m2) as [m2' b2].
    simpl in *. now subst.
  - split.
    + intros m. rewrite encodeMetadata_again.
      unfold computeCommitHash, metadataBytes_of.
      destruct (encodeMetadata JSON_stringify m) as [m' b]. simpl. auto.
    + intros Hlen. unfold computeCommitHash, metadataBytes_of.
      destruct (encodeMetadata JSON_stringify m1) as [m1' b1],
        (encodeMetadata JSON_stringify m2) as [m2' b2].
      simpl. auto.
Qed.

(** ** Reveal envelopes *)

Lemma push_files_spec (files chunks : list Buffer) :
  push_files files chunks =
  if existsb (fun file => len file >? GlyphLimits.MAX_INLINE_FILE_SIZE) files
  then Throw (Error "File exceeds maximum inline size of 1048576 bytes")
  else Ret (chunks ++ files).
Proof.
  revert chunks.
  induction files as [|file rest IH]; intros chunks; simpl.
  - now rewrite app_nil_r.
  - destruct (len file >? GlyphLimits.MAX_INLINE_FILE_SIZE); simpl; auto.
    rewrite IH, <- app_assoc. reflexivity.
Qed.

(** C6: [encodeRevealEnvelope] throws exactly when the metadata bytes (the
    buffer given as metadata, or the bytes that [encodeMetadata] returns for
    the object given) are
    longer than 262144 bytes or some file is longer than 1048576 bytes, and
    what it throws is the error of the limit that is exceeded; otherwise,
    and so for metadata of 262143 bytes, it returns the header chunk (magic,
    version 2, flag byte 0x80), the metadata chunk and the files in order. *)
Theorem encodeRevealEnvelope_size_limits (JSON_stringify : value -> string)
  (options : RevealOptions.t) :
  let metadataBytes :=
    match RevealOptions.metadata options with
    | MetaBytes bytes => bytes
    | MetaObject metadata => snd (encodeMetadata JSON_stringify metadata)
    end in
  let files :=
    match RevealOptions.files options with Some f => f | None => [] end in
  let result := snd (encodeRevealEnvelope JSON_stringify options) in
  ((exists e, result = Throw e) <->
   (len metadataBytes > 262144 \/ Exists (fun file => len file > 1048576) files))
  /\ (len metadataBytes > 262144 ->
      result = Throw (Error "Metadata exceeds maximum size of 262144 bytes"))
  /\ (len metadataBytes <= 262144 ->
      Exists (fun file => len file > 1048576) files ->
      result = Throw (Error "File exceeds maximum inline size of 1048576 bytes"))
  /\ (len metadataBytes <= 262144 ->
      Forall (fun file => len file <= 1048576) files ->
      result = Ret ([GLYPH_MAGIC ++ [x02; x80]; metadataBytes] ++ files))
  /\ (len metadataBytes = 262143 ->
      Forall (fun file => len file <= 1048576) files ->
      result = Ret ([GLYPH_MAGIC ++ [x02; x80]; metadataBytes] ++ files)).
Proof.
  cbv zeta. unfold encodeRevealEnvelope, metadataBytes_of.
  set (metadataBytes :=
         match RevealOptions.metadata options with
         | MetaBytes bytes => bytes
         | MetaObject metadata => snd (encodeMetadata JSON_stringify metadata)
         end).
  assert (Hbytes :
    (let '(metadata, bytes) :=
       match RevealOptions.metadata options with
       | MetaBytes b => (MetaBytes b, b)
       | MetaObject m =>
           let '(m', bytes) := encodeMetadata JSON_stringify m in
           (MetaObject m', bytes)
       end in bytes) = metadataBytes).
  { subst metadataBytes.
    destruct (RevealOptions.metadata options) as [m|b]; [|reflexivity].
    now destruct (encodeMetadata JSON_stringify m). }
  destruct (match RevealOptions.metadata options with
            | MetaBytes b => (MetaBytes b, b)
            | MetaObject m =>
                let '(m', bytes) := encodeMetadata JSON_stringify m in
                (MetaObject m', bytes)
            end) as [metadata' bytes'].
  subst bytes'. clearbody metadataBytes.
  set (files := match RevealOptions.files options with
                | Some f => f | None => [] end).
  unfold GlyphLimits.MAX_METADATA_SIZE.
  assert (Hfiles :
    existsb (fun file => len file >? GlyphLimits.MAX_INLINE_FILE_SIZE) files = true
    <-> Exists (fun file => len file > 1048576) files).
  { rewrite existsb_exists, Exists_exists.
    unfold GlyphLimits.MAX_INLINE_FILE_SIZE.
    split; intros [f [Hin Hf]]; exists f; split; auto; lia. }
  assert (Hok : Forall (fun file => len file <= 1048576) files ->
                ~ Exists (fun file => len file > 1048576) files).
  { rewrite Forall_forall, Exists_exists.
    intros Hall [f [Hin Hf]]. specialize (Hall f Hin). lia. }
  destruct (Z.gtb_spec (len metadataBytes) 262144) as [Hbig|Hsmall]; cbn [snd].
  - repeat split; try lia; eauto.
  - rewrite push_files_spec.
    change (byte_of_Z GlyphVersion.V2) with (Some x02).
    change (byte_of_Z EnvelopeFlags.IS_REVEAL) with (Some x80).
    cbn [app].
    fold files in Hfiles |- *.
    destruct (existsb (fun file => len file >? GlyphLimits.MAX_INLINE_FILE_SIZE)
                files) eqn:E.
    + assert (Hex : Exists (fun file => len file > 1048576) files)
        by now apply Hfiles.
      repeat split; eauto; try lia; intros; exfalso; apply Hok; auto.
    + assert (Hex : ~ Exists (fun file => len file > 1048576) files).
      { intros Hex. apply Hfiles in Hex. congruence. }
      repeat split; auto; try tauto; try lia.
      * intros [e He]. discriminate.
      * intros [Hlen|Hex']; [lia | contradiction].
Qed.

(** ** Commit envelopes *)

Lemma encodeCommitEnvelope_layout (H : Buffer) :
  len H = 32 ->
  encodeCommitEnvelope (CommitOptions.mk (Some H) None None None)
  = Ret (GLYPH_MAGIC ++ [x02; x00] ++ H)
  /\ forall C K : Buffer,
       encodeCommitEnvelope (CommitOptions.mk (Some H) None (Some C) (Some K))
       = Ret (GLYPH_MAGIC ++ [x02; x03] ++ H ++ C ++ K).
Proof.
  intros HH. unfold encodeCommitEnvelope. cbn [CommitOptions.commitHash
    CommitOptions.flags CommitOptions.contentRoot CommitOptions.controller].
  rewrite HH. cbn [Z.eqb Pos.eqb negb].
  unfold new_BufferWriter, write, toBuffer. cbn [app].
  split.
  - reflexivity.
  - intros C K. cbn. rewrite <- !app_assoc. reflexivity.
Qed.

Lemma read_app (a rest : Buffer) (n : nat) :
  List.length a = n -> read (a ++ rest) n = Ret (a, rest).
Proof.
  intros Hn. unfold read.
  rewrite length_app, <- Hn.
  replace (List.length a <=? List.length a + List.length rest)%nat with true
    by (symmetry; apply Nat.leb_le; lia).
  rewrite firstn_app, Nat.sub_diag, firstn_all. simpl. rewrite app_nil_r.
  rewrite skipn_app, Nat.sub_diag, skipn_all. reflexivity.
Qed.

Lemma read_all (a : Buffer) (n : nat) :
  List.length a = n -> read a n = Ret (a, []).
Proof.
  intros Hn. rewrite <- (app_nil_r a) at 1. now apply read_app.
Qed.

Lemma read_magic (a b c : byte) (rest : Buffer) :
  read (a :: b :: c :: rest) 3 = Ret ([a; b; c], rest).
Proof. reflexivity. Qed.

Lemma len_length {A : Type} (l : list A) (n : nat) :
  len l = Z.of_nat n -> List.length l = n.
Proof. unfold len. lia. Qed.

Lemma indexOf_magic_prefix (rest : Buffer) :
  indexOf (GLYPH_MAGIC ++ rest) GLYPH_MAGIC = 0.
Proof. reflexivity. Qed.

(** C1: a commit envelope encoded from a 32-byte hash alone decodes to a
    commit envelope with that hash, flags 0 and no optional field; encoded
    with a 32-byte content root and a 36-byte controller as well, it decodes
    to a commit envelope whose flags have bits 0 and 1 set and whose hash,
    content root and controller are the buffers given. *)
Theorem commit_envelope_roundtrip (Buffer_toString_utf8 : Buffer -> string)
  (JSON_parse : string -> outcome value) (H : Buffer) :
  len H = 32 ->
  let decodeEnvelope := decodeEnvelope Buffer_toString_utf8 JSON_parse in
  (exists bytes,
     encodeCommitEnvelope (CommitOptions.mk (Some H) None None None) = Ret bytes
     /\ decodeEnvelope bytes
        = Ret (Some (CommitEnvelope (Commit.mk 2 0 H None None))))
  /\ (forall C K : Buffer, len C = 32 -> len K = 36 ->
      exists bytes flags,
        encodeCommitEnvelope (CommitOptions.mk (Some H) None (Some C) (Some K))
        = Ret bytes
        /\ decodeEnvelope bytes
           = Ret (Some (CommitEnvelope (Commit.mk 2 flags H (Some C) (Some K))))
        /\ Z.testbit flags 0 = true /\ Z.testbit flags 1 = true).
Proof.
  intros HH. cbv zeta.
  destruct (encodeCommitEnvelope_layout H HH) as [E1 E2].
  apply (len_length H 32) in HH.
  split.
  - eexists. split; [exact E1|].
    unfold decodeEnvelope. rewrite indexOf_magic_prefix.
    cbn -[read decodeCommitEnvelope]. rewrite read_magic.
    cbn -[read]. unfold decodeCommitEnvelope.
    rewrite (read_all H 32 HH). reflexivity.
  - intros C K HC HK.
    apply (len_length C 32) in HC. apply (len_length K 36) in HK.
    exists (GLYPH_MAGIC ++ [x02; x03] ++ H ++ C ++ K), 3.
    split; [apply E2|]. split; [|split; reflexivity].
    unfold decodeEnvelope. rewrite indexOf_magic_prefix.
    cbn -[read decodeCommitEnvelope]. rewrite read_magic.
    cbn -[read]. unfold decodeCommitEnvelope.
    rewrite (read_app H (C ++ K) 32 HH). cbn -[read].
    rewrite (read_app C K 32 HC). cbn -[read].
    rewrite (read_all K 36 HK). reflexivity.
Qed.

(** C2: [decodeEnvelope] returns on every buffer: [null] or an envelope,
    never an exception. *)
Theorem decodeEnvelope_never_throws (Buffer_toString_utf8 : Buffer -> string)
  (JSON_parse : string -> outcome value) (scriptBuf : Buffer) :
  exists result : option envelope,
    decodeEnvelope Buffer_toString_utf8 JSON_parse scriptBuf = Ret result.
Proof.
  unfold decodeEnvelope.
  destruct (indexOf scriptBuf GLYPH_MAGIC =? -1); [now eexists|].
  unfold try_catch.
  match goal with |- exists r, match ?body with _ => _ end = _ =>
    destruct body; eauto
  end.
Qed.

(** ** The first occurrence of the magic *)

Lemma starts_with_app (needle hay : Buffer) :
  starts_with needle hay = true <-> exists rest, hay = needle ++ rest.
Proof.
  revert hay.
  induction needle as [|n needle IH]; intros hay; simpl.
  - split; eauto.
  - destruct hay as [|h hay].
    + split; [discriminate | intros [rest Hr]; discriminate].
    + rewrite andb_true_iff, IH. split.
      * intros [Hb [rest ->]]. apply Byte.byte_dec_bl in Hb. subst. eauto.
      * intros [rest Hr]. injection Hr as -> ->.
        split; eauto. apply Byte.byte_dec_lb. reflexivity.
Qed.

(** [indexOf] answers -1 when the needle does not occur, and otherwise the
    offset of an occurrence before which there is none. *)
Lemma indexOf_from_spec (hay needle : Buffer) (i : Z) :
  needle <> [] ->
  let r := indexOf_from hay needle i in
  (r = -1 /\ forall pre rest, hay <> pre ++ needle ++ rest)
  \/ (exists pre rest,
        hay = pre ++ needle ++ rest /\ r = i + len pre
        /\ forall pre' rest',
             hay = pre' ++ needle ++ rest' -> len pre <= len pre').
Proof.
  intros Hne. revert i.
  induction hay as [|h hay IH]; intros i; simpl.
  - destruct needle as [|n needle]; [contradiction|].
    left. split; auto. intros [|p pre] rest; simpl; discriminate.
  - destruct (starts_with needle (h :: hay)) eqn:E.
    + right. apply starts_with_app in E. destruct E as [rest Hr].
      exists [], rest. unfold len. simpl. repeat split; auto; try lia.
    + destruct (IH (i + 1)) as [[Hr Hno]|[pre [rest [Hh [Hr Hmin]]]]].
      * left. split; auto.
        intros [|p pre] rest Heq.
        -- simpl in Heq.
           assert (starts_with needle (h :: hay) = true)
             by (apply starts_with_app; eauto).
           congruence.
        -- simpl in Heq. injection Heq as _ Heq. now apply Hno in Heq.
      * right. exists (h :: pre), rest. subst hay. simpl.
        repeat split; auto.
        -- rewrite Hr. unfold len. simpl. lia.
        -- intros [|p pre'] rest' Heq.
           ++ simpl in Heq.
              assert (starts_with needle (h :: pre ++ needle ++ rest) = true)
                by (apply starts_with_app; eauto).
              congruence.
           ++ simpl in Heq. injection Heq as _ Heq.
              specialize (Hmin _ _ Heq). unfold len in *. simpl. lia.
Qed.

(** When no occurrence of the needle starts before [pre] ends, [indexOf]
    answers the length of [pre]. *)
Lemma indexOf_first (pre needle rest : Buffer) :
  needle <> [] ->
  (forall pre' rest',
     pre ++ needle ++ rest = pre' ++ needle ++ rest' -> len pre <= len pre') ->
  indexOf (pre ++ needle ++ rest) needle = len pre.
Proof.
  intros Hne Hmin. unfold indexOf.
  destruct (indexOf_from_spec (pre ++ needle ++ rest) needle 0 Hne)
    as [[_ Hno]|[pre0 [rest0 [Heq [Hr Hmin0]]]]].
  - exfalso. now apply (Hno pre rest).
  - rewrite Hr. specialize (Hmin pre0 rest0 Heq).
    specialize (Hmin0 pre rest eq_refl). lia.
Qed.

Lemma slice_from_app (pre rest : Buffer) :
  slice_from (pre ++ rest) (len pre) = rest.
Proof.
  unfold slice_from, len.
  destruct (Z.ltb_spec (Z.of_nat (List.length pre)) 0) as [Hneg|_]; [lia|].
  rewrite Nat2Z.id, skipn_app, skipn_all, Nat.sub_diag. reflexivity.
Qed.

(** C9: parsing is anchored at the first occurrence of the magic. When that
    occurrence is followed by fewer than the two header bytes or by a version
    byte other than 1 and 2, [decodeEnvelope] answers [null], whatever comes
    after: a well-formed envelope later in the buffer is not looked for. *)
Theorem decodeEnvelope_first_magic_only
  (Buffer_toString_utf8 : Buffer -> string)
  (JSON_parse : string -> outcome value) (pre rest : Buffer) :
  indexOf (pre ++ GLYPH_MAGIC ++ rest) GLYPH_MAGIC = len pre ->
  truncated_or_unknown_version rest ->
  decodeEnvelope Buffer_toString_utf8 JSON_parse (pre ++ GLYPH_MAGIC ++ rest)
  = Ret None.
Proof.
  intros Hfirst Hrest. unfold decodeEnvelope. rewrite Hfirst.
  destruct (Z.eqb_spec (len pre) (-1)) as [Hneg|_]; [unfold len in Hneg; lia|].
  rewrite slice_from_app.
  change (GLYPH_MAGIC ++ rest) with (x67 :: x6c :: x79 :: rest).
  unfold new_BufferReader. rewrite read_magic. cbn [bind].
  destruct rest as [|version [|flags rest]]; cbn -[Z.eqb decodeRevealEnvelope
    decodeCommitEnvelope js_and].
  - reflexivity.
  - destruct (negb (Z_of_byte version =? GlyphVersion.V1)
              && negb (Z_of_byte version =? GlyphVersion.V2)); reflexivity.
  - destruct Hrest as [H1 H2].
    destruct (Z.eqb_spec (Z_of_byte version) GlyphVersion.V1); [contradiction|].
    destruct (Z.eqb_spec (Z_of_byte version) GlyphVersion.V2); [contradiction|].
    reflexivity.
Qed.

(** ** Protocol combinations *)

(** C3: the rule table of [validateProtocols] on the literal protocol
    lists. *)
Theorem validateProtocols_rule_table :
  validateProtocols (Some [1]) = ProtocolValidation.mk true None
  /\ validateProtocols (Some [2]) = ProtocolValidation.mk true None
  /\ validateProtocols (Some [1; 4]) = ProtocolValidation.mk true None
  /\ validateProtocols (Some [2; 8; 9]) = ProtocolValidation.mk true None
  /\ validateProtocols (Some [2; 5; 11]) = ProtocolValidation.mk true None
  /\ validateProtocols (Some [1; 6]) = ProtocolValidation.mk true None
  /\ validateProtocols (Some [1; 2])
     = invalid "Fungible Token and Non-Fungible Token are mutually exclusive"
  /\ validateProtocols (Some [4])
     = invalid "Decentralized Minting requires Fungible Token"
  /\ validateProtocols (Some [9]) = invalid "Timelock requires Encrypted"
  /\ validateProtocols (Some [11])
     = invalid "WAVE Name requires Non-Fungible Token"
  /\ validateProtocols (Some [6]) = invalid "Burn cannot exist alone".
Proof. repeat split; reflexivity. Qed.

Lemma includes_In (l : list Z) (x : Z) : includes l x = true <-> In x l.
Proof.
  unfold includes. rewrite existsb_exists. split.
  - intros [y [Hin Hy]]. apply Z.eqb_eq in Hy. now subst.
  - intros Hin. exists x. split; auto. apply Z.eqb_refl.
Qed.

Lemma includes_present (l : list Z) (x : Z) : includes l x = present x l.
Proof.
  unfold present. destruct (in_dec Z.eq_dec x l) as [Hin|Hout].
  - now apply includes_In.
  - destruct (includes l x) eqn:E; auto. apply includes_In in E. contradiction.
Qed.

Lemma present_In (l : list Z) (x : Z) : present x l = true <-> In x l.
Proof. rewrite <- includes_present. apply includes_In. Qed.

(** The requirement table of the source and the dependencies of the
    specification are the same pairs. *)
Lemma requirements_pairs (a b : Z) :
  (exists requirements,
     assoc PROTOCOL_REQUIREMENTS a = Some requirements /\ In b requirements)
  <-> In (a, b) spec_dependency_pairs.
Proof.
  split.
  - intros [requirements [Htable Hin]].
    unfold PROTOCOL_REQUIREMENTS in Htable. cbn [assoc] in Htable.
    revert Htable.
    repeat match goal with
           | |- context [?x =? a] => destruct (Z.eqb_spec x a)
           end;
      intros Htable; try discriminate; injection Htable as <-; subst;
      simpl in Hin; simpl; intuition (subst; auto).
  - simpl. intros H.
    repeat destruct H as [H|H]; try contradiction; injection H as <- <-;
      eexists; (split; [reflexivity | simpl; auto]).
Qed.

Lemma check_required_spec (protocols : list Z) (a : Z) (requirements : list Z) :
  match check_required protocols a requirements with
  | None => forall b, In b requirements -> In b protocols
  | Some message =>
      exists b, In b requirements /\ ~ In b protocols
                /\ message = (protocol_name a ++ " requires "
                              ++ protocol_name b)%string
  end.
Proof.
  induction requirements as [|required rest IH]; simpl.
  - tauto.
  - destruct (includes protocols required) eqn:E; simpl.
    + apply includes_In in E.
      destruct (check_required protocols a rest) as [message|].
      * destruct IH as [b [H1 [H2 H3]]]. exists b. auto.
      * intros b [<-|Hb]; auto.
    + exists required. repeat split; auto.
      intros Hin. apply includes_In in Hin. congruence.
Qed.

Lemma check_requirements_spec (protocols todo : list Z) :
  match check_requirements protocols todo with
  | None =>
      forall a b, In a todo -> In (a, b) spec_dependency_pairs -> In b protocols
  | Some message =>
      exists a b, In a todo /\ In (a, b) spec_dependency_pairs
                  /\ ~ In b protocols
                  /\ message = (protocol_name a ++ " requires "
                                ++ protocol_name b)%string
  end.
Proof.
  induction todo as [|protocol rest IH]; cbn [check_requirements].
  - intros a b [].
  - assert (Hrest :
      match check_requirements protocols rest with
      | None =>
          (forall b, In (protocol, b) spec_dependency_pairs -> In b protocols) ->
          forall a b, In a (protocol :: rest) ->
                      In (a, b) spec_dependency_pairs -> In b protocols
      | Some message =>
          exists a b, In a (protocol :: rest) /\ In (a, b) spec_dependency_pairs
                      /\ ~ In b protocols
                      /\ message = (protocol_name a ++ " requires "
                                    ++ protocol_name b)%string
      end).
    { destruct (check_requirements protocols rest) as [message|].
      - destruct IH as [a [b [H1 H2]]]. exists a, b.
        split; [now right | exact H2].
      - intros Hhead a b [<-|Ha] Hpair; eauto. }
    destruct (assoc PROTOCOL_REQUIREMENTS protocol) as [requirements|] eqn:Et.
    + pose proof (check_required_spec protocols protocol requirements) as Hreq.
      destruct (check_required protocols protocol requirements) as [message|].
      * destruct Hreq as [b [H1 [H2 H3]]]. exists protocol, b.
        split; [now left|]. split; [apply requirements_pairs; eauto|].
        split; assumption.
      * destruct (check_requirements protocols rest) as [message|]; auto.
        apply Hrest. intros b Hpair.
        apply requirements_pairs in Hpair.
        destruct Hpair as [requirements' [Ht Hb]].
        rewrite Et in Ht. injection Ht as <-. auto.
    + destruct (check_requirements protocols rest) as [message|]; auto.
      apply Hrest. intros b Hpair.
      apply requirements_pairs in Hpair.
      destruct Hpair as [requirements' [Ht Hb]]. congruence.
Qed.

Lemma spec_dependencies_true (l : list Z) :
  spec_dependencies l = true <->
  forall a b, In (a, b) spec_dependency_pairs -> In a l -> In b l.
Proof.
  unfold spec_dependencies. rewrite forallb_forall. split.
  - intros H a b Hpair Ha. specialize (H (a, b) Hpair). simpl in H.
    apply present_In in Ha. rewrite Ha in H. simpl in H.
    now apply present_In.
  - intros H [a b] Hpair.
    destruct (present a l) eqn:Ea; simpl; auto.
    apply present_In. apply present_In in Ea. eauto.
Qed.

Lemma validateProtocols_first_failed_check (protocols : option (list Z)) :
  match first_failed_check protocols with
  | None => validateProtocols protocols = ProtocolValidation.mk true None
  | Some r =>
      exists message,
        validateProtocols protocols = ProtocolValidation.mk false (Some message)
        /\ reports r protocols message
  end.
Proof.
  destruct protocols as [l|]; [|simpl; eexists; split; [reflexivity|now left]].
  unfold first_failed_check, validateProtocols, spec_structural.
  unfold GlyphLimits.MAX_PROTOCOLS, len.
  destruct (Z.eqb_spec (Z.of_nat (List.length l)) 0) as [H0|H0].
  { replace (1 <=? List.length l)%nat with false
      by (symmetry; apply Nat.leb_gt; lia).
    simpl. eexists. split; [reflexivity|now left]. }
  destruct (Z.gtb_spec (Z.of_nat (List.length l)) 16) as [H16|H16].
  { replace (List.length l <=? 16)%nat with false
      by (symmetry; apply Nat.leb_gt; lia).
    rewrite andb_false_r. simpl. eexists. split; [reflexivity|now right]. }
  replace (1 <=? List.length l)%nat with true
    by (symmetry; apply Nat.leb_le; lia).
  replace (List.length l <=? 16)%nat with true
    by (symmetry; apply Nat.leb_le; lia).
  cbn [andb negb].
  (* mutual exclusion *)
  unfold PROTOCOL_EXCLUSIONS, check_exclusions, spec_exclusion, spec_burn.
  change PROTOCOLS_REQUIRE_BASE with spec_never_sole.
  rewrite !includes_present.
  destruct (present GlyphProtocol.GLYPH_FT l && present GlyphProtocol.GLYPH_NFT l)
    eqn:Eex; cbn [negb].
  { eexists. split; reflexivity. }
  (* dependency requirements *)
  pose proof (check_requirements_spec l l) as Hreq.
  destruct (check_requirements l l) as [message|].
  { destruct Hreq as [a [b [Ha [Hpair [Hb ->]]]]].
    replace (spec_dependencies l) with false.
    - cbn [negb]. eexists. split; [reflexivity|].
      exists a, b, l. auto.
    - symmetry. destruct (spec_dependencies l) eqn:E; auto.
      rewrite spec_dependencies_true in E. exfalso. eauto. }
  replace (spec_dependencies l) with true
    by (symmetry; apply spec_dependencies_true; intros a b Hp Ha; eauto).
  cbn [negb].
  (* standalone-forbidden, then BURN *)
  destruct l as [|id [|id' l]].
  - simpl in H0. lia.
  - cbn [List.length Z.of_nat Pos.of_succ_nat Z.eqb Pos.eqb andb nth
         single_entry_check].
    destruct (present id spec_never_sole) eqn:Ebase; cbn [negb].
    + eexists. split; [reflexivity|]. exists id, [id].
      split; [reflexivity|]. split; [now apply present_In|].
      split; [|reflexivity].
      unfold sole_protocol. cbn [forallb]. rewrite Z.eqb_refl.
      rewrite andb_true_r. apply present_In. now left.
    + destruct (present GlyphProtocol.GLYPH_BURN [id]),
        (present GlyphProtocol.GLYPH_FT [id]),
        (present GlyphProtocol.GLYPH_NFT [id]);
        cbn; try reflexivity; eexists; split; reflexivity.
  - replace (Z.of_nat (List.length (id :: id' :: l)) =? 1) with false
      by (symmetry; apply Z.eqb_neq; simpl List.length; lia).
    cbn [andb single_entry_check negb].
    destruct (present GlyphProtocol.GLYPH_BURN (id :: id' :: l)),
      (present GlyphProtocol.GLYPH_FT (id :: id' :: l)),
      (present GlyphProtocol.GLYPH_NFT (id :: id' :: l));
      cbn; try reflexivity; eexists; split; reflexivity.
Qed.







(** ** Metadata validation: which messages each part can add *)















(** ** Royalty *)

(** Within the safe integers the double nearest to an integer is the integer
    itself. *)
Lemma round_double_safe (x : Z) : safe_integer x -> round_double x = Finite x.
Proof.
  unfold safe_integer, round_double. intros Hx. cbv zeta.
  assert (Ha : 0 <= Z.abs x < 2 ^ 53) by lia.
  assert (He : Z.log2 (Z.abs x) - 52 <= 0).
  { destruct (Z.eq_dec (Z.abs x) 0) as [->|Hne]; [simpl; lia|].
    assert (Z.log2 (Z.abs x) < 53) by (apply Z.log2_lt_pow2; lia). lia. }
  apply Z.leb_le in He. rewrite He.
  assert (Hbig : (Z.abs x <? 2 ^ 1024) = true).
  { apply Z.ltb_lt. apply Z.lt_trans with (2 ^ 53); [lia|].
    apply Z.pow_lt_mono_r; lia. }
  rewrite Hbig. f_equal. destruct x; reflexivity.
Qed.









(** ** The keys of a canonical object *)

Lemma canonicalizeObject_array (elems : list value) :
  canonicalizeObject (VArr elems) = VArr (map canonicalizeObject elems)
  /\ List.length (map canonicalizeObject elems) = List.length elems
  /\ forall i, nth i (map canonicalizeObject elems) VUndefined
               = canonicalizeObject (nth i elems VUndefined).
Proof.
  split; [reflexivity|]. split; [apply length_map|].
  intros i. apply (map_nth canonicalizeObject elems VUndefined i).
Qed.

Lemma canonicalizeObject_primitive (v : value) :
  match v with VArr _ | VObj _ => False | _ => True end ->
  canonicalizeObject v = v.
Proof. destruct v; simpl; tauto. Qed.

Lemma fold_obj_set_plain (f : string -> value) (keys : list string)
  (acc : object) :
  Forall plain_key keys -> NoDup keys ->
  (forall k, In k keys -> ~ In k (Object_keys acc)) ->
  let result := fold_left (fun r k => obj_set r k (f k)) keys acc in
  Object_keys result = Object_keys acc ++ keys
  /\ forall k, In k keys -> lookup result k = f k.
Proof.
  revert acc.
  induction keys as [|key keys IH]; intros acc Hplain Hnd Hfresh; cbn [fold_left].
  - rewrite app_nil_r. split; [reflexivity | intros k []].
  - inversion Hplain as [|? ? [Hidx Hproto] Hplain']; subst.
    inversion Hnd as [|? ? Hnotin Hnd']; subst.
    assert (Hkeys : Object_keys (obj_set acc key (f key))
                    = Object_keys acc ++ [key]).
    { rewrite keys_obj_set_plain by assumption.
      replace (has_own acc key) with false; auto.
      symmetry. apply has_own_false. apply Hfresh. now left. }
    destruct (IH (obj_set acc key (f key)) Hplain' Hnd') as [IHk IHv].
    { intros k Hk. rewrite Hkeys, in_app_iff. simpl.
      intros [Hin|[->|[]]]; [|contradiction].
      revert Hin. apply Hfresh. now right. }
    split.
    + rewrite IHk, Hkeys, <- app_assoc. reflexivity.
    + intros k [<-|Hk]; [|now apply IHv].
      clear IHk IHv IH.
      assert (Hgen : forall keys' acc',
                ~ In key keys' -> Forall plain_key keys' ->
                lookup (fold_left (fun r k => obj_set r k (f k)) keys' acc') key
                = lookup acc' key).
      { induction keys' as [|k' keys' IH']; intros acc' Hn Hp; simpl; auto.
        inversion Hp as [|? ? [Hi Hq] Hp']; subst.
        rewrite IH'; auto.
        - apply lookup_obj_set_other; auto. intros ->. apply Hn. now left.
        - intros Hin. apply Hn. now right. }
      rewrite Hgen by assumption.
      now apply lookup_obj_set_same.
Qed.

(** When no key of an object is an array index or ["__proto__"], the
    canonical object lists the keys in sorted order, each with the canonical
    form of its value. *)
Lemma canonicalizeObject_plain_keys (props : object) :
  NoDup (Object_keys props) -> Forall plain_key (Object_keys props) ->
  exists canonical,
    canonicalizeObject (VObj props) = VObj canonical
    /\ Object_keys canonical = sort (Object_keys props)
    /\ StronglySorted string_le (Object_keys canonical)
    /\ forall k, In k (Object_keys props) ->
                 lookup canonical k = canonicalizeObject (lookup props k).
Proof.
  intros Hnd Hplain. rewrite canonicalizeObject_object.
  eexists. split; [reflexivity|].
  pose proof (sort_perm (Object_keys props)) as Hperm.
  destruct (fold_obj_set_plain
              (fun key => canonicalizeObject (lookup props key))
              (sort (Object_keys props)) []) as [Hk Hv].
  - eapply Permutation_Forall; eauto.
  - eapply Permutation_NoDup; eauto.
  - intros k _ [].
  - rewrite Hk. simpl. repeat split.
    + apply sort_sorted.
    + intros k Hin. apply Hv. eapply Permutation_in; eauto.
Qed.

(** C7, at the input where the code departs from it: for the object with the
    keys "9" and "10", the sorted keys are "10", "9", and the object built
    from them lists "9" before "10": the keys of the result are not in
    lexicographic order, and the result is the argument unchanged. *)
Theorem canonicalizeObject_array_index_keys :
  let obj := [("9", VNum 2); ("10", VNum 1)] in
  sort (Object_keys obj) = ["10"; "9"]
  /\ canonicalizeObject (VObj obj) = VObj [("9", VNum 2); ("10", VNum 1)]
  /\ ~ string_le "9" "10"
  /\ ~ StronglySorted string_le ["9"; "10"].
Proof.
  cbv zeta. repeat split.
  - unfold string_le. vm_compute. discriminate.
  - intros H. inversion H as [|? ? _ Hall]; subst.
    inversion Hall as [|? ? Hle _]; subst.
    unfold string_le in Hle. vm_compute in Hle. discriminate.
Qed.

(** ** The cases of the test suite, on the model *)

Example test_canonicalize_sorts_keys :
  canonicalizeObject (VObj [("c", VNum 3); ("a", VNum 1); ("b", VNum 2)])
  = VObj [("a", VNum 1); ("b", VNum 2); ("c", VNum 3)].
Proof. reflexivity. Qed.

Example test_canonicalize_nested :
  canonicalizeObject
    (VObj [ ("z", VObj [("c", VNum 3); ("a", VNum 1)]);
            ("a", VObj [("z", VNum 26); ("b", VNum 2)]) ])
  = VObj [ ("a", VObj [("b", VNum 2); ("z", VNum 26)]);
           ("z", VObj [("a", VNum 1); ("c", VNum 3)]) ].
Proof. reflexivity. Qed.

Example test_canonicalize_arrays :
  canonicalizeObject
    (VObj [ ("arr", VArr [ VObj [("b", VNum 2); ("a", VNum 1)];
                           VObj [("d", VNum 4); ("c", VNum 3)] ]) ])
  = VObj [ ("arr", VArr [ VObj [("a", VNum 1); ("b", VNum 2)];
                          VObj [("c", VNum 3); ("d", VNum 4)] ]) ].
Proof. reflexivity. Qed.

Example test_canonicalize_primitives :
  canonicalizeObject VNull = VNull
  /\ canonicalizeObject (VNum 42) = VNum 42
  /\ canonicalizeObject (VStr "string") = VStr "string"
  /\ canonicalizeObject (VBool true) = VBool true.
Proof. repeat split. Qed.

Example test_encodeMetadata_adds_version :
  encodeMetadata sample_stringify [("type", VStr "token"); ("p", VArr [VNum 1])]
  = ( [("type", VStr "token"); ("p", VArr [VNum 1]); ("v", VNum 2)],
      Buffer_from_utf8
        (sample_stringify
           (VObj [("p", VArr [VNum 1]); ("type", VStr "token"); ("v", VNum 2)])) ).
Proof. reflexivity. Qed.

Example test_encodeCommitEnvelope_basic :
  encodeCommitEnvelope (CommitOptions.mk (Some example_hash) None None None)
  = Ret (list_byte_of_string "gly" ++ [x02; x00] ++ example_hash).
Proof. reflexivity. Qed.

Example test_encodeCommitEnvelope_contentRoot :
  encodeCommitEnvelope
    (CommitOptions.mk (Some example_hash) None (Some example_contentRoot) None)
  = Ret (list_byte_of_string "gly" ++ [x02; x01] ++ example_hash
         ++ example_contentRoot).
Proof. reflexivity. Qed.

Example test_encodeCommitEnvelope_rejects :
  encodeCommitEnvelope (CommitOptions.mk (Some (repeat x00 16)) None None None)
  = Throw (Error "Invalid commit hash")
  /\ encodeCommitEnvelope (CommitOptions.mk None None None None)
     = Throw (Error "Invalid commit hash").
Proof. split; reflexivity. Qed.

Example test_encodeRevealEnvelope_files :
  snd (encodeRevealEnvelope sample_stringify
         (RevealOptions.mk (MetaBytes (list_byte_of_string "{}"))
            (Some [list_byte_of_string "file1 content";
                   list_byte_of_string "file2 content"])))
  = Ret [ list_byte_of_string "gly" ++ [x02; x80];
          list_byte_of_string "{}";
          list_byte_of_string "file1 content";
          list_byte_of_string "file2 content" ].
Proof. reflexivity. Qed.

Example test_decodeEnvelope_reveal :
  decodeEnvelope sample_toString sample_parse
    ([x00; x6a] ++ list_byte_of_string "gly" ++ [x02; x80]
     ++ list_byte_of_string "{}")
  = Ret (Some (RevealEnvelope (Reveal.mk 2 128 (VObj []) [] None))).
Proof. reflexivity. Qed.

Example test_decodeEnvelope_unparseable_body :
  decodeEnvelope sample_toString sample_parse
    (list_byte_of_string "gly" ++ [x02; x80] ++ list_byte_of_string "not json")
  = Ret (Some (RevealEnvelope
                 (Reveal.mk 2 128 VNull []
                    (Some (list_byte_of_string "not json"))))).
Proof. reflexivity. Qed.

Example test_decodeEnvelope_absent :
  decodeEnvelope sample_toString sample_parse [] = Ret None
  /\ decodeEnvelope sample_toString sample_parse [x00; x6a; x01; x02; x03]
     = Ret None
  /\ decodeEnvelope sample_toString sample_parse (list_byte_of_string "gly")
     = Ret None
  /\ decodeEnvelope sample_toString sample_parse
       (list_byte_of_string "gly" ++ [x02])
     = Ret None.
Proof. repeat split. Qed.

Example test_validateProtocols :
  ProtocolValidation.valid (validateProtocols (Some [1; 4])) = true
  /\ ProtocolValidation.valid (validateProtocols (Some [])) = false
  /\ ProtocolValidation.valid (validateProtocols None) = false
  /\ ProtocolValidation.valid (validateProtocols (Some [2; 5])) = true
  /\ ProtocolValidation.valid (validateProtocols (Some [2; 7])) = true
  /\ ProtocolValidation.valid (validateProtocols (Some [5])) = false
  /\ ProtocolValidation.valid (validateProtocols (Some [2; 5; 11])) = true.
Proof. repeat split. Qed.

Example test_validateMetadata_FT :
  validateMetadata
    (Metadata.mk (VNum 2) (VStr "token") (Some [1]) (VStr "Test Token")
       VUndefined VUndefined (VStr "TEST") VUndefined VUndefined VUndefined
       VUndefined VUndefined)
  = Ret (MetadataValidation.mk true []).
Proof. reflexivity. Qed.

Example test_validateMetadata_missing_fields :
  validateMetadata
    (Metadata.mk VUndefined VUndefined None VUndefined VUndefined VUndefined
       VUndefined VUndefined VUndefined VUndefined VUndefined VUndefined)
  = Ret (MetadataValidation.mk false
           [ "Invalid or missing version (v)";
             "Missing type field";
             "Missing protocols array (p)" ]).
Proof. reflexivity. Qed.

Example test_validateMetadata_royalty_range :
  validateMetadata
    (Metadata.mk (VNum 2) (VStr "token") (Some [1]) VUndefined VUndefined
       VUndefined (VStr "TEST") VUndefined VUndefined VUndefined VUndefined
       (VObj [("bps", VNum 15000); ("address", VStr "rxd1")]))
  = Ret (MetadataValidation.mk false ["Royalty bps must be 0-10000"]).
Proof. reflexivity. Qed.

(** Sums of numbers: the double nearest to the integer sum, ties to the even
    mantissa, an infinity from 2^1024 - 2^970 on *)
Example test_round_double :
  round_double (2 ^ 53 - 1) = Finite (2 ^ 53 - 1)
  /\ round_double (2 ^ 53 + 1) = Finite (2 ^ 53)
  /\ round_double (2 ^ 53 + 2) = Finite (2 ^ 53 + 2)
  /\ round_double (2 ^ 53 + 3) = Finite (2 ^ 53 + 4)
  /\ round_double (- (2 ^ 53 + 3)) = Finite (- (2 ^ 53 + 4))
  /\ round_double (2 ^ 54 + 2) = Finite (2 ^ 54)
  /\ round_double (2 ^ 54 + 6) = Finite (2 ^ 54 + 8)
  /\ round_double (10 ^ 21 + 1) = Finite (10 ^ 21)
  /\ round_double (2 ^ 1024 - 2 ^ 970 - 1) = Finite (2 ^ 1024 - 2 ^ 971)
  /\ round_double (2 ^ 1024 - 2 ^ 970) = Infinity false
  /\ round_double (- 2 ^ 1024) = Infinity true.
Proof. repeat split; vm_compute; reflexivity. Qed.

Example test_validateRoyalty_large :
  validateRoyalty (VObj example_royalty_large) [] = Ret []
  /\ splits_bps_sum example_splits_large = 1.
Proof. split; vm_compute; reflexivity. Qed.

(** ** The properties on the example inputs *)

Ltac solve_NoDup :=
  repeat (constructor; [simpl; intuition discriminate|]); constructor.

Ltac solve_equivalent :=
  lazymatch goal with
  | |- equivalent (VObj _) (VObj _) =>
      apply equivalent_object;
      [ solve_NoDup
      | solve_NoDup
      | intros k; simpl; tauto
      | let Hk := fresh "Hk" in
        intros k Hk; simpl in Hk;
        repeat (destruct Hk as [<-|Hk]; [simpl; solve_equivalent|]);
        contradiction ]
  | |- equivalent (VArr _) (VArr _) =>
      apply equivalent_array;
      repeat (constructor; [solve_equivalent|]); constructor
  | |- equivalent _ _ => apply equivalent_primitive; exact I
  end.

Lemma commit_envelope_roundtrip_witness :
  len example_hash = 32
  /\ len example_contentRoot = 32
  /\ len example_controller = 36
  /\ (exists bytes,
        encodeCommitEnvelope
          (CommitOptions.mk (Some example_hash) None None None) = Ret bytes
        /\ decodeEnvelope sample_toString sample_parse bytes
           = Ret (Some (CommitEnvelope
                          (Commit.mk 2 0 example_hash None None))))
  /\ (exists bytes flags,
        encodeCommitEnvelope
          (CommitOptions.mk (Some example_hash) None
             (Some example_contentRoot) (Some example_controller)) = Ret bytes
        /\ decodeEnvelope sample_toString sample_parse bytes
           = Ret (Some (CommitEnvelope
                          (Commit.mk 2 flags example_hash
                             (Some example_contentRoot)
                             (Some example_controller))))
        /\ Z.testbit flags 0 = true /\ Z.testbit flags 1 = true).
Proof.
  pose proof (commit_envelope_roundtrip sample_toString sample_parse
                example_hash eq_refl) as [W1 W2].
  split; [reflexivity|]. split; [reflexivity|]. split; [reflexivity|].
  split; [exact W1|].
  exact (W2 example_contentRoot example_controller eq_refl eq_refl).
Defined.

Lemma encodeMetadata_key_order_independent_witness :
  equivalent (VObj example_metadata_1) (VObj example_metadata_2)
  /\ snd (encodeMetadata sample_stringify example_metadata_1)
     = snd (encodeMetadata sample_stringify example_metadata_2)
  /\ snd (computeCommitHash sample_stringify sample_hash
            (MetaObject example_metadata_1))
     = snd (computeCommitHash sample_stringify sample_hash
              (MetaObject example_metadata_2)).
Proof.
  assert (E : equivalent (VObj example_metadata_1) (VObj example_metadata_2))
    by (unfold example_metadata_1, example_metadata_2; solve_equivalent).
  pose proof (encodeMetadata_key_order_independent sample_stringify sample_hash
                example_metadata_1 example_metadata_2 E) as [W1 [W2 _]].
  split; [exact E|]. split; [exact W1 | exact W2].
Defined.


Lemma decodeEnvelope_first_magic_only_witness :
  indexOf (example_script_prefix ++ GLYPH_MAGIC ++ example_script_rest)
    GLYPH_MAGIC = len example_script_prefix
  /\ truncated_or_unknown_version example_script_rest
  /\ decodeEnvelope sample_toString sample_parse example_later_envelope
     = Ret (Some (CommitEnvelope (Commit.mk 2 0 example_hash None None)))
  /\ decodeEnvelope sample_toString sample_parse
       (example_script_prefix ++ GLYPH_MAGIC ++ example_script_rest)
     = Ret None.
Proof.
  assert (T : truncated_or_unknown_version example_script_rest)
    by (simpl; split; discriminate).
  split; [reflexivity|]. split; [exact T|]. split; [reflexivity|].
  exact (decodeEnvelope_first_magic_only sample_toString sample_parse
           example_script_prefix example_script_rest eq_refl T).
Defined.


Lemma encodeRevealEnvelope_size_limits_witness :
  snd (encodeRevealEnvelope sample_stringify
         (RevealOptions.mk (MetaBytes (example_bytes 262145)) None))
  = Throw (Error "Metadata exceeds maximum size of 262144 bytes")
  /\ snd (encodeRevealEnvelope sample_stringify
            (RevealOptions.mk (MetaBytes (example_bytes 262143))
               (Some [example_json])))
     = Ret [GLYPH_MAGIC ++ [x02; x80]; example_bytes 262143; example_json]
  /\ snd (encodeRevealEnvelope sample_stringify
            (RevealOptions.mk (MetaObject []) None))
     = Ret [GLYPH_MAGIC ++ [x02; x80];
            snd (encodeMetadata sample_stringify [])].
Proof.
  split; [|split].
  - apply (proj1 (proj2 (encodeRevealEnvelope_size_limits sample_stringify
                           (RevealOptions.mk (MetaBytes (example_bytes 262145))
                              None)))).
    vm_compute. reflexivity.
  - apply (proj2 (proj2 (proj2 (proj2
             (encodeRevealEnvelope_size_limits sample_stringify
                (RevealOptions.mk (MetaBytes (example_bytes 262143))
                   (Some [example_json]))))))).
    + vm_compute. reflexivity.
    + repeat constructor. vm_compute. discriminate.
  - apply (proj1 (proj2 (proj2 (proj2
             (encodeRevealEnvelope_size_limits sample_stringify
                (RevealOptions.mk (MetaObject []) None)))))).
    + vm_compute. discriminate.
    + constructor.
Defined.

(** ** Constant-time comparison *)

Lemma Z_of_byte_range (b : byte) : 0 <= Z_of_byte b < 256.
Proof.
  unfold Z_of_byte. pose proof (Byte.to_N_bounded b) as H. lia.
Qed.

Lemma Z_of_byte_inj (x y : byte) : Z_of_byte x = Z_of_byte y -> x = y.
Proof.
  unfold Z_of_byte. intros H. apply N2Z.inj in H.
  assert (E : Byte.of_N (Byte.to_N x) = Byte.of_N (Byte.to_N y)) by now rewrite H.
  rewrite !Byte.of_to_N in E. congruence.
Qed.

Lemma to_int32_small (n : Z) : - 2 ^ 31 <= n < 2 ^ 31 -> to_int32 n = n.
Proof. intros H. unfold to_int32. rewrite Z.mod_small; lia. Qed.

Lemma below_256_log2 (a : Z) : 0 <= a < 256 -> Z.log2 a < 8.
Proof.
  intros [H0 H1]. destruct (Z.eq_dec a 0) as [->|Hne]; [reflexivity|].
  apply Z.log2_lt_pow2; lia.
Qed.

Lemma log2_below_256 (a : Z) : 0 <= a -> Z.log2 a < 8 -> 0 <= a < 256.
Proof.
  intros H0 H1. split; auto.
  destruct (Z.eq_dec a 0) as [->|Hne]; [lia|].
  change 256 with (2 ^ 8). apply Z.log2_lt_pow2; lia.
Qed.

Lemma lor_below_256 (a b : Z) :
  0 <= a < 256 -> 0 <= b < 256 -> 0 <= Z.lor a b < 256.
Proof.
  intros Ha Hb. apply log2_below_256.
  - apply Z.lor_nonneg. lia.
  - rewrite Z.log2_lor by lia.
    pose proof (below_256_log2 a Ha). pose proof (below_256_log2 b Hb). lia.
Qed.

Lemma lxor_below_256 (a b : Z) :
  0 <= a < 256 -> 0 <= b < 256 -> 0 <= Z.lxor a b < 256.
Proof.
  intros Ha Hb. apply log2_below_256.
  - apply Z.lxor_nonneg. lia.
  - pose proof (Z.log2_lxor a b ltac:(lia) ltac:(lia)).
    pose proof (below_256_log2 a Ha). pose proof (below_256_log2 b Hb). lia.
Qed.

Lemma js_xor_bytes (x y : byte) :
  0 <= js_xor (Z_of_byte x) (Z_of_byte y) < 256
  /\ (js_xor (Z_of_byte x) (Z_of_byte y) = 0 <-> x = y).
Proof.
  pose proof (Z_of_byte_range x) as Hx. pose proof (Z_of_byte_range y) as Hy.
  unfold js_xor. rewrite !to_int32_small by lia.
  split; [now apply lxor_below_256|].
  split.
  - intros H. apply Z.lxor_eq in H. now apply Z_of_byte_inj.
  - intros ->. apply Z.lxor_nilpotent.
Qed.

Lemma js_or_below_256 (a b : Z) :
  0 <= a < 256 -> 0 <= b < 256 ->
  0 <= js_or a b < 256 /\ (js_or a b = 0 <-> a = 0 /\ b = 0).
Proof.
  intros Ha Hb. unfold js_or. rewrite !to_int32_small by lia.
  split; [now apply lor_below_256|]. apply Z.lor_eq_0_iff.
Qed.

Lemma areEqual_loop_spec (a b : Buffer) (res : Z) :
  List.length a = List.length b -> 0 <= res < 256 ->
  (FixedTime.areEqual_loop a b res = 0 <-> res = 0 /\ a = b).
Proof.
  revert b res.
  induction a as [|x a IH]; intros [|y b] res Hlen Hres; simpl in Hlen;
    try discriminate; simpl.
  - tauto.
  - destruct (js_xor_bytes x y) as [Hx Hxy].
    destruct (js_or_below_256 res _ Hres Hx) as [Hor Hor0].
    rewrite IH by (auto; lia). rewrite Hor0, Hxy.
    split.
    + intros [[H1 H2] H3]. subst. auto.
    + intros [H1 H2]. injection H2 as -> ->. auto.
Qed.

(** X1: [FixedTime.areEqual] answers [true] exactly when the two buffers are
    equal: the same length and the same byte at every position. *)
Theorem areEqual_iff_equal (a b : Buffer) :
  FixedTime.areEqual a b = true <-> a = b.
Proof.
  unfold FixedTime.areEqual, len.
  destruct (Z.eqb_spec (Z.of_nat (List.length a)) (Z.of_nat (List.length b)))
    as [Hlen|Hlen]; cbn [negb].
  - rewrite Z.eqb_eq, areEqual_loop_spec by lia. tauto.
  - split; [discriminate|]. intros ->. contradiction.
Qed.

(** ** The magic in the hexadecimal form of a buffer *)

Lemma Buffer_toString_hex_app (a b : Buffer) :
  Buffer_toString_hex (a ++ b)
  = (Buffer_toString_hex a ++ Buffer_toString_hex b)%string.
Proof.
  induction a as [|x a IH]; simpl; [reflexivity|]. now rewrite IH.
Qed.

Lemma prefix_append (needle rest : string) :
  String.prefix needle (needle ++ rest) = true.
Proof.
  induction needle as [|c needle IH]; simpl; [now destruct rest|].
  destruct (Ascii.ascii_dec c c); [exact IH | contradiction].
Qed.

Lemma String_includes_here (needle rest : string) :
  String_includes (needle ++ rest) needle = true.
Proof.
  pose proof (prefix_append needle rest) as H.
  destruct (needle ++ rest)%string; cbn [String_includes]; rewrite H;
    reflexivity.
Qed.

Lemma String_includes_append (before needle rest : string) :
  String_includes (before ++ needle ++ rest) needle = true.
Proof.
  induction before as [|c before IH].
  - cbn [append]. apply String_includes_here.
  - cbn [append String_includes]. rewrite IH. apply orb_true_r.
Qed.

Lemma containsGlyphMagic_occurrence (pre rest : Buffer) :
  containsGlyphMagic (pre ++ GLYPH_MAGIC ++ rest) = true.
Proof.
  unfold containsGlyphMagic. cbv zeta.
  rewrite !Buffer_toString_hex_app.
  change (Buffer_toString_hex GLYPH_MAGIC) with GLYPH_MAGIC_HEX.
  apply String_includes_append.
Qed.

Lemma GLYPH_MAGIC_nonempty : GLYPH_MAGIC <> [].
Proof. discriminate. Qed.

Lemma indexOf_found (buf : Buffer) :
  indexOf buf GLYPH_MAGIC <> -1 ->
  exists pre rest,
    buf = pre ++ GLYPH_MAGIC ++ rest /\ indexOf buf GLYPH_MAGIC = len pre.
Proof.
  intros Hfound. unfold indexOf in *.
  destruct (indexOf_from_spec buf GLYPH_MAGIC 0 GLYPH_MAGIC_nonempty)
    as [[Hr _]|[pre [rest [Hbuf [Hr _]]]]]; [contradiction|].
  exists pre, rest. split; [exact Hbuf | exact Hr].
Qed.

Lemma containsGlyphMagic_found (buf : Buffer) :
  indexOf buf GLYPH_MAGIC <> -1 -> containsGlyphMagic buf = true.
Proof.
  intros Hfound. destruct (indexOf_found buf Hfound) as [pre [rest [-> _]]].
  apply containsGlyphMagic_occurrence.
Qed.

Lemma decodeEnvelope_returns (Buffer_toString_utf8 : Buffer -> string)
  (JSON_parse : string -> outcome value) (scriptBuf : Buffer) :
  exists result : option envelope,
    decodeEnvelope Buffer_toString_utf8 JSON_parse scriptBuf = Ret result.
Proof.
  unfold decodeEnvelope.
  destruct (indexOf scriptBuf GLYPH_MAGIC =? -1); [now eexists|].
  unfold try_catch.
  match goal with |- exists r, match ?body with _ => _ end = _ =>
    destruct body; eauto
  end.
Qed.

Lemma decodeEnvelope_Some_found (Buffer_toString_utf8 : Buffer -> string)
  (JSON_parse : string -> outcome value) (scriptBuf : Buffer) (e : envelope) :
  decodeEnvelope Buffer_toString_utf8 JSON_parse scriptBuf = Ret (Some e) ->
  indexOf scriptBuf GLYPH_MAGIC <> -1.
Proof.
  unfold decodeEnvelope. intros H Hno. rewrite Hno in H. discriminate.
Qed.

(** X2: [containsGlyphMagic] has no false negative: it answers [true] on
    every buffer in which [indexOf] finds the magic bytes, hence on every
    buffer from which [decodeEnvelope] returns an envelope. *)
Theorem containsGlyphMagic_no_false_negative
  (Buffer_toString_utf8 : Buffer -> string)
  (JSON_parse : string -> outcome value) (buf : Buffer) :
  indexOf buf GLYPH_MAGIC <> -1
  \/ (exists e,
        decodeEnvelope Buffer_toString_utf8 JSON_parse buf = Ret (Some e)) ->
  containsGlyphMagic buf = true.
Proof.
  intros [Hfound|[e He]].
  - now apply containsGlyphMagic_found.
  - apply containsGlyphMagic_found. eapply decodeEnvelope_Some_found. eauto.
Qed.

(** X3: [containsGlyphMagic] searches the hexadecimal text, so it also
    answers [true] when the six digits straddle byte boundaries: on the four
    bytes [?6 76 c7 9?] the magic bytes do not occur and [decodeEnvelope]
    answers [null], yet [containsGlyphMagic] answers [true]. *)
Theorem containsGlyphMagic_nibble_shifted
  (Buffer_toString_utf8 : Buffer -> string)
  (JSON_parse : string -> outcome value) (a b : byte) :
  (Byte.to_N a mod 16 = 6)%N -> (Byte.to_N b / 16 = 9)%N ->
  let buf := [a; x76; xc7; b] in
  containsGlyphMagic buf = true
  /\ indexOf buf GLYPH_MAGIC = -1
  /\ decodeEnvelope Buffer_toString_utf8 JSON_parse buf = Ret None.
Proof.
  intros Ha Hb buf.
  assert (Hindex : indexOf buf GLYPH_MAGIC = -1).
  { unfold indexOf, buf. simpl. rewrite !andb_false_r. reflexivity. }
  split; [|split; [exact Hindex|]].
  - unfold containsGlyphMagic, buf. cbv zeta.
    cbn [Buffer_toString_hex]. unfold hex_of_byte at 1 4. rewrite Ha, Hb.
    exact (String_includes_append
             (String (hex_char (Byte.to_N a / 16)) EmptyString)
             GLYPH_MAGIC_HEX
             (String (hex_char (Byte.to_N b mod 16)) EmptyString)).
  - unfold decodeEnvelope. rewrite Hindex. reflexivity.
Qed.

(** ** Glyph IDs *)

Ltac eval_digit :=
  match goal with
  | |- context [digit ?c] =>
      let v := eval vm_compute in (digit c) in
      change (digit c) with v; cbv iota beta
  end.

Lemma parse_digits_acc (d : Decimal.uint) (acc : positive) :
  parse_digits (NilEmpty.string_of_uint d) (N.pos acc)
  = N.pos (Pos.of_uint_acc d acc).
Proof.
  revert acc.
  induction d; intros acc;
    cbn [NilEmpty.string_of_uint parse_digits Pos.of_uint_acc]; auto;
    eval_digit; rewrite <- IHd; f_equal; lia.
Qed.

Lemma parse_digits_uint (d : Decimal.uint) :
  parse_digits (NilEmpty.string_of_uint d) 0 = Pos.of_uint d.
Proof.
  induction d; cbn [NilEmpty.string_of_uint parse_digits Pos.of_uint]; auto;
    eval_digit; apply parse_digits_acc.
Qed.

Lemma digit_not_sign (c : ascii) (k : N) :
  digit c = Some k ->
  is_whitespace c = false /\ (c =? "-")%char = false
  /\ (c =? "+")%char = false /\ (c =? ":")%char = false.
Proof.
  destruct c as [[] [] [] [] [] [] [] []]; vm_compute; intros H;
    try discriminate; auto.
Qed.

Lemma parseInt_digits (c : ascii) (rest : string) (k : N) :
  digit c = Some k ->
  parseInt (Some (String c rest))
  = Some (Z.of_N (parse_digits (String c rest) 0))
  /\ parseInt (Some (String "-" (String c rest)))
     = Some (- Z.of_N (parse_digits (String c rest) 0)).
Proof.
  intros Hc. destruct (digit_not_sign c k Hc) as [Hw [Hm [Hp _]]].
  unfold parseInt. cbn [trim_start]. rewrite Hw.
  change (is_whitespace "-") with false. cbv iota.
  rewrite Hm, Hp. change ("-" =? "-")%char with true. cbv iota beta.
  rewrite Hc. split; f_equal; lia.
Qed.

Lemma string_of_uint_digits (d : Decimal.uint) :
  contains_char ":" (NilEmpty.string_of_uint d) = false.
Proof. induction d; simpl; auto. Qed.

Lemma string_of_uint_head (d : Decimal.uint) :
  d <> Decimal.Nil ->
  exists c rest k,
    NilEmpty.string_of_uint d = String c rest /\ digit c = Some k.
Proof.
  intros Hd. destruct d; [contradiction| ..]; simpl; do 3 eexists;
    (split; [reflexivity | vm_compute; reflexivity]).
Qed.

Lemma Number_toString_digits (p : positive) :
  exists c rest k,
    Number_toString (Z.pos p) = String c rest
    /\ Number_toString (Z.neg p) = String "-" (String c rest)
    /\ digit c = Some k
    /\ parse_digits (String c rest) 0 = N.pos p
    /\ contains_char ":" (String c rest) = false.
Proof.
  pose proof (DecimalPos.Unsigned.to_uint_nonnil p) as Hp.
  destruct (string_of_uint_head (Pos.to_uint p) Hp) as [c [rest [k [Hs Hc]]]].
  assert (Hz : NilZero.string_of_uint (Pos.to_uint p) = String c rest).
  { rewrite <- Hs. unfold NilZero.string_of_uint.
    destruct (Pos.to_uint p); [contradiction | reflexivity ..]. }
  exists c, rest, k.
  unfold Number_toString, Z.to_int, NilZero.string_of_int. rewrite Hz.
  repeat split; auto.
  - rewrite <- Hs, parse_digits_uint. apply DecimalPos.Unsigned.of_to.
  - rewrite <- Hs. apply string_of_uint_digits.
Qed.

Lemma Number_toString_no_colon (n : Z) :
  contains_char ":" (Number_toString n) = false.
Proof.
  destruct n as [|p|p]; [reflexivity | |];
    destruct (Number_toString_digits p) as [c [rest [k [H1 [H2 [_ [_ H3]]]]]]].
  - now rewrite H1.
  - rewrite H2. exact H3.
Qed.

Lemma parseInt_Number_toString (n : Z) :
  parseInt (Some (Number_toString n)) = Some n.
Proof.
  destruct n as [|p|p]; [reflexivity | |];
    destruct (Number_toString_digits p) as [c [rest [k [H1 [H2 [Hc [Hv _]]]]]]];
    destruct (parseInt_digits c rest k Hc) as [P1 P2].
  - rewrite H1, P1, Hv. reflexivity.
  - rewrite H2, P2, Hv. reflexivity.
Qed.

Lemma split_colon_nonempty (s : string) : split_colon s <> [].
Proof.
  induction s as [|c s IH]; simpl; [discriminate|].
  destruct (c =? ":")%char; [discriminate|].
  destruct (split_colon s); [contradiction | discriminate].
Qed.

Lemma split_colon_none (s : string) :
  contains_char ":" s = false -> split_colon s = [s].
Proof.
  induction s as [|c s IH]; simpl; [reflexivity|]. intros H.
  apply orb_false_iff in H. destruct H as [Hc Hs].
  rewrite Hc, (IH Hs). reflexivity.
Qed.

Lemma split_colon_first (a rest : string) :
  contains_char ":" a = false ->
  split_colon (a ++ String ":" rest) = a :: split_colon rest.
Proof.
  induction a as [|c a IH]; simpl; [reflexivity|]. intros H.
  apply orb_false_iff in H. destruct H as [Hc Ha].
  rewrite Hc, (IH Ha). reflexivity.
Qed.

Lemma contains_char_split (c : ascii) (s : string) :
  contains_char c s = true ->
  exists a b,
    s = (a ++ String c b)%string /\ contains_char c a = false.
Proof.
  induction s as [|x s IH]; simpl; [discriminate|].
  destruct (Ascii.eqb_spec x c) as [->|Hne]; simpl.
  - intros _. exists EmptyString, s. auto.
  - intros H. destruct (IH H) as [a [b [-> Ha]]].
    exists (String x a), b. simpl. split; [reflexivity|].
    destruct (Ascii.eqb_spec x c); [contradiction | exact Ha].
Qed.

Lemma string_append_assoc (a b c : string) :
  ((a ++ b) ++ c = a ++ (b ++ c))%string.
Proof. induction a as [|x a IH]; simpl; [reflexivity|]. now rewrite IH. Qed.

Lemma append_longer (a b : string) (c : ascii) : a <> (a ++ String c b)%string.
Proof.
  induction a as [|x a IH]; simpl; [discriminate|]. congruence.
Qed.

(** X4: [parseGlyphId] inverts [getGlyphId] exactly when the transaction ID
    holds no colon: the ID is then split back into the same [txid] and the
    same [vout]; with a colon in [txid], the text is cut at that colon and the
    round trip fails. *)
Theorem parseGlyphId_getGlyphId_roundtrip (txid : string) (vout : Z) :
  safe_integer vout ->
  (parseGlyphId (getGlyphId txid vout) = GlyphId.mk txid (Some vout)
   <-> contains_char ":" txid = false).
Proof.
  intros _. unfold parseGlyphId, getGlyphId. cbv zeta.
  change (txid ++ ":" ++ Number_toString vout)%string
    with (txid ++ String ":" (Number_toString vout))%string.
  split.
  - intros H. destruct (contains_char ":" txid) eqn:E; [exfalso | reflexivity].
    destruct (contains_char_split _ _ E) as [a [b [-> Ha]]].
    rewrite string_append_assoc in H.
    change (String ":" b ++ String ":" (Number_toString vout))%string
      with (String ":" (b ++ String ":" (Number_toString vout)))%string in H.
    rewrite (split_colon_first _ _ Ha) in H. cbn [nth] in H.
    injection H as H. now apply append_longer in H.
  - intros H. rewrite (split_colon_first _ _ H).
    rewrite (split_colon_none _ (Number_toString_no_colon vout)).
    cbn [nth nth_error]. now rewrite parseInt_Number_toString.
Qed.

(** ** Token types and the order of protocols *)

Lemma validateProtocols_valid_iff (protocols : option (list Z)) :
  ProtocolValidation.valid (validateProtocols protocols) = true
  <-> first_failed_check protocols = None.
Proof.
  pose proof (validateProtocols_first_failed_check protocols) as H.
  destruct (first_failed_check protocols) as [r|].
  - destruct H as [message [-> _]]. simpl. split; discriminate.
  - rewrite H. simpl. tauto.
Qed.

Lemma first_failed_check_None (l : list Z) :
  first_failed_check (Some l) = None <->
  spec_structural (Some l) = true /\ spec_exclusion l = true
  /\ spec_dependencies l = true /\ single_entry_check l = true
  /\ spec_burn l = true.
Proof.
  unfold first_failed_check.
  destruct (spec_structural (Some l)), (spec_exclusion l),
    (spec_dependencies l), (single_entry_check l), (spec_burn l); simpl;
    intuition discriminate.
Qed.

Lemma present_includes_false (l : list Z) (x : Z) :
  includes l x = false <-> ~ In x l.
Proof.
  rewrite <- includes_In. destruct (includes l x); split; congruence.
Qed.


(** X5: on a protocol list that [validateProtocols] accepts, the secondary
    protocols decide the answer of [getTokenType]: a list with DMINT is a
    "dMint Fungible Token", a list with WAVE is a "WAVE Name", a list with
    AUTHORITY, CONTAINER, ENCRYPTED, TIMELOCK or MUT is one of the
    non-fungible kinds and never plain "NFT", and a list with BURN is never
    "Unknown" nor "Data Token". *)
Theorem getTokenType_of_valid (l : list Z) :
  ProtocolValidation.valid (validateProtocols (Some l)) = true ->
  (In GlyphProtocol.GLYPH_DMINT l -> getTokenType l = "dMint Fungible Token")
  /\ (In GlyphProtocol.GLYPH_WAVE l -> getTokenType l = "WAVE Name")
  /\ (In GlyphProtocol.GLYPH_AUTHORITY l \/ In GlyphProtocol.GLYPH_CONTAINER l
      \/ In GlyphProtocol.GLYPH_ENCRYPTED l \/ In GlyphProtocol.GLYPH_TIMELOCK l
      \/ In GlyphProtocol.GLYPH_MUT l ->
      In (getTokenType l)
         ["WAVE Name"; "Authority Token"; "Container"; "Encrypted NFT";
          "Mutable NFT"])
  /\ (In GlyphProtocol.GLYPH_BURN l ->
      getTokenType l <> "Unknown" /\ getTokenType l <> "Data Token").
Proof.
  intros Hvalid. apply validateProtocols_valid_iff in Hvalid.
  apply first_failed_check_None in Hvalid.
  destruct Hvalid as [_ [Hexcl [Hdep [_ Hburn]]]].
  rewrite spec_dependencies_true in Hdep.
  assert (Hno : In GlyphProtocol.GLYPH_FT l -> In GlyphProtocol.GLYPH_NFT l
                -> False).
  { intros H1 H2. apply present_In in H1, H2. unfold spec_exclusion in Hexcl.
    rewrite H1, H2 in Hexcl. discriminate. }
  assert (Hb : In GlyphProtocol.GLYPH_BURN l ->
               In GlyphProtocol.GLYPH_FT l \/ In GlyphProtocol.GLYPH_NFT l).
  { intros H. apply present_In in H. unfold spec_burn in Hburn.
    rewrite H in Hburn. simpl in Hburn. apply orb_true_iff in Hburn.
    rewrite !present_In in Hburn. exact Hburn. }
  assert (D : forall a b, In (a, b) spec_dependency_pairs ->
                          In a l -> includes l b = true).
  { intros a b Hp Ha. apply includes_In. eauto. }
  unfold getTokenType.
  destruct (includes l GlyphProtocol.GLYPH_FT) eqn:EFT;
    destruct (includes l GlyphProtocol.GLYPH_NFT) eqn:ENFT;
    try (exfalso; apply Hno; now apply includes_In).
  - (* fungible *)
    assert (N : forall a, In (a, GlyphProtocol.GLYPH_NFT) spec_dependency_pairs
                          -> In a l -> False).
    { intros a Hp Ha. pose proof (D _ _ Hp Ha). congruence. }
    repeat split.
    + intros H. apply includes_In in H. now rewrite H.
    + intros H. exfalso. apply (N GlyphProtocol.GLYPH_WAVE); simpl; auto 10.
    + intros [H|[H|[H|[H|H]]]]; exfalso.
      * apply (N GlyphProtocol.GLYPH_AUTHORITY); simpl; auto 10.
      * apply (N GlyphProtocol.GLYPH_CONTAINER); simpl; auto 10.
      * apply (N GlyphProtocol.GLYPH_ENCRYPTED); simpl; auto 10.
      * apply (N GlyphProtocol.GLYPH_ENCRYPTED); simpl; auto 10.
        apply includes_In.
        apply (D GlyphProtocol.GLYPH_TIMELOCK); simpl; auto 10.
      * apply (N GlyphProtocol.GLYPH_MUT); simpl; auto 10.
    + destruct (includes l GlyphProtocol.GLYPH_DMINT); discriminate.
    + destruct (includes l GlyphProtocol.GLYPH_DMINT); discriminate.
  - (* non-fungible *)
    assert (Henc : In GlyphProtocol.GLYPH_TIMELOCK l ->
                   includes l GlyphProtocol.GLYPH_ENCRYPTED = true)
      by (intros H; apply (D GlyphProtocol.GLYPH_TIMELOCK); simpl; auto 10).
    repeat split.
    + intros H. pose proof (D GlyphProtocol.GLYPH_DMINT GlyphProtocol.GLYPH_FT)
        as H'. simpl in H'. rewrite H' in EFT; auto; discriminate.
    + intros H. apply includes_In in H. now rewrite H.
    + intros H.
      repeat match goal with
      | |- context [includes l ?x] =>
          let E := fresh "E" in destruct (includes l x) eqn:E
      end; simpl; auto 10;
      exfalso; destruct H as [H|[H|[H|[H|H]]]];
        try (apply Henc in H); try (apply includes_In in H); congruence.
    + repeat match goal with
      | |- context [includes l ?x] => destruct (includes l x)
      end; discriminate.
    + repeat match goal with
      | |- context [includes l ?x] => destruct (includes l x)
      end; discriminate.
  - (* neither *)
    assert (N : forall a b, In (a, b) spec_dependency_pairs ->
                 b = GlyphProtocol.GLYPH_FT \/ b = GlyphProtocol.GLYPH_NFT ->
                 In a l -> False).
    { intros a b Hp [->| ->] Ha; pose proof (D _ _ Hp Ha); congruence. }
    repeat split.
    + intros H. exfalso.
      apply (N GlyphProtocol.GLYPH_DMINT GlyphProtocol.GLYPH_FT); simpl; auto 10.
    + intros H. exfalso.
      apply (N GlyphProtocol.GLYPH_WAVE GlyphProtocol.GLYPH_NFT); simpl; auto 10.
    + intros [H|[H|[H|[H|H]]]]; exfalso.
      * apply (N GlyphProtocol.GLYPH_AUTHORITY GlyphProtocol.GLYPH_NFT);
          simpl; auto 10.
      * apply (N GlyphProtocol.GLYPH_CONTAINER GlyphProtocol.GLYPH_NFT);
          simpl; auto 10.
      * apply (N GlyphProtocol.GLYPH_ENCRYPTED GlyphProtocol.GLYPH_NFT);
          simpl; auto 10.
      * apply (N GlyphProtocol.GLYPH_ENCRYPTED GlyphProtocol.GLYPH_NFT);
          simpl; auto 10.
        apply includes_In.
        apply (D GlyphProtocol.GLYPH_TIMELOCK); simpl; auto 10.
      * apply (N GlyphProtocol.GLYPH_MUT GlyphProtocol.GLYPH_NFT);
          simpl; auto 10.
    + exfalso. apply Hb in H. rewrite <- !includes_In in H.
      destruct H; congruence.
    + exfalso. apply Hb in H. rewrite <- !includes_In in H.
      destruct H; congruence.
Qed.

Lemma present_perm (l l' : list Z) (x : Z) :
  Permutation l l' -> present x l = present x l'.
Proof.
  intros Hp.
  destruct (present x l) eqn:E; destruct (present x l') eqn:E'; auto.
  - apply present_In in E. apply (Permutation_in _ Hp) in E.
    apply present_In in E. congruence.
  - apply present_In in E'. apply (Permutation_in _ (Permutation_sym Hp)) in E'.
    apply present_In in E'. congruence.
Qed.

Lemma first_failed_check_perm (l l' : list Z) :
  Permutation l l' ->
  first_failed_check (Some l) = first_failed_check (Some l').
Proof.
  intros Hp. unfold first_failed_check.
  replace (spec_structural (Some l')) with (spec_structural (Some l))
    by (unfold spec_structural; now rewrite (Permutation_length Hp)).
  replace (spec_exclusion l') with (spec_exclusion l)
    by (unfold spec_exclusion; now rewrite !(present_perm l l' _ Hp)).
  replace (spec_dependencies l') with (spec_dependencies l).
  2:{ unfold spec_dependencies, spec_dependency_pairs. cbn [forallb].
      now rewrite !(present_perm l l' _ Hp). }
  replace (single_entry_check l') with (single_entry_check l).
  2:{ unfold single_entry_check. destruct l as [|a [|b l]].
      - apply Permutation_nil in Hp. now subst.
      - apply Permutation_length_1_inv in Hp. now subst.
      - pose proof (Permutation_length Hp) as Hlen.
        destruct l' as [|a' [|b' l']]; simpl in Hlen; try discriminate.
        reflexivity. }
  replace (spec_burn l') with (spec_burn l)
    by (unfold spec_burn; now rewrite !(present_perm l l' _ Hp)).
  reflexivity.
Qed.

(** X6: the verdict of [validateProtocols] does not depend on the order of
    the protocol IDs: two lists that are permutations of each other are both
    accepted or both rejected (the message of a rejection can differ). *)
Theorem validateProtocols_order_insensitive (l l' : list Z) :
  Permutation l l' ->
  ProtocolValidation.valid (validateProtocols (Some l))
  = ProtocolValidation.valid (validateProtocols (Some l')).
Proof.
  intros Hp. apply first_failed_check_perm in Hp.
  pose proof (validateProtocols_valid_iff (Some l)) as H1.
  pose proof (validateProtocols_valid_iff (Some l')) as H2.
  rewrite Hp in H1.
  destruct (ProtocolValidation.valid (validateProtocols (Some l)));
    destruct (ProtocolValidation.valid (validateProtocols (Some l'))); auto.
  - symmetry. apply H2. now apply H1.
  - apply H1. now apply H2.
Qed.

(** ** The validators only append to the errors array *)

Lemma appends_bind (f g : list string -> outcome (list string)) :
  appends f -> appends g -> appends (fun errors => e <- f errors ;; g e).
Proof.
  intros Hf Hg errors. rewrite (Hf errors).
  destruct (f []) as [a|e]; cbn [bind]; [|reflexivity].
  rewrite (Hg (errors ++ a)), (Hg a).
  destruct (g []) as [b|e]; [|reflexivity].
  now rewrite app_assoc.
Qed.

Lemma appends_value {A : Type} (c : outcome A)
  (k : A -> list string -> outcome (list string)) :
  (forall a, appends (k a)) -> appends (fun errors => a <- c ;; k a errors).
Proof.
  intros Hk errors. destruct c as [a|e]; cbn [bind]; [apply Hk | reflexivity].
Qed.

Lemma appends_Ret : appends (fun errors => Ret errors).
Proof. intros errors. now rewrite app_nil_r. Qed.

Lemma appends_push (message : string) :
  appends (fun errors => Ret (push errors message)).
Proof. intros errors. reflexivity. Qed.

Lemma appends_if (b : bool) (f g : list string -> outcome (list string)) :
  appends f -> appends g -> appends (fun errors => if b then f errors else g errors).
Proof. destruct b; auto. Qed.

Ltac appends_cases :=
  repeat (cbn [bind];
          match goal with
          | |- context [get ?v ?k] => destruct (get v k) as [?|?]
          | |- context [byteLength ?v] => destruct (byteLength v) as [?|?]
          | |- context [if ?b then _ else _] => destruct b
          end);
  cbn [bind]; unfold push;
  rewrite ?app_nil_l, ?app_nil_r, <- ?app_assoc; try reflexivity.

Lemma validateContentFile_appends (file : value) (path : string) :
  appends (validateContentFile file path).
Proof.
  intros errors. unfold validateContentFile. cbv zeta. appends_cases.
Qed.

Lemma forEach_file_appends (files : list value) (i : nat) :
  appends (forEach_file files i).
Proof.
  revert i. induction files as [|file files IH]; intros i; simpl.
  - apply appends_Ret.
  - apply (appends_bind (validateContentFile file _) (forEach_file files (S i)));
      [apply validateContentFile_appends | apply IH].
Qed.

Lemma forEach_ref_appends (refs : list value) (i : nat) :
  appends (forEach_ref refs i).
Proof.
  revert i. induction refs as [|ref refs IH]; intros i; simpl.
  - apply appends_Ret.
  - apply (appends_bind (validateContentFile ref _));
      [apply validateContentFile_appends|].
    apply appends_value. intros uri.
    apply (appends_bind
             (fun errors =>
                Ret (if negb (truthy uri)
                     then push errors _ else errors)) (forEach_ref refs (S i)));
      [|apply IH].
    destruct (negb (truthy uri)); [apply appends_push | apply appends_Ret].
Qed.

Lemma validateContent_appends (content : value) :
  appends (validateContent content).
Proof.
  unfold validateContent.
  apply appends_value. intros primary.
  apply (appends_bind
           (fun errors =>
              if truthy primary
              then validateContentFile primary "content.primary" errors
              else Ret errors)).
  { apply appends_if; [apply validateContentFile_appends | apply appends_Ret]. }
  apply appends_value. intros files.
  apply (appends_bind
           (fun errors =>
              match files with
              | VArr files => forEach_file files 0 errors
              | _ => Ret errors
              end)).
  { destruct files; try apply appends_Ret. apply forEach_file_appends. }
  apply appends_value. intros refs.
  destruct refs; try apply appends_Ret. apply forEach_ref_appends.
Qed.

Lemma forEach_split_appends (splits : list value) (i : nat)
  (errors : list string) (totalBps : number) :
  forEach_split splits i errors totalBps
  = match forEach_split splits i [] totalBps with
    | Ret (added, total) => Ret (errors ++ added, total)
    | Throw e => Throw e
    end.
Proof.
  revert i errors totalBps.
  induction splits as [|split splits IH]; intros i errors totalBps; simpl.
  - now rewrite app_nil_r.
  - destruct (get split "address") as [address|e]; cbn [bind]; [|reflexivity].
    destruct (get split "bps") as [bps|e]; cbn [bind]; [|reflexivity].
    destruct (negb (truthy address)); destruct bps;
      rewrite IH; symmetry; rewrite IH; unfold push;
      match goal with
      | |- context [forEach_split splits ?j [] ?t] =>
          destruct (forEach_split splits j [] t) as [[added total]|e]
      end; rewrite ?app_nil_l, <- ?app_assoc; reflexivity.
Qed.

Lemma validateRoyalty_appends (royalty : value) :
  appends (validateRoyalty royalty).
Proof.
  intros errors. unfold validateRoyalty.
  destruct (get royalty "bps") as [bps|e]; cbn [bind]; [|reflexivity].
  destruct (get royalty "address") as [address|e]; cbn [bind]; [|reflexivity].
  destruct (get royalty "splits") as [splits|e]; cbn [bind]; [|reflexivity].
  cbv zeta.
  set (e1 := match bps with
             | VNum n =>
                 if (n <? 0) || (n >? 10000)
                 then ["Royalty bps must be 0-10000"] else []
             | _ => ["Royalty bps must be 0-10000"]
             end).
  set (e2 := if negb (truthy address) then ["Royalty requires address"] else []).
  assert (E : forall errors,
             (if negb (truthy address)
              then push match bps with
                        | VNum n =>
                            if (n <? 0) || (n >? 10000)
                            then push errors "Royalty bps must be 0-10000"
                            else errors
                        | _ => push errors "Royalty bps must be 0-10000"
                        end "Royalty requires address"
              else match bps with
                   | VNum n =>
                       if (n <? 0) || (n >? 10000)
                       then push errors "Royalty bps must be 0-10000"
                       else errors
                   | _ => push errors "Royalty bps must be 0-10000"
                   end) = errors ++ e1 ++ e2).
  { intros es. subst e1 e2. unfold push.
    destruct bps as [ | | | n | | | ];
      try destruct ((n <? 0) || (n >? 10000));
      destruct (negb (truthy address));
      rewrite ?app_nil_r, <- ?app_assoc; reflexivity. }
  rewrite (E errors), (E []). cbn [app].
  destruct splits; rewrite ?app_nil_r; try reflexivity.
  rewrite forEach_split_appends. symmetry. rewrite forEach_split_appends.
  destruct (forEach_split elems 0 [] (Finite 0)) as [[added total]|e];
    cbn [bind]; [|reflexivity].
  destruct (negb (strict_eq_number bps total)); unfold push;
    rewrite <- ?app_assoc; reflexivity.
Qed.

(** X7: the exported validators [validateContentFile], [validateContent] and
    [validateRoyalty] only append to the errors array they are given: its
    entries stay in place, and what is added (or the exception thrown) is what
    the same call adds to an empty array. *)
Theorem validators_only_append (file content royalty : value) (path : string) :
  appends (validateContentFile file path)
  /\ appends (validateContent content)
  /\ appends (validateRoyalty royalty).
Proof.
  split; [apply validateContentFile_appends|].
  split; [apply validateContent_appends | apply validateRoyalty_appends].
Qed.

(** ** What the validators accept *)

Lemma get_field (v : value) (key : string) :
  nullish v = false -> get v key = Ret (field v key).
Proof. destruct v; simpl; intros H; try discriminate; reflexivity. Qed.

Lemma truthy_not_nullish (v : value) : truthy v = true -> nullish v = false.
Proof. destruct v; simpl; intros H; try discriminate; reflexivity. Qed.

Lemma get_nullish (v : value) (key : string) :
  nullish v = true -> get v key = Throw TypeError.
Proof. destruct v; simpl; intros H; try discriminate; reflexivity. Qed.

Lemma field_nullish (v : value) (key : string) :
  nullish v = true -> field v key = VUndefined.
Proof. destruct v; simpl; intros H; try discriminate; reflexivity. Qed.

Lemma string_within_byteLength (x : value) (limit : Z) :
  string_within x limit
  = truthy x && match byteLength x with
                | Ret n => negb (n >? limit)
                | Throw _ => false
                end.
Proof.
  destruct x; simpl; rewrite ?andb_false_r; try reflexivity.
  now rewrite Z.gtb_ltb, Z.leb_antisym.
Qed.

Ltac split_atom b :=
  lazymatch b with
  | true => fail
  | false => fail
  | negb ?c => split_atom c
  | andb ?x _ => split_atom x
  | orb ?x _ => split_atom x
  | implb ?x _ => split_atom x
  | _ => destruct b eqn:?
  end.

Ltac decide_step :=
  cbn [bind andb orb negb implb];
  match goal with
  | |- context [match ?o with Ret _ => _ | Throw _ => _ end] =>
      lazymatch o with
      | Ret _ => fail
      | Throw _ => fail
      | _ => destruct o as [?|?] eqn:?
      end
  | |- context [if ?b then _ else _] => split_atom b
  end.

Ltac decide_all :=
  repeat decide_step;
  cbn [bind andb orb negb implb push app];
  try (split; intros; (discriminate || reflexivity || congruence)).

Lemma validateContentFile_accepts (file : value) (path : string) :
  validateContentFile file path [] = Ret [] <-> file_accepted file = true.
Proof.
  unfold validateContentFile, file_accepted. cbv zeta.
  destruct (nullish file) eqn:Hfile.
  - rewrite !get_nullish, !field_nullish by auto. simpl.
    split; discriminate.
  - rewrite !(get_field file) by auto. cbn [bind].
    rewrite !string_within_byteLength.
    destruct (truthy (field file "hash")) eqn:Hhash; cbn [negb].
    + rewrite !(get_field (field file "hash"))
        by now apply truthy_not_nullish.
      decide_all.
    + decide_all.
Qed.

Lemma accepts_bind (c : outcome (list string))
  (g : list string -> outcome (list string)) :
  appends g ->
  ((e <- c ;; g e) = Ret [] <-> c = Ret [] /\ g [] = Ret []).
Proof.
  intros Hg. destruct c as [a|e]; cbn [bind].
  - rewrite (Hg a). destruct (g []) as [b|e].
    + split.
      * intros [= H]. apply app_eq_nil in H. destruct H; subst; auto.
      * intros [[= ->] [= ->]]. reflexivity.
    + split; [discriminate | intros [_ H]; discriminate].
  - split; [discriminate | intros [H _]; discriminate].
Qed.

Lemma appends_nonempty (g : list string -> outcome (list string))
  (message : string) :
  appends g -> g (push [] message) <> Ret [].
Proof.
  intros Hg. rewrite (Hg (push [] message)).
  destruct (g []); [|discriminate]. unfold push. simpl. discriminate.
Qed.

Lemma forEach_file_accepts (files : list value) (i : nat) :
  forEach_file files i [] = Ret [] <-> forallb file_accepted files = true.
Proof.
  revert i. induction files as [|file files IH]; intros i; simpl.
  - tauto.
  - rewrite (accepts_bind _ (forEach_file files (S i)))
      by apply forEach_file_appends.
    rewrite validateContentFile_accepts, IH, andb_true_iff. tauto.
Qed.

Lemma forEach_ref_accepts (refs : list value) (i : nat) :
  forEach_ref refs i [] = Ret [] <->
  forallb (fun ref => file_accepted ref && truthy (field ref "uri")) refs = true.
Proof.
  revert i. induction refs as [|ref refs IH]; intros i; simpl.
  - tauto.
  - rewrite (accepts_bind _
               (fun errors =>
                  uri <- get ref "uri" ;;
                  forEach_ref refs (S i)
                    (if negb (truthy uri)
                     then push errors _ else errors))).
    2:{ apply appends_value. intros uri.
        apply (appends_bind
                 (fun errors =>
                    Ret (if negb (truthy uri) then push errors _ else errors))
                 (forEach_ref refs (S i))); [|apply forEach_ref_appends].
        destruct (negb (truthy uri)); [apply appends_push | apply appends_Ret]. }
    rewrite validateContentFile_accepts, !andb_true_iff, <- (IH (S i)).
    destruct (nullish ref) eqn:Hn.
    + rewrite get_nullish by auto. cbn [bind].
      unfold file_accepted. rewrite !field_nullish by auto. simpl.
      split; [intros [H _]; discriminate | intros [[H _] _]; discriminate].
    + rewrite get_field by auto. cbn [bind].
      destruct (truthy (field ref "uri")); cbn [negb].
      * tauto.
      * split; [intros [_ H]; exfalso | intros [[_ H] _]; discriminate].
        exact (appends_nonempty _ _ (forEach_ref_appends refs (S i)) H).
Qed.

Lemma validateContent_accepts (content : value) :
  nullish content = false ->
  (validateContent content [] = Ret [] <-> content_accepted content = true).
Proof.
  intros Hc. unfold validateContent, content_accepted.
  rewrite !(get_field content) by auto. cbn [bind].
  rewrite (accepts_bind _
             (fun errors =>
                errors <- match field content "files" with
                          | VArr files => forEach_file files 0 errors
                          | _ => Ret errors
                          end ;;
                match field content "refs" with
                | VArr refs => forEach_ref refs 0 errors
                | _ => Ret errors
                end)).
  2:{ apply appends_bind.
      - destruct (field content "files"); try apply appends_Ret.
        apply forEach_file_appends.
      - destruct (field content "refs"); try apply appends_Ret.
        apply forEach_ref_appends. }
  rewrite (accepts_bind _
             (fun errors =>
                match field content "refs" with
                | VArr refs => forEach_ref refs 0 errors
                | _ => Ret errors
                end)).
  2:{ destruct (field content "refs"); try apply appends_Ret.
      apply forEach_ref_appends. }
  rewrite !andb_true_iff, orb_true_iff.
  assert (H1 : (if truthy (field content "primary")
                then validateContentFile (field content "primary")
                       "content.primary" []
                else Ret []) = Ret []
               <-> negb (truthy (field content "primary")) = true
                   \/ file_accepted (field content "primary") = true).
  { destruct (truthy (field content "primary")); cbn [negb].
    - rewrite validateContentFile_accepts.
      split; [auto | intros [H|H]; [discriminate | exact H]].
    - split; auto. }
  assert (H2 : match field content "files" with
               | VArr files => forEach_file files 0 []
               | _ => Ret []
               end = Ret []
               <-> match field content "files" with
                   | VArr files => forallb file_accepted files
                   | _ => true
                   end = true).
  { destruct (field content "files"); try tauto. apply forEach_file_accepts. }
  assert (H3 : match field content "refs" with
               | VArr refs => forEach_ref refs 0 []
               | _ => Ret []
               end = Ret []
               <-> match field content "refs" with
                   | VArr refs =>
                       forallb (fun ref => file_accepted ref
                                           && truthy (field ref "uri")) refs
                   | _ => true
                   end = true).
  { destruct (field content "refs"); try tauto. apply forEach_ref_accepts. }
  tauto.
Qed.

Lemma forEach_split_nonempty (splits : list value) (i : nat)
  (message : string) (errors : list string) (t t' : number) :
  forEach_split splits i (message :: errors) t <> Ret ([], t').
Proof.
  rewrite forEach_split_appends.
  destruct (forEach_split splits i [] t) as [[added total]|e]; discriminate.
Qed.

Lemma forEach_split_accepts (splits : list value) (i : nat) (t : Z)
  (t' : number) :
  safe_sums splits t ->
  (forEach_split splits i [] (Finite t) = Ret ([], t') <->
   exists s, splits_total splits = Some s /\ t' = Finite (t + s)).
Proof.
  revert i t.
  induction splits as [|split splits IH]; intros i t Hsafe;
    cbn [forEach_split splits_total].
  - split.
    + intros [= <-]. exists 0. split; [reflexivity | now rewrite Z.add_0_r].
    + intros [s [[= <-] ->]]. now rewrite Z.add_0_r.
  - destruct (nullish split) eqn:Hn.
    + rewrite !get_nullish, !field_nullish by auto. cbn [bind].
      split; [discriminate | intros [s [H _]]; discriminate].
    + rewrite !get_field by auto. cbn [bind]. unfold push. cbn [app].
      cbn [safe_sums] in Hsafe.
      destruct (truthy (field split "address")) eqn:Ha; cbn [negb].
      * destruct (field split "bps") as [ | | | n | | | ];
          try (split; [intros H; cbn [app] in H;
                              now apply forEach_split_nonempty in H
                      | intros [? [H _]]; discriminate]).
        destruct Hsafe as [Hn' Hsafe].
        cbn [js_add]. rewrite (round_double_safe _ Hn').
        rewrite (IH (S i) (t + n) Hsafe).
        destruct (splits_total splits) as [total|].
        -- split; intros [s [[= <-] ->]]; eexists; split; eauto;
             f_equal; lia.
        -- split; intros [s [H _]]; discriminate.
      * split.
        -- intros H. exfalso.
           destruct (field split "bps"); cbn [app] in H;
             now apply forEach_split_nonempty in H.
        -- intros [total [H _]].
           destruct (field split "bps"); try discriminate.
           destruct (splits_total splits); discriminate.
Qed.

Lemma validateRoyalty_accepts (royalty : value) :
  nullish royalty = false ->
  safe_royalty royalty ->
  (validateRoyalty royalty [] = Ret [] <-> royalty_accepted royalty = true).
Proof.
  intros Hr Hsafe. unfold validateRoyalty, royalty_accepted.
  unfold safe_royalty in Hsafe.
  rewrite !(get_field royalty) by auto. cbn [bind]. cbv zeta.
  destruct (field royalty "bps") as [ | | | bps | | | ];
    try (destruct (negb (truthy (field royalty "address")));
         destruct (field royalty "splits") as [ | | | | | splits | ];
         (split; [intros H | discriminate]);
         try discriminate;
         exfalso;
         rewrite forEach_split_appends in H;
         destruct (forEach_split splits 0 [] (Finite 0)) as [[added total]|e];
         cbn [bind] in H; try discriminate;
         match type of H with
         | context [if ?b then _ else _] => destruct b
         end; unfold push in H; simpl in H; discriminate).
  assert (Hrange : (bps <? 0) || (bps >? 10000)
                   = negb ((0 <=? bps) && (bps <=? 10000))).
  { rewrite Z.gtb_ltb. destruct (Z.ltb_spec bps 0), (Z.ltb_spec 10000 bps),
      (Z.leb_spec 0 bps), (Z.leb_spec bps 10000); simpl; auto; lia. }
  rewrite Hrange.
  destruct ((0 <=? bps) && (bps <=? 10000)); cbn [negb andb];
    destruct (truthy (field royalty "address")); cbn [negb andb];
    destruct (field royalty "splits") as [ | | | | | splits | ];
    try (split; (discriminate || reflexivity));
    try (split; [intros H | discriminate];
         exfalso;
         rewrite forEach_split_appends in H;
         destruct (forEach_split splits 0 [] (Finite 0)) as [[added total]|e];
         cbn [bind] in H; try discriminate;
         match type of H with
         | context [if ?b then _ else _] => destruct b
         end; unfold push in H; simpl in H; discriminate).
  destruct (forEach_split splits 0 [] (Finite 0)) as [[added total]|e] eqn:E;
    cbn [bind].
  - destruct added as [|m added].
    + apply forEach_split_accepts in E; [|exact Hsafe].
      destruct E as [s [-> ->]].
      simpl. destruct (Z.eqb_spec bps s) as [->|Hne].
      * rewrite Z.eqb_refl. simpl. split; reflexivity.
      * replace (s =? bps) with false by (symmetry; apply Z.eqb_neq; lia).
        simpl. split; discriminate.
    + assert (Hs : splits_total splits = None).
      { destruct (splits_total splits) as [s|] eqn:Es; auto.
        assert (H' : forEach_split splits 0 [] (Finite 0)
                     = Ret ([], Finite (0 + s)))
          by (apply forEach_split_accepts; eauto).
        rewrite H' in E. discriminate. }
      rewrite Hs.
      destruct (negb (strict_eq_number (VNum bps) total)); split; discriminate.
  - assert (Hs : splits_total splits = None).
    { destruct (splits_total splits) as [s|] eqn:Es; auto.
      assert (H' : forEach_split splits 0 [] (Finite 0)
                   = Ret ([], Finite (0 + s)))
        by (apply forEach_split_accepts; eauto).
      rewrite H' in E. discriminate. }
    rewrite Hs. split; discriminate.
Qed.

Lemma requiredFields_appends (metadata : Metadata.t) (errors : list string) :
  requiredFields metadata errors = errors ++ requiredFields metadata [].
Proof.
  unfold requiredFields. cbv zeta.
  repeat match goal with
         | |- context [if ?b then _ else _] => destruct b
         | |- context [match ?o with Some _ => _ | None => _ end] => destruct o
         end;
    unfold push; rewrite ?app_nil_l, ?app_nil_r, <- ?app_assoc; reflexivity.
Qed.

Lemma sizeLimits_appends (metadata : Metadata.t) :
  appends (sizeLimits metadata).
Proof. intros errors. unfold sizeLimits. appends_cases. Qed.

Lemma typeSpecific_appends (metadata : Metadata.t) :
  appends (typeSpecific metadata).
Proof.
  intros errors. unfold typeSpecific. cbv zeta.
  destruct (Metadata.p metadata) as [protocols|]; [|now rewrite app_nil_r].
  appends_cases.
Qed.

Lemma validateMetadata_parts (metadata : Metadata.t) :
  validateMetadata metadata
  = (a2 <- sizeLimits metadata [] ;;
     a3 <- typeSpecific metadata [] ;;
     a4 <- (if truthy (Metadata.content metadata)
            then validateContent (Metadata.content metadata) []
            else Ret []) ;;
     a5 <- (if truthy (Metadata.royalty metadata)
            then validateRoyalty (Metadata.royalty metadata) []
            else Ret []) ;;
     let errors := requiredFields metadata [] ++ a2 ++ a3 ++ a4 ++ a5 in
     Ret (MetadataValidation.mk (len errors =? 0) errors)).
Proof.
  unfold validateMetadata. cbv zeta.
  rewrite (sizeLimits_appends metadata (requiredFields metadata [])).
  destruct (sizeLimits metadata []) as [a2|e]; cbn [bind]; [|reflexivity].
  rewrite (typeSpecific_appends metadata (requiredFields metadata [] ++ a2)).
  destruct (typeSpecific metadata []) as [a3|e]; cbn [bind]; [|reflexivity].
  assert (H4 : forall errors,
             (if truthy (Metadata.content metadata)
              then validateContent (Metadata.content metadata) errors
              else Ret errors)
             = match (if truthy (Metadata.content metadata)
                      then validateContent (Metadata.content metadata) []
                      else Ret []) with
               | Ret added => Ret (errors ++ added)
               | Throw e => Throw e
               end).
  { intros errors. destruct (truthy (Metadata.content metadata)).
    - apply validateContent_appends.
    - now rewrite app_nil_r. }
  rewrite H4.
  destruct (if truthy (Metadata.content metadata)
            then validateContent (Metadata.content metadata) []
            else Ret []) as [a4|e]; cbn [bind]; [|reflexivity].
  assert (H5 : forall errors,
             (if truthy (Metadata.royalty metadata)
              then validateRoyalty (Metadata.royalty metadata) errors
              else Ret errors)
             = match (if truthy (Metadata.royalty metadata)
                      then validateRoyalty (Metadata.royalty metadata) []
                      else Ret []) with
               | Ret added => Ret (errors ++ added)
               | Throw e => Throw e
               end).
  { intros errors. destruct (truthy (Metadata.royalty metadata)).
    - apply validateRoyalty_appends.
    - now rewrite app_nil_r. }
  rewrite H5.
  destruct (if truthy (Metadata.royalty metadata)
            then validateRoyalty (Metadata.royalty metadata) []
            else Ret []) as [a5|e]; cbn [bind]; [|reflexivity].
  rewrite <- !app_assoc. reflexivity.
Qed.

(** X8: the error list of [validateMetadata] is the concatenation, in this
    order, of what five groups of checks report: required fields, size limits,
    type-specific requirements, content and royalty. Each group reports what
    it reports on its own, whatever the groups before it found, and the
    metadata is valid exactly when all five report nothing. *)
Theorem validateMetadata_errors_by_group (metadata : Metadata.t) :
  validateMetadata metadata
  = (a2 <- sizeLimits metadata [] ;;
     a3 <- typeSpecific metadata [] ;;
     a4 <- (if truthy (Metadata.content metadata)
            then validateContent (Metadata.content metadata) []
            else Ret []) ;;
     a5 <- (if truthy (Metadata.royalty metadata)
            then validateRoyalty (Metadata.royalty metadata) []
            else Ret []) ;;
     let errors := requiredFields metadata [] ++ a2 ++ a3 ++ a4 ++ a5 in
     Ret (MetadataValidation.mk (len errors =? 0) errors)).
Proof. apply validateMetadata_parts. Qed.

Lemma validateProtocols_invalid_message (protocols : option (list Z)) :
  ProtocolValidation.valid (validateProtocols protocols) = false ->
  exists message,
    ProtocolValidation.error (validateProtocols protocols) = Some message.
Proof.
  pose proof (validateProtocols_first_failed_check protocols) as H.
  destruct (first_failed_check protocols).
  - destruct H as [message [-> _]]. intros _. simpl. eauto.
  - rewrite H. discriminate.
Qed.

Lemma requiredFields_accepts (metadata : Metadata.t) :
  requiredFields metadata [] = [] <->
  (strict_eq_num (Metadata.v metadata) GlyphVersion.V1
   || strict_eq_num (Metadata.v metadata) GlyphVersion.V2)
  && (truthy (Metadata.type metadata) && isString (Metadata.type metadata))
  && ProtocolValidation.valid (validateProtocols (Metadata.p metadata)) = true.
Proof.
  unfold requiredFields. cbv zeta.
  assert (Hv : negb (truthy (Metadata.v metadata))
               || negb (strict_eq_num (Metadata.v metadata) GlyphVersion.V1)
                  && negb (strict_eq_num (Metadata.v metadata) GlyphVersion.V2)
               = negb (strict_eq_num (Metadata.v metadata) GlyphVersion.V1
                       || strict_eq_num (Metadata.v metadata) GlyphVersion.V2)).
  { destruct (Metadata.v metadata) as [ | | [] | n | s | | ]; try reflexivity;
      [|simpl; now rewrite orb_true_r].
    simpl. unfold GlyphVersion.V1, GlyphVersion.V2.
    destruct (Z.eqb_spec n 0), (Z.eqb_spec n 1), (Z.eqb_spec n 2);
      simpl; auto; lia. }
  rewrite Hv.
  destruct (strict_eq_num (Metadata.v metadata) GlyphVersion.V1
            || strict_eq_num (Metadata.v metadata) GlyphVersion.V2);
    destruct (truthy (Metadata.type metadata));
    destruct (isString (Metadata.type metadata));
    cbn [negb andb orb];
    (destruct (Metadata.p metadata) as [protocols|];
     [|cbn; split; discriminate]);
    destruct (ProtocolValidation.valid (validateProtocols (Some protocols)))
      eqn:Ev; cbn [negb];
    try (destruct (validateProtocols_invalid_message _ Ev) as [m ->]);
    cbn; split; (discriminate || reflexivity).
Qed.

Lemma sizeLimits_accepts (metadata : Metadata.t) :
  sizeLimits metadata [] = Ret [] <->
  (negb (truthy (Metadata.name metadata))
   || string_within (Metadata.name metadata) GlyphLimits.MAX_NAME_SIZE)
  && (negb (truthy (Metadata.desc metadata))
      || string_within (Metadata.desc metadata) GlyphLimits.MAX_DESC_SIZE)
  = true.
Proof.
  unfold sizeLimits. rewrite !string_within_byteLength. decide_all.
Qed.

Lemma typeSpecific_accepts (metadata : Metadata.t) :
  typeSpecific metadata [] = Ret [] <-> type_specific_accepted metadata = true.
Proof.
  unfold typeSpecific, type_specific_accepted. cbv zeta.
  destruct (Metadata.p metadata) as [protocols|]; [|tauto].
  destruct (truthy (Metadata.content metadata)) eqn:Ec.
  - rewrite get_field by now apply truthy_not_nullish. decide_all.
  - decide_all.
Qed.

Lemma validateMetadata_accepts (metadata : Metadata.t) :
  safe_royalty (Metadata.royalty metadata) ->
  ((exists result,
      validateMetadata metadata = Ret result
      /\ MetadataValidation.valid result = true)
   <-> metadata_accepted metadata = true).
Proof.
  intros Hsafe.
  rewrite validateMetadata_parts. unfold metadata_accepted.
  rewrite !andb_true_iff.
  pose proof (requiredFields_accepts metadata) as H1.
  rewrite !andb_true_iff in H1.
  pose proof (sizeLimits_accepts metadata) as H2.
  rewrite !andb_true_iff in H2.
  pose proof (typeSpecific_accepts metadata) as H3.
  assert (H4 : (if truthy (Metadata.content metadata)
                then validateContent (Metadata.content metadata) []
                else Ret []) = Ret []
               <-> negb (truthy (Metadata.content metadata))
                   || content_accepted (Metadata.content metadata) = true).
  { destruct (truthy (Metadata.content metadata)) eqn:E; cbn [negb orb].
    - apply validateContent_accepts. now apply truthy_not_nullish.
    - tauto. }
  assert (H5 : (if truthy (Metadata.royalty metadata)
                then validateRoyalty (Metadata.royalty metadata) []
                else Ret []) = Ret []
               <-> negb (truthy (Metadata.royalty metadata))
                   || royalty_accepted (Metadata.royalty metadata) = true).
  { destruct (truthy (Metadata.royalty metadata)) eqn:E; cbn [negb orb].
    - apply validateRoyalty_accepts;
        [now apply truthy_not_nullish | exact Hsafe].
    - tauto. }
  destruct (sizeLimits metadata []) as [a2|e]; cbn [bind].
  2:{ split; [intros [r [H _]]; discriminate|].
      intros H. exfalso. assert (H' : @Throw (list string) e = Ret []) by tauto.
      discriminate. }
  destruct (typeSpecific metadata []) as [a3|e]; cbn [bind].
  2:{ split; [intros [r [H _]]; discriminate|].
      intros H. exfalso. assert (H' : @Throw (list string) e = Ret []) by tauto.
      discriminate. }
  destruct (if truthy (Metadata.content metadata)
            then validateContent (Metadata.content metadata) []
            else Ret []) as [a4|e]; cbn [bind].
  2:{ split; [intros [r [H _]]; discriminate|].
      intros H. exfalso. assert (H' : @Throw (list string) e = Ret []) by tauto.
      discriminate. }
  destruct (if truthy (Metadata.royalty metadata)
            then validateRoyalty (Metadata.royalty metadata) []
            else Ret []) as [a5|e]; cbn [bind].
  2:{ split; [intros [r [H _]]; discriminate|].
      intros H. exfalso. assert (H' : @Throw (list string) e = Ret []) by tauto.
      discriminate. }
  cbv zeta. split.
  - intros [r [[= <-] Hvalid]]. cbn [MetadataValidation.valid] in Hvalid.
    apply Z.eqb_eq in Hvalid. unfold len in Hvalid.
    assert (Hnil : requiredFields metadata [] ++ a2 ++ a3 ++ a4 ++ a5 = [])
      by (apply length_zero_iff_nil; lia).
    apply app_eq_nil in Hnil. destruct Hnil as [E1 Hnil].
    apply app_eq_nil in Hnil. destruct Hnil as [E2 Hnil].
    apply app_eq_nil in Hnil. destruct Hnil as [E3 Hnil].
    apply app_eq_nil in Hnil. destruct Hnil as [E4 E5]. subst.
    tauto.
  - intros H.
    assert (E1 : requiredFields metadata [] = []) by tauto.
    assert (E2 : Ret a2 = Ret []) by tauto.
    assert (E3 : Ret a3 = Ret []) by tauto.
    assert (E4 : Ret a4 = Ret []) by tauto.
    assert (E5 : Ret a5 = Ret []) by tauto.
    injection E2 as ->. injection E3 as ->. injection E4 as ->.
    injection E5 as ->. rewrite E1. eexists. split; reflexivity.
Qed.

(** X9: on metadata whose royalty splits have a running total of [bps]
    within the safe integers, [isValidGlyph] answers [true] exactly when the
    metadata pass every check: version 1 or 2, a non-empty string type, a
    protocol list that [validateProtocols] accepts, name and description
    within their byte limits, the fields that the protocols require, a
    content whose files and references are complete, and a royalty with a
    rate from 0 to 10000, an address and splits that add up to the rate. *)
Theorem isValidGlyph_iff_accepted (metadata : Metadata.t) :
  safe_royalty (Metadata.royalty metadata) ->
  (isValidGlyph metadata = Ret true <-> metadata_accepted metadata = true).
Proof.
  intros Hsafe.
  rewrite <- (validateMetadata_accepts metadata Hsafe). unfold isValidGlyph.
  destruct (validateMetadata metadata) as [result|e]; cbn [bind].
  - split.
    + intros [= H]. eauto.
    + intros [r [[= <-] H]]. now rewrite H.
  - split; [discriminate | intros [r [H _]]; discriminate].
Qed.

(** ** When validation throws *)

Lemma returns_iff_bind {A B : Type} (c : outcome A) (k : A -> outcome B)
  (t1 t2 : bool) :
  returns_iff c t1 -> (t1 = true -> forall a, returns_iff (k a) t2) ->
  returns_iff (a <- c ;; k a) (t1 && t2).
Proof.
  unfold returns_iff. destruct c as [a|e]; cbn [bind].
  - intros -> Hk. specialize (Hk eq_refl a). exact Hk.
  - intros [-> ->] _. auto.
Qed.

Lemma returns_iff_Ret {A : Type} (a : A) : returns_iff (Ret a) true.
Proof. reflexivity. Qed.

Lemma byteLength_typed (x : value) : returns_iff (byteLength x) (isString x).
Proof. destruct x; simpl; auto. Qed.

Lemma length_check_typed (x : value) (limit : Z) (errors : list string)
  (message missing : string) :
  returns_iff
    (if negb (truthy x) then Ret (push errors missing)
     else n <- byteLength x ;;
          if n >? limit then Ret (push errors message) else Ret errors)
    (string_or_falsy x).
Proof.
  unfold string_or_falsy. destruct (truthy x); cbn [negb orb].
  - pose proof (byteLength_typed x) as H. unfold returns_iff in *.
    destruct (byteLength x) as [n|e]; cbn [bind]; [|exact H].
    destruct (n >? limit); exact H.
  - reflexivity.
Qed.

Lemma validateContentFile_typed (file : value) (path : string)
  (errors : list string) :
  returns_iff (validateContentFile file path errors) (file_typed file).
Proof.
  unfold validateContentFile, file_typed. cbv zeta.
  destruct (nullish file) eqn:Hfile.
  - rewrite get_nullish by auto. cbn. auto.
  - rewrite !(get_field file) by auto. cbn [bind negb andb].
    apply returns_iff_bind; [apply length_check_typed|]. intros _ errors1.
    rewrite <- (andb_true_r (string_or_falsy (field file "mime"))).
    apply returns_iff_bind; [apply length_check_typed|]. intros _ errors2.
    destruct (truthy (field file "hash")) eqn:Hhash; cbn [negb bind].
    + rewrite !(get_field (field file "hash"))
        by now apply truthy_not_nullish.
      cbn [bind].
      destruct (negb (truthy (field (field file "hash") "algo")));
        cbn [bind];
        try destruct (negb (truthy (field (field file "hash") "hex")));
        reflexivity.
    + reflexivity.
Qed.

Lemma forEach_file_typed (files : list value) (i : nat) (errors : list string) :
  returns_iff (forEach_file files i errors) (forallb file_typed files).
Proof.
  revert i errors. induction files as [|file files IH]; intros i errors; simpl.
  - reflexivity.
  - apply returns_iff_bind; [apply validateContentFile_typed|].
    intros _ errors1. apply IH.
Qed.

Lemma forEach_ref_typed (refs : list value) (i : nat) (errors : list string) :
  returns_iff (forEach_ref refs i errors) (forallb file_typed refs).
Proof.
  revert i errors. induction refs as [|ref refs IH]; intros i errors; simpl.
  - reflexivity.
  - apply returns_iff_bind; [apply validateContentFile_typed|].
    intros Href errors1.
    assert (Hn : nullish ref = false).
    { unfold file_typed in Href. destruct (nullish ref); [discriminate | auto]. }
    rewrite get_field by auto. cbn [bind]. apply IH.
Qed.

Lemma validateContent_typed (content : value) (errors : list string) :
  nullish content = false ->
  returns_iff (validateContent content errors) (content_typed content).
Proof.
  intros Hc. unfold validateContent, content_typed.
  rewrite !(get_field content) by auto. cbn [bind].
  rewrite <- andb_assoc.
  apply returns_iff_bind.
  { destruct (truthy (field content "primary")); cbn [negb orb].
    - apply validateContentFile_typed.
    - reflexivity. }
  intros _ errors1.
  apply returns_iff_bind.
  { destruct (field content "files"); try reflexivity.
    apply forEach_file_typed. }
  intros _ errors2.
  destruct (field content "refs"); try reflexivity. apply forEach_ref_typed.
Qed.

Lemma forEach_split_typed (splits : list value) (i : nat)
  (errors : list string) (totalBps : number) :
  returns_iff (forEach_split splits i errors totalBps)
              (forallb (fun split => negb (nullish split)) splits).
Proof.
  revert i errors totalBps.
  induction splits as [|split splits IH]; intros i errors totalBps; simpl.
  - reflexivity.
  - destruct (nullish split) eqn:Hn; cbn [negb andb].
    + rewrite get_nullish by auto. cbn. auto.
    + rewrite !get_field by auto. cbn [bind].
      destruct (field split "bps"); apply IH.
Qed.

Lemma validateRoyalty_typed (royalty : value) (errors : list string) :
  nullish royalty = false ->
  returns_iff (validateRoyalty royalty errors) (royalty_typed royalty).
Proof.
  intros Hr. unfold validateRoyalty, royalty_typed.
  rewrite !(get_field royalty) by auto. cbn [bind]. cbv zeta.
  destruct (field royalty "splits") as [ | | | | | splits | ];
    try reflexivity.
  match goal with
  | |- context [forEach_split splits 0 ?e (Finite 0)] =>
      pose proof (forEach_split_typed splits 0 e (Finite 0)) as H;
      destruct (forEach_split splits 0 e (Finite 0)) as [[errors1 total]|ex]
  end; cbn [bind]; [|exact H].
  destruct (negb (strict_eq_number (field royalty "bps") total)); exact H.
Qed.

Lemma sizeLimits_typed (metadata : Metadata.t) (errors : list string) :
  returns_iff (sizeLimits metadata errors)
    (string_or_falsy (Metadata.name metadata)
     && string_or_falsy (Metadata.desc metadata)).
Proof.
  unfold sizeLimits.
  apply returns_iff_bind.
  - pose proof (length_check_typed (Metadata.name metadata)
                  GlyphLimits.MAX_NAME_SIZE errors
                  "Name exceeds 256 bytes" EmptyString) as H.
    unfold string_or_falsy in *.
    destruct (truthy (Metadata.name metadata)); [exact H | reflexivity].
  - intros _ errors1.
    pose proof (length_check_typed (Metadata.desc metadata)
                  GlyphLimits.MAX_DESC_SIZE errors1
                  "Description exceeds 4096 bytes" EmptyString) as H.
    unfold string_or_falsy in *.
    destruct (truthy (Metadata.desc metadata)); [exact H | reflexivity].
Qed.

Lemma typeSpecific_returns (metadata : Metadata.t) (errors : list string) :
  returns_iff (typeSpecific metadata errors) true.
Proof.
  unfold typeSpecific. cbv zeta.
  destruct (Metadata.p metadata) as [protocols|]; [|reflexivity].
  destruct (includes protocols GlyphProtocol.GLYPH_NFT); cbn [bind];
    [|reflexivity].
  destruct (truthy (Metadata.content metadata)) eqn:Ec; cbn [negb bind];
    [|reflexivity].
  rewrite get_field by now apply truthy_not_nullish. cbn [bind].
  destruct (negb (truthy (field (Metadata.content metadata) "primary")));
    reflexivity.
Qed.

Lemma validateMetadata_typed (metadata : Metadata.t) :
  returns_iff (validateMetadata metadata) (metadata_typed metadata).
Proof.
  unfold validateMetadata, metadata_typed. cbv zeta.
  rewrite <- !andb_assoc. rewrite andb_assoc.
  apply returns_iff_bind; [apply sizeLimits_typed|]. intros _ errors1.
  rewrite <- (andb_true_l (_ && _)).
  apply returns_iff_bind; [apply typeSpecific_returns|]. intros _ errors2.
  apply returns_iff_bind.
  { destruct (truthy (Metadata.content metadata)) eqn:Ec; cbn [negb orb].
    - apply validateContent_typed. now apply truthy_not_nullish.
    - reflexivity. }
  intros _ errors3.
  rewrite <- (andb_true_r (_ || _)).
  apply returns_iff_bind.
  { destruct (truthy (Metadata.royalty metadata)) eqn:Er; cbn [negb orb].
    - apply validateRoyalty_typed. now apply truthy_not_nullish.
    - reflexivity. }
  intros _ errors4. reflexivity.
Qed.

(** X10: [validateMetadata] is not total. On a metadata object whose [p] is
    missing or an array of protocol IDs, it returns a result exactly when
    [name] and [desc] are strings or falsy, every content file and reference
    is neither [null] nor [undefined] and has a [path] and a [mime] that are
    strings or falsy, and every royalty split is neither [null] nor
    [undefined]; on any other such metadata it throws a TypeError. *)
Theorem validateMetadata_returns_iff_typed (metadata : Metadata.t) :
  (metadata_typed metadata = true ->
   exists result, validateMetadata metadata = Ret result)
  /\ (metadata_typed metadata = false ->
      validateMetadata metadata = Throw TypeError).
Proof.
  pose proof (validateMetadata_typed metadata) as H. unfold returns_iff in H.
  destruct (validateMetadata metadata) as [result|e].
  - split; [eauto | congruence].
  - destruct H as [H ->]. split; [congruence | reflexivity].
Qed.

(** ** Commit envelopes with caller flags, inside a script *)

Lemma lor_below_pow2 (n a b : Z) :
  0 <= n -> 0 <= a < 2 ^ n -> 0 <= b < 2 ^ n -> 0 <= Z.lor a b < 2 ^ n.
Proof.
  intros Hn Ha Hb.
  assert (L : forall x, 0 <= x < 2 ^ n -> x = 0 \/ Z.log2 x < n).
  { intros x Hx. destruct (Z.eq_dec x 0); auto. right.
    apply Z.log2_lt_pow2; lia. }
  assert (Hor : 0 <= Z.lor a b) by (apply Z.lor_nonneg; lia).
  split; [exact Hor|].
  destruct (Z.eq_dec (Z.lor a b) 0) as [E|Hne]; [rewrite E; lia|].
  apply Z.log2_lt_pow2; [lia|].
  rewrite Z.log2_lor by lia.
  pose proof (Z.log2_nonneg a). pose proof (Z.log2_nonneg b).
  destruct (L a Ha) as [->|La]; destruct (L b Hb) as [->|Lb];
    rewrite ?Z.lor_0_l, ?Z.lor_0_r in Hne; try lia;
    change (Z.log2 0) with 0; lia.
Qed.

Lemma js_or_small (n a b : Z) :
  0 <= n <= 31 -> 0 <= a < 2 ^ n -> 0 <= b < 2 ^ n ->
  js_or a b = Z.lor a b /\ 0 <= js_or a b < 2 ^ n.
Proof.
  intros Hn Ha Hb.
  assert (2 ^ n <= 2 ^ 31) by (apply Z.pow_le_mono_r; lia).
  unfold js_or. rewrite !to_int32_small by lia.
  split; [reflexivity | now apply lor_below_pow2].
Qed.

Lemma land_pow2 (x k : Z) :
  0 <= k -> Z.land x (2 ^ k) = if Z.testbit x k then 2 ^ k else 0.
Proof.
  intros Hk. apply Z.bits_inj'. intros m Hm.
  rewrite Z.land_spec, Z.pow2_bits_eqb by lia.
  destruct (Z.eqb_spec k m) as [->|Hne].
  - destruct (Z.testbit x m); simpl.
    + rewrite Z.pow2_bits_eqb, Z.eqb_refl by lia. reflexivity.
    + now rewrite Z.bits_0.
  - rewrite andb_false_r. destruct (Z.testbit x k).
    + rewrite Z.pow2_bits_eqb by lia. symmetry. now apply Z.eqb_neq.
    + now rewrite Z.bits_0.
Qed.

Lemma js_and_bit (x k : Z) :
  0 <= x < 2 ^ 31 -> 0 <= k < 31 ->
  (js_and x (2 ^ k) =? 0) = negb (Z.testbit x k).
Proof.
  intros Hx Hk.
  assert (0 < 2 ^ k < 2 ^ 31).
  { split; [apply Z.pow_pos_nonneg; lia | apply Z.pow_lt_mono_r; lia]. }
  unfold js_and. rewrite !to_int32_small by lia.
  rewrite land_pow2 by lia.
  destruct (Z.testbit x k); simpl; [apply Z.eqb_neq; lia | reflexivity].
Qed.

Lemma byte_of_Z_some (n : Z) :
  0 <= n <= 255 -> exists b, byte_of_Z n = Some b /\ Z_of_byte b = n.
Proof.
  intros Hn. unfold byte_of_Z, Z_of_byte.
  destruct (Byte.of_N (Z.to_N n)) as [b|] eqn:E.
  - exists b. split; auto. apply Byte.to_of_N in E. lia.
  - apply Byte.of_N_None_iff in E. lia.
Qed.

Lemma writeUInt8_byte (w : BufferWriter) (n : Z) :
  0 <= n <= 255 ->
  exists b, writeUInt8 w n = Ret (w ++ [b]) /\ Z_of_byte b = n.
Proof.
  intros Hn. destruct (byte_of_Z_some n Hn) as [b [Hb Hz]].
  exists b. unfold writeUInt8. rewrite Hb.
  replace ((0 <=? n) && (n <=? 255)) with true; auto.
  symmetry. apply andb_true_iff. split; apply Z.leb_le; lia.
Qed.

Lemma actualFlags_bits (flags : Z) (contentRoot controller : option Buffer) :
  0 <= flags < 256 ->
  let f := actualFlags flags contentRoot controller in
  0 <= f < 256
  /\ Z.testbit f 0
     = Z.testbit flags 0 || given contentRoot
  /\ Z.testbit f 1
     = Z.testbit flags 1 || given controller
  /\ Z.testbit f 7 = Z.testbit flags 7.
Proof.
  intros Hf. unfold actualFlags. cbv zeta.
  change EnvelopeFlags.HAS_CONTENT_ROOT with 1.
  change EnvelopeFlags.HAS_CONTROLLER with 2.
  change 256 with (2 ^ 8) in *.
  destruct contentRoot as [C|]; destruct controller as [K|];
    repeat match goal with
    | |- context [js_or ?a ?b] =>
        let E := fresh "E" in let B := fresh "B" in
        destruct (js_or_small 8 a b) as [E B]; [lia | lia | lia |];
        rewrite E in *; clear E
    end;
    repeat split; try lia; rewrite ?Z.lor_spec;
    try reflexivity;
    rewrite ?orb_false_r; try reflexivity.
Qed.

Lemma encodeCommitEnvelope_bytes (H : Buffer) (flags : option Z)
  (contentRoot controller : option Buffer) :
  len H = 32 -> 0 <= flags_or_default flags < 256 ->
  exists b,
    Z_of_byte b = actualFlags (flags_or_default flags) contentRoot controller
    /\ encodeCommitEnvelope
         (CommitOptions.mk (Some H) flags contentRoot controller)
       = Ret (GLYPH_MAGIC ++ [x02; b] ++ H ++ optional_bytes contentRoot
              ++ optional_bytes controller).
Proof.
  intros HH Hf.
  destruct (actualFlags_bits (flags_or_default flags) contentRoot controller
              Hf) as [Hb _].
  unfold encodeCommitEnvelope.
  cbn [CommitOptions.commitHash CommitOptions.flags CommitOptions.contentRoot
       CommitOptions.controller].
  rewrite HH. cbn [Z.eqb Pos.eqb negb].
  unfold new_BufferWriter, write, toBuffer. cbn [app].
  change (writeUInt8 GLYPH_MAGIC GlyphVersion.V2)
    with (@Ret BufferWriter (GLYPH_MAGIC ++ [x02])).
  cbn [bind].
  fold (flags_or_default flags).
  fold (actualFlags (flags_or_default flags) contentRoot controller).
  destruct (writeUInt8_byte (GLYPH_MAGIC ++ [x02])
              (actualFlags (flags_or_default flags) contentRoot controller))
    as [b [Hw Hz]];
    [lia|].
  exists b. split; [exact Hz|].
  rewrite Hw. cbn [bind].
  destruct contentRoot, controller; cbn [optional_bytes];
    rewrite <- ?app_assoc, ?app_nil_r; reflexivity.
Qed.

Lemma testbit_below (x k : Z) : 0 <= x < 2 ^ k -> Z.testbit x k = false.
Proof.
  intros Hx. destruct (Z.eq_dec x 0) as [->|Hne]; [apply Z.bits_0|].
  destruct (Z.le_gt_cases 0 k) as [Hk|Hk].
  - apply Z.bits_above_log2; [lia|]. apply Z.log2_lt_pow2; lia.
  - now apply Z.testbit_neg_r.
Qed.

Lemma testbit_7_of_byte (x : Z) : 128 <= x < 256 -> Z.testbit x 7 = true.
Proof.
  intros Hx. apply Z.testbit_true; [lia|].
  change (2 ^ 7) with 128.
  assert (x / 128 = 1) by (symmetry; apply (Z.div_unique x 128 1 (x - 128)); lia).
  now rewrite H.
Qed.

Lemma decodeEnvelope_header (Buffer_toString_utf8 : Buffer -> string)
  (JSON_parse : string -> outcome value) (pre body : Buffer) (b : byte) :
  indexOf (pre ++ GLYPH_MAGIC ++ [x02; b] ++ body) GLYPH_MAGIC = len pre ->
  0 <= Z_of_byte b < 256 ->
  decodeEnvelope Buffer_toString_utf8 JSON_parse
    (pre ++ GLYPH_MAGIC ++ [x02; b] ++ body)
  = if Z.testbit (Z_of_byte b) 7
    then try_catch
           (e <- decodeRevealEnvelope Buffer_toString_utf8 JSON_parse body 2
                   (Z_of_byte b) ;; Ret (Some e))
           (fun _ => Ret None)
    else try_catch
           (e <- decodeCommitEnvelope body 2 (Z_of_byte b) ;; Ret (Some e))
           (fun _ => Ret None).
Proof.
  intros Hindex Hb. unfold decodeEnvelope. rewrite Hindex.
  destruct (Z.eqb_spec (len pre) (-1)) as [Hneg|_]; [unfold len in Hneg; lia|].
  rewrite slice_from_app.
  change (GLYPH_MAGIC ++ [x02; b] ++ body) with (x67 :: x6c :: x79 :: x02 :: b :: body).
  unfold new_BufferReader. rewrite read_magic. cbn [bind readUInt8].
  change (negb (Z_of_byte x02 =? GlyphVersion.V1)
          && negb (Z_of_byte x02 =? GlyphVersion.V2)) with false.
  cbv iota.
  change EnvelopeFlags.IS_REVEAL with (2 ^ 7).
  rewrite js_and_bit by lia.
  change (Z_of_byte x02) with 2.
  destruct (Z.testbit (Z_of_byte b) 7); reflexivity.
Qed.

Lemma decodeCommitEnvelope_fields (H : Buffer) (flags : Z)
  (contentRoot controller : option Buffer) (extra : Buffer) :
  len H = 32 -> 0 <= flags < 256 ->
  optional_len contentRoot 32 -> optional_len controller 36 ->
  Z.testbit flags 0 = given contentRoot ->
  Z.testbit flags 1 = given controller ->
  decodeCommitEnvelope
    (H ++ optional_bytes contentRoot ++ optional_bytes controller ++ extra)
    2 flags
  = Ret (CommitEnvelope (Commit.mk 2 flags H contentRoot controller)).
Proof.
  intros HH Hf HC HK H0 H1. unfold decodeCommitEnvelope.
  rewrite (read_app H _ 32) by now apply len_length. cbn [bind].
  change EnvelopeFlags.HAS_CONTENT_ROOT with (2 ^ 0).
  change EnvelopeFlags.HAS_CONTROLLER with (2 ^ 1).
  rewrite !js_and_bit by lia. rewrite H0, H1.
  destruct contentRoot as [C|]; destruct controller as [K|];
    cbn [given negb optional_bytes optional_len app bind] in *;
    try rewrite (read_app C _ 32) by (now apply len_length);
    cbn [bind];
    try rewrite (read_app K _ 36) by (now apply len_length);
    cbn [bind]; reflexivity.
Qed.

(** X11: a commit envelope round-trips for every choice of the caller's flags
    without the reveal bit, with or without each optional field, at any place
    in a script where its magic is the first one, and whatever bytes follow
    it: [decodeEnvelope] returns the hash and the optional fields given, and
    the flags with the bits of those fields set. (The flags may set bit 0 or
    bit 1 only when the field is given.) *)
Theorem commit_envelope_roundtrip_in_script
  (Buffer_toString_utf8 : Buffer -> string)
  (JSON_parse : string -> outcome value) (H : Buffer) (flags : option Z)
  (contentRoot controller : option Buffer) (pre extra : Buffer) :
  len H = 32 ->
  0 <= flags_or_default flags < 128 ->
  optional_len contentRoot 32 -> optional_len controller 36 ->
  (Z.testbit (flags_or_default flags) 0 = true -> given contentRoot = true) ->
  (Z.testbit (flags_or_default flags) 1 = true -> given controller = true) ->
  exists bytes,
    encodeCommitEnvelope (CommitOptions.mk (Some H) flags contentRoot controller)
    = Ret bytes
    /\ (indexOf (pre ++ bytes ++ extra) GLYPH_MAGIC = len pre ->
        decodeEnvelope Buffer_toString_utf8 JSON_parse (pre ++ bytes ++ extra)
        = Ret (Some (CommitEnvelope
                       (Commit.mk 2
                          (actualFlags (flags_or_default flags) contentRoot
                             controller)
                          H contentRoot controller)))).
Proof.
  intros HH Hf HC HK H0 H1.
  destruct (encodeCommitEnvelope_bytes H flags contentRoot controller HH)
    as [b [Hb Hbytes]]; [lia|].
  destruct (actualFlags_bits (flags_or_default flags) contentRoot controller)
    as [Hrange [B0 [B1 B7]]]; [lia|].
  eexists. split; [exact Hbytes|].
  rewrite <- !app_assoc. intros Hindex.
  rewrite (decodeEnvelope_header _ _ pre _ b Hindex) by (rewrite Hb; lia).
  rewrite Hb, B7, (testbit_below (flags_or_default flags) 7) by lia.
  rewrite decodeCommitEnvelope_fields; auto.
  - rewrite B0. destruct (given contentRoot) eqn:G; [apply orb_true_r|].
    rewrite orb_false_r.
    destruct (Z.testbit (flags_or_default flags) 0); auto.
    specialize (H0 eq_refl). congruence.
  - rewrite B1. destruct (given controller) eqn:G; [apply orb_true_r|].
    rewrite orb_false_r.
    destruct (Z.testbit (flags_or_default flags) 1); auto.
    specialize (H1 eq_refl). congruence.
Qed.

(** X12: [encodeCommitEnvelope] writes the caller's flags as they are: with
    bit 7 (the reveal bit) set in them, the commit envelope it returns is
    decoded as a reveal envelope, not as a commit envelope. *)
Theorem commit_envelope_with_reveal_bit
  (Buffer_toString_utf8 : Buffer -> string)
  (JSON_parse : string -> outcome value) (H : Buffer) (flags : Z)
  (contentRoot controller : option Buffer) :
  len H = 32 -> 128 <= flags < 256 ->
  exists bytes r,
    encodeCommitEnvelope
      (CommitOptions.mk (Some H) (Some flags) contentRoot controller)
    = Ret bytes
    /\ decodeEnvelope Buffer_toString_utf8 JSON_parse bytes
       = Ret (Some (RevealEnvelope r))
    /\ Reveal.version r = 2
    /\ Reveal.flags r = actualFlags flags contentRoot controller.
Proof.
  intros HH Hf.
  destruct (encodeCommitEnvelope_bytes H (Some flags) contentRoot controller HH)
    as [b [Hb Hbytes]]; [simpl; lia|].
  cbn [flags_or_default] in *.
  destruct (actualFlags_bits flags contentRoot controller)
    as [Hrange [_ [_ B7]]]; [lia|].
  eexists.
  pose proof (decodeEnvelope_header Buffer_toString_utf8 JSON_parse []
                (H ++ optional_bytes contentRoot ++ optional_bytes controller)
                b) as Hd.
  cbn [app] in Hd.
  rewrite Hb, B7, (testbit_7_of_byte flags Hf) in Hd.
  specialize (Hd eq_refl ltac:(lia)).
  unfold decodeRevealEnvelope, readAll in Hd.
  destruct (len (H ++ optional_bytes contentRoot ++ optional_bytes controller)
            >? 0).
  - unfold try_catch in Hd.
    destruct (JSON_parse _) as [m|e]; cbn [bind] in Hd;
      eexists; (split; [exact Hbytes|]); (split; [exact Hd|]);
      split; reflexivity.
  - cbn in Hd. eexists. split; [exact Hbytes|]. split; [exact Hd|].
    split; reflexivity.
Qed.

(** X13: [encodeCommitEnvelope] does not check the length of the content
    root: one of 32 bytes or more is written whole, and [decodeEnvelope] reads
    back its first 32 bytes, so that it round-trips only when it has exactly
    32 bytes. *)
Theorem commit_envelope_long_contentRoot
  (Buffer_toString_utf8 : Buffer -> string)
  (JSON_parse : string -> outcome value) (H C : Buffer) :
  len H = 32 -> 32 <= len C ->
  exists bytes,
    encodeCommitEnvelope (CommitOptions.mk (Some H) None (Some C) None)
    = Ret bytes
    /\ len bytes = 37 + len C
    /\ decodeEnvelope Buffer_toString_utf8 JSON_parse bytes
       = Ret (Some (CommitEnvelope
                      (Commit.mk 2 1 H (Some (firstn 32 C)) None)))
    /\ (firstn 32 C = C <-> len C = 32).
Proof.
  intros HH HC.
  destruct (encodeCommitEnvelope_bytes H None (Some C) None HH)
    as [b [Hb Hbytes]]; [simpl; lia|].
  change (actualFlags (flags_or_default None) (Some C) None) with 1 in Hb.
  cbn [optional_bytes] in Hbytes. rewrite app_nil_r in Hbytes.
  exists (GLYPH_MAGIC ++ [x02; b] ++ H ++ C).
  split; [exact Hbytes|]. split; [|split].
  - unfold len in *. rewrite !length_app.
    change (List.length GLYPH_MAGIC) with 3%nat.
    change (List.length [x02; b]) with 2%nat. lia.
  - pose proof (decodeEnvelope_header Buffer_toString_utf8 JSON_parse []
                  (H ++ C) b) as Hd.
    cbn [app] in Hd. cbn [app].
    rewrite Hd by (reflexivity || (rewrite Hb; lia)).
    rewrite Hb. change (Z.testbit 1 7) with false. cbv iota.
    unfold decodeCommitEnvelope.
    rewrite (read_app H _ 32) by now apply len_length. cbn [bind].
    change (negb (js_and 1 EnvelopeFlags.HAS_CONTENT_ROOT =? 0)) with true.
    change (negb (js_and 1 EnvelopeFlags.HAS_CONTROLLER =? 0)) with false.
    cbv iota. unfold read.
    replace (32 <=? List.length C)%nat with true
      by (symmetry; apply Nat.leb_le; unfold len in HC; lia).
    reflexivity.
  - unfold len in *. split.
    + intros E. pose proof (firstn_length_le C (n := 32)) as L.
      rewrite E in L. lia.
    + intros E. apply firstn_all2. lia.
Qed.

(** ** Reveal envelopes *)

Lemma decodeRevealEnvelope_body (Buffer_toString_utf8 : Buffer -> string)
  (JSON_parse : string -> outcome value) (body : Buffer) (version flags : Z) :
  decodeRevealEnvelope Buffer_toString_utf8 JSON_parse body version flags
  = Ret (RevealEnvelope
           (reveal_of_body Buffer_toString_utf8 JSON_parse version flags body)).
Proof.
  unfold decodeRevealEnvelope, reveal_of_body, decodeMetadata, readAll.
  destruct (len body >? 0); [|reflexivity].
  unfold try_catch. destruct (JSON_parse _); reflexivity.
Qed.

Lemma encodeRevealEnvelope_chunks (JSON_stringify : value -> string)
  (metadata metadata' : metadata_arg) (files : option (list Buffer))
  (chunks : list Buffer) :
  encodeRevealEnvelope JSON_stringify (RevealOptions.mk metadata files)
  = (metadata', Ret chunks) ->
  chunks = (GLYPH_MAGIC ++ [x02; x80])
           :: snd (metadataBytes_of JSON_stringify metadata)
           :: match files with Some f => f | None => [] end.
Proof.
  unfold encodeRevealEnvelope.
  cbn [RevealOptions.metadata RevealOptions.files].
  destruct (metadataBytes_of JSON_stringify metadata) as [m bytes].
  cbn [snd].
  destruct (len bytes >? GlyphLimits.MAX_METADATA_SIZE); [discriminate|].
  rewrite push_files_spec.
  destruct (existsb _ _); [discriminate|].
  intros [= _ <-]. reflexivity.
Qed.

(** X14: decoding the concatenation of the chunks of a style A reveal
    envelope returns a reveal envelope of version 2 with flags 0x80 and no
    files. Its metadata is what [JSON.parse] makes of all the bytes after the
    header, the metadata chunk and the file chunks together; when they do not
    parse, they are kept as [rawMetadata]. *)
Theorem reveal_envelope_roundtrip (JSON_stringify : value -> string)
  (Buffer_toString_utf8 : Buffer -> string)
  (JSON_parse : string -> outcome value)
  (metadata metadata' : metadata_arg) (files : option (list Buffer))
  (chunks : list Buffer) :
  encodeRevealEnvelope JSON_stringify (RevealOptions.mk metadata files)
  = (metadata', Ret chunks) ->
  let body :=
    snd (metadataBytes_of JSON_stringify metadata)
    ++ List.concat match files with Some f => f | None => [] end in
  decodeEnvelope Buffer_toString_utf8 JSON_parse (List.concat chunks)
  = Ret (Some (RevealEnvelope
                 (reveal_of_body Buffer_toString_utf8 JSON_parse 2 128 body))).
Proof.
  intros Henc body. apply encodeRevealEnvelope_chunks in Henc. subst chunks.
  cbn [List.concat]. rewrite <- app_assoc.
  pose proof (decodeEnvelope_header Buffer_toString_utf8 JSON_parse [] body
                x80) as Hd.
  subst body. cbn [app] in Hd. cbn [app].
  refine (eq_trans (Hd eq_refl _) _); [vm_compute; split; congruence|].
  change (Z.testbit (Z_of_byte x80) 7) with true. cbv iota.
  rewrite decodeRevealEnvelope_body. reflexivity.
Qed.

Lemma decodeEnvelope_unknown_version (Buffer_toString_utf8 : Buffer -> string)
  (JSON_parse : string -> outcome value) (pre rest : Buffer) :
  indexOf (pre ++ GLYPH_MAGIC ++ rest) GLYPH_MAGIC = len pre ->
  truncated_or_unknown_version rest ->
  decodeEnvelope Buffer_toString_utf8 JSON_parse (pre ++ GLYPH_MAGIC ++ rest)
  = Ret None.
Proof.
  intros Hfirst Hrest. unfold decodeEnvelope. rewrite Hfirst.
  destruct (Z.eqb_spec (len pre) (-1)) as [Hneg|_]; [unfold len in Hneg; lia|].
  rewrite slice_from_app.
  change (GLYPH_MAGIC ++ rest) with (x67 :: x6c :: x79 :: rest).
  unfold new_BufferReader. rewrite read_magic. cbn [bind].
  destruct rest as [|version [|flags rest]]; cbn -[Z.eqb decodeRevealEnvelope
    decodeCommitEnvelope js_and].
  - reflexivity.
  - destruct (negb (Z_of_byte version =? GlyphVersion.V1)
              && negb (Z_of_byte version =? GlyphVersion.V2)); reflexivity.
  - destruct Hrest as [H1 H2].
    destruct (Z.eqb_spec (Z_of_byte version) GlyphVersion.V1); [contradiction|].
    destruct (Z.eqb_spec (Z_of_byte version) GlyphVersion.V2); [contradiction|].
    reflexivity.
Qed.

(** X15: the chunks of a style B reveal envelope are the magic, the metadata
    and the files, with no version and no flags: [decodeEnvelope] reads the
    first two metadata bytes in their place, and answers [null] on the
    concatenated chunks whenever the first metadata byte is neither 1 nor 2
    (as for every JSON text) or fewer than two bytes follow the magic. *)
Theorem reveal_envelope_B_not_decoded (JSON_stringify : value -> string)
  (Buffer_toString_utf8 : Buffer -> string)
  (JSON_parse : string -> outcome value)
  (metadata : metadata_arg) (files : option (list Buffer)) :
  let chunks :=
    snd (encodeRevealEnvelopeB JSON_stringify (RevealOptions.mk metadata files))
  in
  truncated_or_unknown_version
    (snd (metadataBytes_of JSON_stringify metadata)
     ++ List.concat match files with Some f => f | None => [] end) ->
  decodeEnvelope Buffer_toString_utf8 JSON_parse (List.concat chunks) = Ret None.
Proof.
  intros chunks Hbody. subst chunks. unfold encodeRevealEnvelopeB.
  cbn [RevealOptions.metadata RevealOptions.files].
  destruct (metadataBytes_of JSON_stringify metadata) as [m bytes].
  cbn [snd app List.concat] in *.
  apply (decodeEnvelope_unknown_version _ _ [] _ eq_refl Hbody).
Qed.

(** ** What a decoded envelope tells about the script *)

Lemma read_prefix (r : BufferReader) (n : nat) (b : Buffer)
  (r' : BufferReader) :
  read r n = Ret (b, r') -> r = b ++ r'.
Proof.
  unfold read. destruct (n <=? List.length r)%nat; [|discriminate].
  intros [= <- <-]. symmetry. apply firstn_skipn.
Qed.

Lemma decodeCommitEnvelope_prefix (reader : BufferReader) (version flags : Z)
  (e : envelope) :
  0 <= flags < 256 ->
  decodeCommitEnvelope reader version flags = Ret e ->
  exists c tail,
    e = CommitEnvelope c
    /\ Commit.version c = version /\ Commit.flags c = flags
    /\ given (Commit.contentRoot c) = Z.testbit flags 0
    /\ given (Commit.controller c) = Z.testbit flags 1
    /\ reader = Commit.commitHash c ++ optional_bytes (Commit.contentRoot c)
                ++ optional_bytes (Commit.controller c) ++ tail.
Proof.
  intros Hf. unfold decodeCommitEnvelope.
  change EnvelopeFlags.HAS_CONTENT_ROOT with (2 ^ 0).
  change EnvelopeFlags.HAS_CONTROLLER with (2 ^ 1).
  rewrite !js_and_bit by lia. rewrite !negb_involutive.
  destruct (read reader 32) as [[H r1]|ex] eqn:E1; cbn [bind]; [|discriminate].
  apply read_prefix in E1. subst reader.
  destruct (Z.testbit flags 0); destruct (Z.testbit flags 1); cbn [bind].
  - destruct (read r1 32) as [[C r2]|ex] eqn:E2; cbn [bind]; [|discriminate].
    apply read_prefix in E2. subst r1.
    destruct (read r2 36) as [[K r3]|ex] eqn:E3; cbn [bind]; [|discriminate].
    apply read_prefix in E3. subst r2.
    intros [= <-]. do 2 eexists. repeat split.
  - destruct (read r1 32) as [[C r2]|ex] eqn:E2; cbn [bind]; [|discriminate].
    apply read_prefix in E2. subst r1.
    intros [= <-]. do 2 eexists. repeat split.
  - destruct (read r1 36) as [[K r3]|ex] eqn:E3; cbn [bind]; [|discriminate].
    apply read_prefix in E3. subst r1.
    intros [= <-]. do 2 eexists. repeat split.
  - intros [= <-]. do 2 eexists. repeat split.
Qed.

(** X16: an envelope that [decodeEnvelope] returns was read at the first
    occurrence of the magic: the two bytes after it are the version, 1 or 2,
    and the flags; bit 7 of the flags tells a reveal from a commit envelope.
    A commit envelope has a content root exactly when bit 0 is set and a
    controller exactly when bit 1 is set, and its hash and optional fields
    are the bytes after the header, in this order. A reveal envelope is made
    of all the bytes after the header. *)
Theorem decodeEnvelope_invariants (Buffer_toString_utf8 : Buffer -> string)
  (JSON_parse : string -> outcome value) (buf : Buffer) (e : envelope) :
  decodeEnvelope Buffer_toString_utf8 JSON_parse buf = Ret (Some e) ->
  exists pre v f rest,
    buf = pre ++ GLYPH_MAGIC ++ [v; f] ++ rest
    /\ indexOf buf GLYPH_MAGIC = len pre
    /\ (Z_of_byte v = 1 \/ Z_of_byte v = 2)
    /\ isReveal e = Z.testbit (Z_of_byte f) 7
    /\ match e with
       | CommitEnvelope c =>
           Commit.version c = Z_of_byte v
           /\ Commit.flags c = Z_of_byte f
           /\ given (Commit.contentRoot c) = Z.testbit (Z_of_byte f) 0
           /\ given (Commit.controller c) = Z.testbit (Z_of_byte f) 1
           /\ exists tail,
                rest = Commit.commitHash c
                       ++ optional_bytes (Commit.contentRoot c)
                       ++ optional_bytes (Commit.controller c) ++ tail
       | RevealEnvelope r =>
           r = reveal_of_body Buffer_toString_utf8 JSON_parse
                 (Z_of_byte v) (Z_of_byte f) rest
       end.
Proof.
  intros Hdec.
  pose proof (decodeEnvelope_Some_found _ _ _ _ Hdec) as Hfound.
  destruct (indexOf_found buf Hfound) as [pre [rest0 [-> Hindex]]].
  unfold decodeEnvelope in Hdec. rewrite Hindex in Hdec.
  destruct (Z.eqb_spec (len pre) (-1)) as [Hneg|_]; [unfold len in Hneg; lia|].
  rewrite slice_from_app in Hdec.
  change (GLYPH_MAGIC ++ rest0) with (x67 :: x6c :: x79 :: rest0) in Hdec.
  unfold new_BufferReader in Hdec. rewrite read_magic in Hdec.
  cbn [bind] in Hdec.
  destruct rest0 as [|v [|f rest]]; cbn [readUInt8 bind try_catch] in Hdec;
    try discriminate.
  { destruct (negb (Z_of_byte v =? GlyphVersion.V1)
              && negb (Z_of_byte v =? GlyphVersion.V2)); discriminate. }
  pose proof (Z_of_byte_range f) as Hf.
  exists pre, v, f, rest. split; [reflexivity|]. split; [exact Hindex|].
  unfold GlyphVersion.V1, GlyphVersion.V2 in Hdec.
  destruct (Z.eqb_spec (Z_of_byte v) 1) as [H1|H1];
    destruct (Z.eqb_spec (Z_of_byte v) 2) as [H2|H2];
    cbn [negb andb] in Hdec; try discriminate;
    (split; [auto|]);
    change EnvelopeFlags.IS_REVEAL with (2 ^ 7) in Hdec;
    rewrite js_and_bit, negb_involutive in Hdec by lia;
    (destruct (Z.testbit (Z_of_byte f) 7);
     [ rewrite decodeRevealEnvelope_body in Hdec; cbn in Hdec;
       injection Hdec as <-; split; reflexivity
     | unfold try_catch in Hdec;
       destruct (decodeCommitEnvelope rest (Z_of_byte v) (Z_of_byte f))
         as [e'|ex] eqn:E; cbn [bind] in Hdec; [|discriminate];
       injection Hdec as <-;
       destruct (decodeCommitEnvelope_prefix _ _ _ _ Hf E)
         as [c [tail [-> [Hv [Hfl [H0 [H1' Hrest]]]]]]];
       split; [reflexivity|]; repeat split; eauto ]).
Qed.

(** ** Glyph transactions *)

Lemma parse_outputs_skip (Buffer_toString_utf8 : Buffer -> string)
  (JSON_parse : string -> outcome value) (before rest : list Buffer) (i : Z) :
  Forall (no_envelope Buffer_toString_utf8 JSON_parse) before ->
  parse_outputs Buffer_toString_utf8 JSON_parse (before ++ rest) i
  = parse_outputs Buffer_toString_utf8 JSON_parse rest (i + len before).
Proof.
  intros Hall. revert i.
  induction Hall as [|script before Hs Hall IH]; intros i; simpl.
  - unfold len. simpl. now rewrite Z.add_0_r.
  - rewrite Hs. cbn [bind]. rewrite IH. f_equal. unfold len. simpl. lia.
Qed.

Lemma parse_inputs_skip (Buffer_toString_utf8 : Buffer -> string)
  (JSON_parse : string -> outcome value) (before rest : list (option Buffer))
  (i : Z) :
  Forall (no_reveal Buffer_toString_utf8 JSON_parse) before ->
  parse_inputs Buffer_toString_utf8 JSON_parse (before ++ rest) i
  = parse_inputs Buffer_toString_utf8 JSON_parse rest (i + len before).
Proof.
  intros Hall. revert i.
  induction Hall as [|input before Hs Hall IH]; intros i; simpl.
  - unfold len. simpl. now rewrite Z.add_0_r.
  - assert (Hlen : i + 1 + len before = i + len (input :: before))
      by (unfold len; simpl; lia).
    destruct input as [script|]; [|now rewrite IH, Hlen].
    destruct Hs as [Hs|[c Hs]]; rewrite Hs; cbn [bind isReveal];
      now rewrite IH, Hlen.
Qed.

Lemma parse_outputs_returns (Buffer_toString_utf8 : Buffer -> string)
  (JSON_parse : string -> outcome value) (outputs : list Buffer) (i : Z) :
  exists result,
    parse_outputs Buffer_toString_utf8 JSON_parse outputs i = Ret result
    /\ match result with
       | Some parsed =>
           exists script,
             In script outputs
             /\ decodeEnvelope Buffer_toString_utf8 JSON_parse script
                = Ret (Some (Parsed.envelope parsed))
       | None => True
       end.
Proof.
  revert i. induction outputs as [|script outputs IH]; intros i; simpl.
  - eexists. split; [reflexivity | exact I].
  - destruct (decodeEnvelope_returns Buffer_toString_utf8 JSON_parse script)
      as [[e|] He]; rewrite He; cbn [bind].
    + eexists. split; [reflexivity|]. exists script. auto.
    + destruct (IH (i + 1)) as [result [Hr Hm]]. exists result.
      split; [exact Hr|]. destruct result; auto.
      destruct Hm as [s [Hin Hs]]. exists s. auto.
Qed.

Lemma parse_inputs_returns (Buffer_toString_utf8 : Buffer -> string)
  (JSON_parse : string -> outcome value) (inputs : list (option Buffer))
  (i : Z) :
  exists result,
    parse_inputs Buffer_toString_utf8 JSON_parse inputs i = Ret result
    /\ match result with
       | Some parsed =>
           exists script,
             In (Some script) inputs
             /\ decodeEnvelope Buffer_toString_utf8 JSON_parse script
                = Ret (Some (Parsed.envelope parsed))
       | None => True
       end.
Proof.
  revert i. induction inputs as [|input inputs IH]; intros i; simpl.
  - eexists. split; [reflexivity | exact I].
  - assert (Hrest : exists result,
               parse_inputs Buffer_toString_utf8 JSON_parse inputs (i + 1)
               = Ret result
               /\ match result with
                  | Some parsed =>
                      exists script,
                        (input = Some script \/ In (Some script) inputs)
                        /\ decodeEnvelope Buffer_toString_utf8 JSON_parse script
                           = Ret (Some (Parsed.envelope parsed))
                  | None => True
                  end).
    { destruct (IH (i + 1)) as [result [Hr Hm]]. exists result.
      split; [exact Hr|]. destruct result; auto.
      destruct Hm as [s [Hin Hs]]. exists s. auto. }
    destruct input as [script|]; [|exact Hrest].
    destruct (decodeEnvelope_returns Buffer_toString_utf8 JSON_parse script)
      as [[e|] He]; rewrite He; cbn [bind]; [|exact Hrest].
    destruct (isReveal e); [|exact Hrest].
    eexists. split; [reflexivity|]. exists script. auto.
Qed.

(** X17: [parseGlyphTransaction] never throws, and it returns the first
    match: the first output whose script holds an envelope, of either kind,
    with its position and its kind; when no output holds one, the first input
    whose script holds a reveal envelope; and [null] when there is neither.
    Inputs without a script and inputs that hold a commit envelope are passed
    over. *)
Theorem parseGlyphTransaction_first_match
  (Buffer_toString_utf8 : Buffer -> string)
  (JSON_parse : string -> outcome value) (tx : Transaction.t) :
  let decode := decodeEnvelope Buffer_toString_utf8 JSON_parse in
  let parse := parseGlyphTransaction Buffer_toString_utf8 JSON_parse in
  let no_envelope := no_envelope Buffer_toString_utf8 JSON_parse in
  let no_reveal := no_reveal Buffer_toString_utf8 JSON_parse in
  (exists result, parse tx = Ret result)
  /\ (forall before script after e,
        Transaction.outputs tx = before ++ script :: after ->
        Forall no_envelope before ->
        decode script = Ret (Some e) ->
        parse tx
        = Ret (Some (Parsed.mk (if isReveal e then "reveal" else "commit")
                               (Parsed.outputIndex (len before)) e)))
  /\ (forall before script after e,
        Forall no_envelope (Transaction.outputs tx) ->
        Transaction.inputs tx = before ++ Some script :: after ->
        Forall no_reveal before ->
        decode script = Ret (Some e) -> isReveal e = true ->
        parse tx
        = Ret (Some (Parsed.mk "reveal" (Parsed.inputIndex (len before)) e)))
  /\ (Forall no_envelope (Transaction.outputs tx) ->
      Forall no_reveal (Transaction.inputs tx) ->
      parse tx = Ret None).
Proof.
  cbv zeta. unfold parseGlyphTransaction.
  assert (Hnone : forall outputs,
             Forall (no_envelope Buffer_toString_utf8 JSON_parse) outputs ->
             parse_outputs Buffer_toString_utf8 JSON_parse outputs 0
             = Ret None).
  { intros outputs Hall.
    rewrite <- (app_nil_r outputs), (parse_outputs_skip _ _ _ _ _ Hall).
    reflexivity. }
  split; [|split; [|split]].
  - destruct (parse_outputs_returns Buffer_toString_utf8 JSON_parse
                (Transaction.outputs tx) 0) as [[p|] [Hr _]];
      rewrite Hr; cbn [bind]; [eauto|].
    destruct (parse_inputs_returns Buffer_toString_utf8 JSON_parse
                (Transaction.inputs tx) 0) as [r [Hr' _]]. eauto.
  - intros before script after e Hout Hbefore Hscript.
    rewrite Hout, (parse_outputs_skip _ _ _ _ _ Hbefore).
    cbn [parse_outputs]. rewrite Hscript. reflexivity.
  - intros before script after e Hout Hin Hbefore Hscript Hreveal.
    rewrite (Hnone _ Hout). cbn [bind].
    rewrite Hin, (parse_inputs_skip _ _ _ _ _ Hbefore).
    cbn [parse_inputs]. rewrite Hscript. cbn [bind]. rewrite Hreveal.
    reflexivity.
  - intros Hout Hin. rewrite (Hnone _ Hout). cbn [bind].
    rewrite <- (app_nil_r (Transaction.inputs tx)),
      (parse_inputs_skip _ _ _ _ _ Hin).
    reflexivity.
Qed.

(** X18: whatever [parseGlyphTransaction] finds, [isGlyphTransaction]
    announces: a transaction from which [parseGlyphTransaction] returns a
    result is one on which [isGlyphTransaction] answers [true]. *)
Theorem parseGlyphTransaction_isGlyphTransaction
  (Buffer_toString_utf8 : Buffer -> string)
  (JSON_parse : string -> outcome value) (tx : Transaction.t)
  (parsed : Parsed.t) :
  parseGlyphTransaction Buffer_toString_utf8 JSON_parse tx = Ret (Some parsed) ->
  isGlyphTransaction tx = true.
Proof.
  unfold parseGlyphTransaction, isGlyphTransaction.
  destruct (parse_outputs_returns Buffer_toString_utf8 JSON_parse
              (Transaction.outputs tx) 0) as [[p|] [Hr Hm]];
    rewrite Hr; cbn [bind].
  - intros _. destruct Hm as [script [Hin Hs]].
    replace (existsb containsGlyphMagic (Transaction.outputs tx)) with true;
      [reflexivity|].
    symmetry. apply existsb_exists. exists script. split; auto.
    apply containsGlyphMagic_found. eapply decodeEnvelope_Some_found. eauto.
  - destruct (parse_inputs_returns Buffer_toString_utf8 JSON_parse
                (Transaction.inputs tx) 0) as [[p|] [Hr' Hm']];
      rewrite Hr'; [|discriminate].
    intros _. destruct Hm' as [script [Hin Hs]].
    destruct (existsb containsGlyphMagic (Transaction.outputs tx));
      [reflexivity|].
    match goal with
    | |- (if ?b then true else false) = true => replace b with true;
                                                  [reflexivity|]
    end.
    symmetry. apply existsb_exists. exists (Some script). split; auto.
    apply containsGlyphMagic_found. eapply decodeEnvelope_Some_found. eauto.
Qed.

(** ** Canonical form of any object *)

Lemma keys_insert_index (props : object) (key : string) (n : N) (v : value) :
  Permutation (Object_keys (insert_index props key n v))
              (key :: Object_keys props).
Proof.
  induction props as [|[k x] rest IH]; simpl; auto.
  destruct (array_index k) as [m|]; [|reflexivity].
  destruct (m <? n)%N; [|reflexivity].
  simpl. rewrite IH. apply perm_swap.
Qed.

Lemma lookup_insert_index_same (props : object) (key : string) (n : N)
  (v : value) :
  has_own props key = false -> lookup (insert_index props key n v) key = v.
Proof.
  induction props as [|[k x] rest IH]; simpl; intros Hown.
  - now rewrite String.eqb_refl.
  - apply orb_false_iff in Hown. destruct Hown as [Hk Hrest].
    destruct (array_index k) as [m|];
      [destruct (m <? n)%N|]; simpl; rewrite ?String.eqb_refl; auto.
    rewrite Hk. auto.
Qed.

Lemma lookup_insert_index_other (props : object) (key k' : string) (n : N)
  (v : value) :
  k' <> key -> lookup (insert_index props key n v) k' = lookup props k'.
Proof.
  intros Hne.
  assert (Hk : (key =? k')%string = false) by (apply String.eqb_neq; congruence).
  induction props as [|[k x] rest IH]; simpl.
  - now rewrite Hk.
  - destruct (array_index k) as [m|];
      [destruct (m <? n)%N|]; simpl; rewrite ?Hk; auto.
    rewrite IH. reflexivity.
Qed.

Lemma keys_obj_set (props : object) (key : string) (v : value) :
  key <> "__proto__" ->
  Permutation (Object_keys (obj_set props key v))
              (if has_own props key then Object_keys props
               else key :: Object_keys props).
Proof.
  intros Hproto. unfold obj_set.
  destruct (has_own props key); [now rewrite keys_replace_own|].
  destruct (String.eqb_spec key "__proto__") as [|_]; [contradiction|].
  destruct (array_index key) as [n|].
  - apply keys_insert_index.
  - unfold Object_keys. rewrite map_app. simpl.
    symmetry. apply Permutation_cons_append.
Qed.

Lemma obj_set_lookup_same (props : object) (key : string) (v : value) :
  key <> "__proto__" -> lookup (obj_set props key v) key = v.
Proof.
  intros Hproto. unfold obj_set.
  destruct (has_own props key) eqn:E; [now apply lookup_replace_own_same|].
  destruct (String.eqb_spec key "__proto__") as [|_]; [contradiction|].
  destruct (array_index key) as [n|].
  - now apply lookup_insert_index_same.
  - rewrite lookup_app, E. simpl. now rewrite String.eqb_refl.
Qed.

Lemma obj_set_lookup_other (props : object) (key k' : string) (v : value) :
  k' <> key -> lookup (obj_set props key v) k' = lookup props k'.
Proof.
  intros Hne. unfold obj_set.
  destruct (has_own props key) eqn:E; [now apply lookup_replace_own_other|].
  destruct (key =? "__proto__")%string; [reflexivity|].
  destruct (array_index key) as [n|].
  - now apply lookup_insert_index_other.
  - rewrite lookup_app. simpl.
    destruct (String.eqb_spec key k'); [congruence|].
    destruct (has_own props k') eqn:E'; auto.
    symmetry. apply lookup_missing. now apply has_own_false.
Qed.

Lemma obj_set_proto (props : object) (v : value) :
  has_own props "__proto__" = false -> obj_set props "__proto__" v = props.
Proof. intros H. unfold obj_set. now rewrite H. Qed.

(** The object that a loop of assignments builds: its keys are those it had
    and those assigned, without ["__proto__"], and each assigned key holds the
    value assigned. *)
Lemma fold_obj_set_spec (f : string -> value) (keys : list string)
  (acc : object) :
  NoDup (Object_keys acc) -> ~ In "__proto__" (Object_keys acc) ->
  let result :=
    fold_left (fun result key => obj_set result key (f key)) keys acc in
  NoDup (Object_keys result)
  /\ ~ In "__proto__" (Object_keys result)
  /\ (forall k, In k (Object_keys result) <->
                In k (Object_keys acc) \/ (In k keys /\ k <> "__proto__"))
  /\ (forall k, In k keys -> k <> "__proto__" -> lookup result k = f k)
  /\ (forall k, ~ In k keys -> lookup result k = lookup acc k).
Proof.
  revert acc.
  induction keys as [|key keys IH]; intros acc Hnd Hproto; cbn [fold_left].
  - cbv zeta. repeat split; auto; try tauto.
    + intros [H|[[] _]]. exact H.
    + intros k [].
  - destruct (String.eqb_spec key "__proto__") as [->|Hkey].
    + rewrite obj_set_proto
        by (destruct (has_own acc "__proto__") eqn:E; auto;
            apply has_own_In in E; contradiction).
      destruct (IH acc Hnd Hproto) as [H1 [H2 [H3 [H4 H5]]]].
      cbv zeta. repeat split; auto.
      * intros H. apply H3 in H. simpl. tauto.
      * intros [H|[[<-|H] Hne]]; apply H3; auto. contradiction.
      * intros k [<-|Hk] Hne; [contradiction | auto].
      * intros k Hk. apply H5. intros H. apply Hk. now right.
    + pose proof (keys_obj_set acc key (f key) Hkey) as Hperm.
      assert (Hin : forall k, In k (Object_keys (obj_set acc key (f key)))
                              <-> k = key \/ In k (Object_keys acc)).
      { intros k. split.
        - intros H. apply (Permutation_in _ Hperm) in H.
          destruct (has_own acc key); [auto | destruct H; auto].
        - intros H. apply (Permutation_in _ (Permutation_sym Hperm)).
          destruct (has_own acc key) eqn:E.
          + destruct H as [->|H]; auto. now apply has_own_In.
          + destruct H as [->|H]; [now left | now right]. }
      assert (Hnd' : NoDup (Object_keys (obj_set acc key (f key)))).
      { apply (Permutation_NoDup (Permutation_sym Hperm)).
        destruct (has_own acc key) eqn:E; auto.
        constructor; auto. now apply has_own_false. }
      assert (Hproto' : ~ In "__proto__"
                            (Object_keys (obj_set acc key (f key)))).
      { intros H. apply Hin in H. destruct H as [H|H]; auto. }
      destruct (IH _ Hnd' Hproto') as [H1 [H2 [H3 [H4 H5]]]].
      cbv zeta. repeat split; auto.
      * intros H. apply H3 in H. rewrite Hin in H. simpl.
        destruct H as [[->|H]|[H Hne]]; auto.
      * intros H. apply H3. rewrite Hin. simpl in H.
        destruct H as [H|[[<-|H] Hne]]; auto.
      * intros k [<-|Hk] Hne.
        -- destruct (in_dec string_dec key keys) as [Hin'|Hout]; auto.
           rewrite H5 by assumption. now apply obj_set_lookup_same.
        -- auto.
      * intros k Hk. rewrite H5 by (intros H; apply Hk; now right).
        apply obj_set_lookup_other. intros ->. apply Hk. now left.
Qed.

Lemma canonicalizeObject_keys (props : object) :
  exists canonical,
    canonicalizeObject (VObj props) = VObj canonical
    /\ NoDup (Object_keys canonical)
    /\ ~ In "__proto__" (Object_keys canonical)
    /\ (forall k, In k (Object_keys canonical) <->
                  In k (Object_keys props) /\ k <> "__proto__")
    /\ (forall k, In k (Object_keys canonical) ->
                  lookup canonical k = canonicalizeObject (lookup props k)).
Proof.
  rewrite canonicalizeObject_object. eexists. split; [reflexivity|].
  destruct (fold_obj_set_spec
              (fun key => canonicalizeObject (lookup props key))
              (sort (Object_keys props)) [] (NoDup_nil _) (fun H => H))
    as [H1 [H2 [H3 [H4 H5]]]].
  assert (Hs : forall k, In k (sort (Object_keys props))
                         <-> In k (Object_keys props)).
  { intros k. split; apply Permutation_in;
      [symmetry|]; apply sort_perm. }
  repeat split; auto.
  - apply H3 in H. destruct H as [[]|[H _]]. now apply Hs.
  - apply H3 in H. destruct H as [[]|[_ H]]. exact H.
  - intros [H Hne]. apply H3. right. split; auto. now apply Hs.
  - intros k Hk. apply H3 in Hk. destruct Hk as [[]|[Hk Hne]]. now apply H4.
Qed.

Lemma canonicalizeObject_equivalent_input (v : value) :
  well_formed v -> equivalent (canonicalizeObject v) v.
Proof.
  induction v as [ | | | | |elems IH|props IH] using value_induction;
    intros Hwf; try (now constructor).
  - (* arrays *)
    inversion Hwf as [? Hprim|? Hall|]; subst; [contradiction|].
    simpl. constructor.
    rewrite Forall_forall in IH, Hall.
    assert (Hl : forall l, (forall x, In x l -> In x elems) ->
                           Forall2 equivalent (map canonicalizeObject l) l).
    { induction l as [|x l IHl]; intros Hsub; simpl; constructor.
      - apply IH; [|apply Hall]; apply Hsub; now left.
      - apply IHl. intros y Hy. apply Hsub. now right. }
    apply Hl. auto.
  - (* objects *)
    inversion Hwf as [? Hprim| |? Hnd Hproto Hall]; subst; [contradiction|].
    destruct (canonicalizeObject_keys props)
      as [canonical [-> [Hnd' [_ [Hkeys Hval]]]]].
    constructor; auto.
    + intros k. rewrite Hkeys. split; [tauto|]. intros H. split; auto.
      intros ->. contradiction.
    + intros k Hk. rewrite (Hval k Hk).
      apply Hkeys in Hk. destruct Hk as [Hk _].
      apply lookup_In in Hk.
      rewrite Forall_forall in IH, Hall.
      apply (IH _ Hk). apply (Hall _ Hk).
Qed.

(** X19: canonicalization changes nothing but the order of keys: on a
    metadata value whose objects have no ["__proto__"] key, the canonical
    form has the same keys with the same values at every depth, and arrays
    keep their elements in place. *)
Theorem canonicalizeObject_preserves_content (v : value) :
  well_formed v -> equivalent (canonicalizeObject v) v.
Proof. apply canonicalizeObject_equivalent_input. Qed.

(** X20: canonicalization is idempotent: the canonical form of a canonical
    form is that canonical form (on a metadata value whose objects have no
    ["__proto__"] key). *)
Theorem canonicalizeObject_idempotent (v : value) :
  well_formed v ->
  canonicalizeObject (canonicalizeObject v) = canonicalizeObject v.
Proof.
  intros Hwf. apply canonicalizeObject_equivalent.
  now apply canonicalizeObject_equivalent_input.
Qed.

(** X21: the canonical form of an object never has an own ["__proto__"] key
    and never has a key that the object does not have: an own ["__proto__"]
    property of the input (as [JSON.parse] creates one) is dropped, and every
    other key is kept with the canonical form of its value. *)
Theorem canonicalizeObject_drops_proto (props : object) :
  exists canonical,
    canonicalizeObject (VObj props) = VObj canonical
    /\ has_own canonical "__proto__" = false
    /\ (forall k, In k (Object_keys canonical) <->
                  In k (Object_keys props) /\ k <> "__proto__")
    /\ (forall k, In k (Object_keys canonical) ->
                  lookup canonical k = canonicalizeObject (lookup props k)).
Proof.
  destruct (canonicalizeObject_keys props)
    as [canonical [E [_ [Hproto [Hkeys Hval]]]]].
  exists canonical. repeat split; auto; try (now apply Hkeys).
  destruct (has_own canonical "__proto__") eqn:H; auto.
  apply has_own_In in H. contradiction.
Qed.

(** ** The commit hash and the reveal envelope *)

Lemma metadataBytes_of_again (JSON_stringify : value -> string)
  (metadata : metadata_arg) :
  metadataBytes_of JSON_stringify
    (fst (metadataBytes_of JSON_stringify metadata))
  = metadataBytes_of JSON_stringify metadata.
Proof.
  destruct metadata as [m|b]; [|reflexivity].
  unfold metadataBytes_of.
  pose proof (encodeMetadata_again JSON_stringify m) as H.
  destruct (encodeMetadata JSON_stringify m) as [m' bytes]. cbn [fst] in *.
  now rewrite H.
Qed.

(** X22: the commit hash of a metadata object is the digest of the metadata
    chunk of its reveal envelope, in style A and in style B, and in whichever
    order the hash and the envelope are computed: each call leaves the object
    with its [v] set, and a later call on that object yields the same
    bytes. *)
Theorem commit_hash_binds_reveal (JSON_stringify : value -> string)
  (sha256 : Buffer -> Buffer) (metadata metadata' : metadata_arg)
  (files : option (list Buffer)) (chunks : list Buffer) :
  encodeRevealEnvelope JSON_stringify (RevealOptions.mk metadata files)
  = (metadata', Ret chunks) ->
  let hashed := computeCommitHash JSON_stringify sha256 metadata in
  snd hashed = sha256 (nth 1 chunks [])
  /\ fst hashed = metadata'
  /\ computeCommitHash JSON_stringify sha256 metadata' = hashed
  /\ encodeRevealEnvelope JSON_stringify (RevealOptions.mk (fst hashed) files)
     = (metadata', Ret chunks)
  /\ nth 1 (snd (encodeRevealEnvelopeB JSON_stringify
                   (RevealOptions.mk metadata files))) []
     = nth 1 chunks [].
Proof.
  intros Henc.
  pose proof (encodeRevealEnvelope_chunks _ _ _ _ _ Henc) as Hchunks.
  pose proof (metadataBytes_of_again JSON_stringify metadata) as Hagain.
  unfold encodeRevealEnvelope, encodeRevealEnvelopeB, computeCommitHash in *.
  cbn [RevealOptions.metadata RevealOptions.files] in *.
  destruct (metadataBytes_of JSON_stringify metadata) as [m bytes] eqn:E.
  cbn [fst snd] in *. cbv zeta.
  assert (Hm : m = metadata').
  { destruct (len bytes >? GlyphLimits.MAX_METADATA_SIZE); congruence. }
  subst m. rewrite Hagain. cbn [fst snd].
  split; [now rewrite Hchunks|]. split; [reflexivity|].
  split; [reflexivity|]. split; [exact Henc|]. now rewrite Hchunks.
Qed.

(** X23: [encodeMetadata] is stable under its own mutation: a second call on
    the object that the first call left behind returns the same bytes and
    leaves the object as it is. *)
Theorem encodeMetadata_stable (JSON_stringify : value -> string)
  (metadata : object) :
  let first := encodeMetadata JSON_stringify metadata in
  encodeMetadata JSON_stringify (fst first) = first.
Proof.
  cbv zeta. rewrite encodeMetadata_again.
  unfold encodeMetadata. reflexivity.
Qed.

(** ** The order of the keys of a canonical object *)

Lemma index_first_tail (k : string) (l : list string) :
  index_first (k :: l) -> index_first l.
Proof.
  intros [idx [oth [E [Hi [Ho Hs]]]]].
  destruct idx as [|i idx]; simpl in E.
  - subst oth. inversion Ho; subst. exists [], l.
    repeat split; auto; constructor.
  - injection E as <- ->. inversion Hi; inversion Hs; subst.
    exists idx, oth. repeat split; auto.
Qed.

Lemma index_first_others (k : string) (l : list string) :
  is_index k = false -> index_first (k :: l) ->
  Forall (fun k => is_index k = false) (k :: l).
Proof.
  intros Hk [idx [oth [E [Hi [Ho Hs]]]]].
  destruct idx as [|i idx]; simpl in E.
  - now subst oth.
  - injection E as <- ->. inversion Hi; subst. congruence.
Qed.

Lemma index_first_indices (k : string) (l : list string) :
  is_index k = true -> index_first (k :: l) ->
  forall x, In x l -> is_index x = true -> index_le k x.
Proof.
  intros Hk [idx [oth [E [Hi [Ho Hs]]]]] x Hx Hxi.
  destruct idx as [|i idx]; simpl in E.
  - subst oth. inversion Ho; subst. congruence.
  - injection E as <- ->. inversion Hs as [|? ? Hs' Hall]; subst.
    rewrite Forall_forall in Hall. apply Hall.
    apply in_app_or in Hx. destruct Hx as [Hx|Hx]; auto.
    rewrite Forall_forall in Ho. apply Ho in Hx. congruence.
Qed.

Lemma index_first_cons (k : string) (l : list string) :
  is_index k = true -> index_first l ->
  (forall x, In x l -> is_index x = true -> index_le k x) ->
  index_first (k :: l).
Proof.
  intros Hk [idx [oth [-> [Hi [Ho Hs]]]]] Hle.
  exists (k :: idx), oth. repeat split; auto.
  constructor; auto. rewrite Forall_forall in *.
  intros x Hx. apply Hle; auto. apply in_or_app. now left.
Qed.

Lemma index_first_insert (props : object) (key : string) (n : N) (v : value) :
  array_index key = Some n ->
  index_first (Object_keys props) ->
  index_first (Object_keys (insert_index props key n v)).
Proof.
  intros Hkey.
  assert (Hidx : is_index key = true) by (unfold is_index; now rewrite Hkey).
  induction props as [|[k x] rest IH]; intros Hord; simpl.
  - exists [key], []. repeat split; auto; repeat constructor.
  - simpl in Hord. destruct (array_index k) as [m|] eqn:Ek.
    + assert (Hk : is_index k = true) by (unfold is_index; now rewrite Ek).
      destruct (N.ltb_spec m n) as [Hlt|Hge]; simpl.
      * apply index_first_cons; auto.
        -- apply IH. eapply index_first_tail; eauto.
        -- intros y Hy Hyi.
           apply (Permutation_in _ (keys_insert_index rest key n v)) in Hy.
           destruct Hy as [<-|Hy].
           ++ unfold index_le. rewrite Ek, Hkey. lia.
           ++ eapply index_first_indices; eauto.
      * apply index_first_cons; auto.
        intros y [<-|Hy] Hyi.
        -- unfold index_le. rewrite Ek, Hkey. lia.
        -- pose proof (index_first_indices k _ Hk Hord y Hy Hyi) as Hle.
           unfold index_le in *. rewrite Hkey. rewrite Ek in Hle.
           destruct (array_index y); [lia | contradiction].
    + assert (Hk : is_index k = false) by (unfold is_index; now rewrite Ek).
      pose proof (index_first_others k _ Hk Hord) as Hall.
      exists [key], (k :: Object_keys rest).
      repeat split; auto; repeat constructor.
Qed.

Lemma index_first_append (l : list string) (key : string) :
  is_index key = false -> index_first l -> index_first (l ++ [key]).
Proof.
  intros Hkey [idx [oth [-> [Hi [Ho Hs]]]]].
  exists idx, (oth ++ [key]). rewrite app_assoc. repeat split; auto.
  apply Forall_app. split; auto.
Qed.

Lemma others_insert_index (props : object) (key : string) (n : N)
  (v : value) :
  array_index key = Some n ->
  filter (fun k => negb (is_index k)) (Object_keys (insert_index props key n v))
  = filter (fun k => negb (is_index k)) (Object_keys props).
Proof.
  intros Hkey.
  assert (Hidx : is_index key = true) by (unfold is_index; now rewrite Hkey).
  induction props as [|[k x] rest IH]; simpl.
  - now rewrite Hidx.
  - destruct (array_index k) as [m|] eqn:Ek;
      [destruct (m <? n)%N|]; simpl; rewrite ?Hidx; simpl; auto.
    now rewrite IH.
Qed.

(** One assignment keeps the order of enumeration, and adds a key that is
    not an array index after the other such keys. *)
Lemma obj_set_order (acc : object) (key : string) (v : value) :
  index_first (Object_keys acc) ->
  index_first (Object_keys (obj_set acc key v))
  /\ (filter (fun k => negb (is_index k)) (Object_keys (obj_set acc key v))
      = filter (fun k => negb (is_index k)) (Object_keys acc)
      \/ (is_index key = false
          /\ filter (fun k => negb (is_index k))
                    (Object_keys (obj_set acc key v))
             = filter (fun k => negb (is_index k)) (Object_keys acc)
               ++ [key])).
Proof.
  intros Hord. unfold obj_set.
  destruct (has_own acc key); [rewrite keys_replace_own; auto|].
  destruct (key =? "__proto__")%string; [auto|].
  destruct (array_index key) as [n|] eqn:Ek.
  - split; [now apply index_first_insert|]. left.
    now apply others_insert_index.
  - assert (Hk : is_index key = false) by (unfold is_index; now rewrite Ek).
    unfold Object_keys. rewrite map_app. simpl. split.
    + now apply index_first_append.
    + right. split; auto. rewrite filter_app. simpl. now rewrite Hk.
Qed.

Lemma sorted_append (l : list string) (key : string) :
  StronglySorted string_le l -> Forall (fun x => string_le x key) l ->
  StronglySorted string_le (l ++ [key]).
Proof.
  induction l as [|x l IH]; intros Hs Hall; simpl.
  - repeat constructor.
  - inversion Hs; inversion Hall; subst. constructor; auto.
    apply Forall_app. split; auto.
Qed.

Lemma fold_obj_set_order (f : string -> value) (keys : list string)
  (acc : object) :
  StronglySorted string_le keys ->
  index_first (Object_keys acc) ->
  StronglySorted string_le
    (filter (fun k => negb (is_index k)) (Object_keys acc)) ->
  (forall x y, In x (filter (fun k => negb (is_index k)) (Object_keys acc)) ->
               In y keys -> string_le x y) ->
  let result :=
    fold_left (fun result key => obj_set result key (f key)) keys acc in
  index_first (Object_keys result)
  /\ StronglySorted string_le
       (filter (fun k => negb (is_index k)) (Object_keys result)).
Proof.
  revert acc.
  induction keys as [|key keys IH]; intros acc Hkeys Hord Hsorted Hle;
    cbn [fold_left]; [auto|].
  inversion Hkeys as [|? ? Hkeys' Hhead]; subst.
  destruct (obj_set_order acc key (f key) Hord) as [Hord' [E|[Hk E]]].
  - apply IH; auto; rewrite E; auto.
    intros x y Hx Hy. apply Hle; auto. now right.
  - apply IH; auto; rewrite E.
    + apply sorted_append; auto. rewrite Forall_forall.
      intros x Hx. apply Hle; auto. now left.
    + intros x y Hx Hy. apply in_app_or in Hx. destruct Hx as [Hx|[<-|[]]].
      * apply Hle; auto. now right.
      * rewrite Forall_forall in Hhead. now apply Hhead.
Qed.

(** X24: the keys of a canonical object are listed with the array-index keys
    first, in ascending numeric order, and then all the other keys in
    ascending order of their code units. *)
Theorem canonicalizeObject_key_order (props : object) :
  exists canonical indices others,
    canonicalizeObject (VObj props) = VObj canonical
    /\ Object_keys canonical = indices ++ others
    /\ Forall (fun k => is_index k = true) indices
    /\ Forall (fun k => is_index k = false) others
    /\ StronglySorted index_le indices
    /\ StronglySorted string_le others.
Proof.
  rewrite canonicalizeObject_object.
  destruct (fold_obj_set_order
              (fun key => canonicalizeObject (lookup props key))
              (sort (Object_keys props)) [])
    as [[idx [oth [E [Hi [Ho Hs]]]]] Hsorted].
  - apply sort_sorted.
  - exists [], []. repeat split; constructor.
  - constructor.
  - intros x y [].
  - eexists. exists idx, oth. split; [reflexivity|].
    repeat split; auto.
    rewrite E, filter_app in Hsorted.
    assert (F1 : filter (fun k => negb (is_index k)) idx = []).
    { clear - Hi. induction Hi as [|x l Hx Hl IH]; simpl; auto.
      now rewrite Hx. }
    assert (F2 : filter (fun k => negb (is_index k)) oth = oth).
    { clear - Ho. induction Ho as [|x l Hx Hl IH]; simpl; auto.
      rewrite Hx. simpl. now rewrite IH. }
    now rewrite F1, F2 in Hsorted.
Qed.

(** ** Further properties of the exported functions *)

(** X25: [validateContentFile] reports nothing exactly on a file object with a
    non-empty string [path] of at most 512 bytes, a non-empty string [mime]
    of at most 128 bytes, a numeric [size] and a [hash] with [algo] and
    [hex]; on any other argument it adds a message or throws. *)
Theorem validateContentFile_accepts_iff (file : value) (path : string)
  (errors : list string) :
  validateContentFile file path errors = Ret errors
  <-> file_accepted file = true.
Proof.
  rewrite <- (validateContentFile_accepts file path).
  rewrite (validateContentFile_appends file path errors).
  destruct (validateContentFile file path []) as [added|e].
  - split.
    + intros [= H]. rewrite <- (app_nil_r errors) in H at 2.
      apply app_inv_head in H. now subst.
    + intros [= ->]. now rewrite app_nil_r.
  - split; discriminate.
Qed.

(** X26: [validateContent] reports nothing exactly on a content whose
    [primary], when present, is a complete file object, whose [files], when
    an array, holds complete file objects, and whose [refs], when an array,
    holds complete file objects that have a [uri]. *)
Theorem validateContent_accepts_iff (content : value) (errors : list string) :
  nullish content = false ->
  (validateContent content errors = Ret errors
   <-> content_accepted content = true).
Proof.
  intros Hc. rewrite <- (validateContent_accepts content Hc).
  rewrite (validateContent_appends content errors).
  destruct (validateContent content []) as [added|e].
  - split.
    + intros [= H]. rewrite <- (app_nil_r errors) in H at 2.
      apply app_inv_head in H. now subst.
    + intros [= ->]. now rewrite app_nil_r.
  - split; discriminate.
Qed.

(** X27: on a royalty whose splits have a running total of [bps] within the
    safe integers, [validateRoyalty] reports nothing exactly when the
    royalty's [bps] is a number from 0 to 10000, it has an [address] and its
    [splits], when an array, are objects with an [address] and a numeric
    [bps] that add up to the royalty's [bps]. *)
Theorem validateRoyalty_accepts_iff (royalty : value) (errors : list string) :
  nullish royalty = false ->
  safe_royalty royalty ->
  (validateRoyalty royalty errors = Ret errors
   <-> royalty_accepted royalty = true).
Proof.
  intros Hr Hsafe. rewrite <- (validateRoyalty_accepts royalty Hr Hsafe).
  rewrite (validateRoyalty_appends royalty errors).
  destruct (validateRoyalty royalty []) as [added|e].
  - split.
    + intros [= H]. rewrite <- (app_nil_r errors) in H at 2.
      apply app_inv_head in H. now subst.
    + intros [= ->]. now rewrite app_nil_r.
  - split; discriminate.
Qed.

(** X28: [encodeCommitEnvelope] throws "Invalid commit hash" when the hash is
    missing or is not 32 bytes long, whatever the other options are. With a
    hash of 32 bytes and a flag byte to write (the caller's flags with the
    bits of the fields given) from 0 to 255 it returns, and the envelope has
    37 bytes plus the content root and the controller as they are given,
    whose lengths are not checked. *)
Theorem encodeCommitEnvelope_errors (options : CommitOptions.t) :
  let hash_ok :=
    match CommitOptions.commitHash options with
    | Some H => len H =? 32
    | None => false
    end in
  let flags :=
    actualFlags (flags_or_default (CommitOptions.flags options))
      (CommitOptions.contentRoot options) (CommitOptions.controller options) in
  (hash_ok = false ->
   encodeCommitEnvelope options = Throw (Error "Invalid commit hash"))
  /\ (hash_ok = true -> 0 <= flags <= 255 ->
      exists bytes,
        encodeCommitEnvelope options = Ret bytes
        /\ len bytes
           = 37 + len (optional_bytes (CommitOptions.contentRoot options))
             + len (optional_bytes (CommitOptions.controller options))).
Proof.
  destruct options as [hash flags contentRoot controller].
  cbn [CommitOptions.commitHash CommitOptions.flags CommitOptions.contentRoot
       CommitOptions.controller]. cbv zeta.
  unfold encodeCommitEnvelope.
  cbn [CommitOptions.commitHash CommitOptions.flags CommitOptions.contentRoot
       CommitOptions.controller].
  fold (flags_or_default flags).
  fold (actualFlags (flags_or_default flags) contentRoot controller).
  set (f := actualFlags (flags_or_default flags) contentRoot controller).
  destruct hash as [H|]; [|split; [reflexivity | discriminate]].
  destruct (len H =? 32) eqn:EH; cbn [negb];
    [|split; [reflexivity | discriminate]].
  split; [discriminate|]. intros _ Hf.
  unfold new_BufferWriter, write, toBuffer. cbn [app].
  change (writeUInt8 GLYPH_MAGIC GlyphVersion.V2)
    with (@Ret BufferWriter (GLYPH_MAGIC ++ [x02])).
  cbn [bind]. unfold writeUInt8.
  replace ((0 <=? f) && (f <=? 255)) with true
    by (symmetry; apply andb_true_iff; split; apply Z.leb_le; lia).
  destruct (byte_of_Z_some f) as [b [Hb _]]; [lia|]. rewrite Hb.
  cbn [bind]. eexists. split; [reflexivity|].
  apply Z.eqb_eq in EH. unfold len in *.
  destruct contentRoot, controller; cbn [optional_bytes];
    rewrite ?length_app; change (List.length GLYPH_MAGIC) with 3%nat;
    cbn [List.length]; lia.
Qed.

(** X29: [isGlyphTransaction] can answer [true] on a transaction from which
    [parseGlyphTransaction] returns [null]: when no output holds an envelope
    and the inputs hold no reveal envelope, nothing is parsed, also when an
    input holds a commit envelope, which [isGlyphTransaction] announces. *)
Theorem commit_in_input_not_parsed (Buffer_toString_utf8 : Buffer -> string)
  (JSON_parse : string -> outcome value) (tx : Transaction.t)
  (script : Buffer) (c : Commit.t) :
  Forall (no_envelope Buffer_toString_utf8 JSON_parse)
         (Transaction.outputs tx) ->
  Forall (no_reveal Buffer_toString_utf8 JSON_parse) (Transaction.inputs tx) ->
  In (Some script) (Transaction.inputs tx) ->
  decodeEnvelope Buffer_toString_utf8 JSON_parse script
  = Ret (Some (CommitEnvelope c)) ->
  parseGlyphTransaction Buffer_toString_utf8 JSON_parse tx = Ret None
  /\ isGlyphTransaction tx = true.
Proof.
  intros Hout Hin Hscript Hdec. split.
  - unfold parseGlyphTransaction.
    rewrite <- (app_nil_r (Transaction.outputs tx)),
      (parse_outputs_skip _ _ _ _ _ Hout).
    cbn [parse_outputs bind].
    rewrite <- (app_nil_r (Transaction.inputs tx)),
      (parse_inputs_skip _ _ _ _ _ Hin).
    reflexivity.
  - unfold isGlyphTransaction.
    destruct (existsb containsGlyphMagic (Transaction.outputs tx));
      [reflexivity|].
    match goal with
    | |- (if ?b then true else false) = true => replace b with true;
                                                  [reflexivity|]
    end.
    symmetry. apply existsb_exists. exists (Some script). split; auto.
    apply containsGlyphMagic_found. eapply decodeEnvelope_Some_found. eauto.
Qed.


(** ** Further cases of the test suite, on the model *)

Example test_containsGlyphMagic :
  containsGlyphMagic ([x00; x6a] ++ GLYPH_MAGIC ++ [x02; x00]) = true
  /\ containsGlyphMagic [x00; x6a; x01; x02; x03] = false
  /\ containsGlyphMagic [] = false.
Proof. repeat split; reflexivity. Qed.

Example test_getGlyphId :
  getGlyphId "abc123def456" 0 = "abc123def456:0"
  /\ getGlyphId "txid" 0 = "txid:0"
  /\ getGlyphId "txid" 1 = "txid:1"
  /\ getGlyphId "txid" 255 = "txid:255".
Proof. repeat split; reflexivity. Qed.

Example test_parseGlyphId :
  parseGlyphId "abc123def456:0" = GlyphId.mk "abc123def456" (Some 0)
  /\ GlyphId.vout (parseGlyphId "txid:0") = Some 0
  /\ GlyphId.vout (parseGlyphId "txid:1") = Some 1
  /\ GlyphId.vout (parseGlyphId "txid:255") = Some 255
  /\ parseGlyphId (getGlyphId "a1b2c3d4e5f6" 3)
     = GlyphId.mk "a1b2c3d4e5f6" (Some 3).
Proof. repeat split; reflexivity. Qed.

Example test_isValidGlyph :
  isValidGlyph
    (Metadata.mk (VNum GlyphVersion.V2) (VStr "token")
       (Some [GlyphProtocol.GLYPH_FT]) VUndefined VUndefined VUndefined
       (VStr "TEST") VUndefined VUndefined VUndefined VUndefined VUndefined)
  = Ret true
  /\ isValidGlyph
       (Metadata.mk VUndefined (VStr "token") None VUndefined VUndefined
          VUndefined VUndefined VUndefined VUndefined VUndefined VUndefined
          VUndefined)
     = Ret false.
Proof. split; reflexivity. Qed.

Example test_getTokenType :
  getTokenType [GlyphProtocol.GLYPH_FT] = "Fungible Token"
  /\ getTokenType [GlyphProtocol.GLYPH_FT; GlyphProtocol.GLYPH_DMINT]
     = "dMint Fungible Token"
  /\ getTokenType [GlyphProtocol.GLYPH_NFT] = "NFT"
  /\ getTokenType [GlyphProtocol.GLYPH_NFT; GlyphProtocol.GLYPH_MUT]
     = "Mutable NFT"
  /\ getTokenType [GlyphProtocol.GLYPH_NFT; GlyphProtocol.GLYPH_CONTAINER]
     = "Container"
  /\ getTokenType [GlyphProtocol.GLYPH_NFT; GlyphProtocol.GLYPH_AUTHORITY]
     = "Authority Token"
  /\ getTokenType [GlyphProtocol.GLYPH_NFT; GlyphProtocol.GLYPH_MUT;
                   GlyphProtocol.GLYPH_WAVE]
     = "WAVE Name"
  /\ getTokenType [GlyphProtocol.GLYPH_DAT] = "Data Token".
Proof. repeat split; reflexivity. Qed.

(** [parseInt] on texts that are not a plain number *)
Example test_parseInt :
  parseInt (Some " 12px") = Some 12
  /\ parseInt (Some "-7") = Some (-7)
  /\ parseInt (Some "+7") = Some 7
  /\ parseInt (Some "x1") = None
  /\ parseInt (Some EmptyString) = None
  /\ parseInt None = None
  /\ parseGlyphId "txid" = GlyphId.mk "txid" None
  /\ parseGlyphId "a:1:2" = GlyphId.mk "a" (Some 1).
Proof. repeat split; reflexivity. Qed.

(** ** The further properties on the example inputs *)

Ltac solve_well_formed :=
  lazymatch goal with
  | |- well_formed (VObj _) =>
      apply well_formed_object;
      [ solve_NoDup
      | simpl; intuition discriminate
      | repeat (constructor; [simpl; solve_well_formed|]); constructor ]
  | |- well_formed (VArr _) =>
      apply well_formed_array;
      repeat (constructor; [solve_well_formed|]); constructor
  | |- well_formed _ => apply well_formed_primitive; exact I
  end.

Lemma containsGlyphMagic_no_false_negative_witness :
  indexOf example_script GLYPH_MAGIC <> -1
  /\ containsGlyphMagic example_script = true.
Proof.
  assert (H : indexOf example_script GLYPH_MAGIC <> -1)
    by (vm_compute; discriminate).
  split; [exact H|].
  apply (containsGlyphMagic_no_false_negative sample_toString sample_parse).
  left. exact H.
Defined.

Lemma containsGlyphMagic_nibble_shifted_witness :
  containsGlyphMagic example_shifted = true
  /\ indexOf example_shifted GLYPH_MAGIC = -1
  /\ decodeEnvelope sample_toString sample_parse example_shifted = Ret None.
Proof.
  exact (containsGlyphMagic_nibble_shifted sample_toString sample_parse
           x06 x90 eq_refl eq_refl).
Defined.

Lemma parseGlyphId_getGlyphId_roundtrip_witness :
  safe_integer 1
  /\ contains_char ":" example_txid = false
  /\ parseGlyphId (getGlyphId example_txid 1)
     = GlyphId.mk example_txid (Some 1).
Proof.
  assert (S : safe_integer 1) by (unfold safe_integer; lia).
  split; [exact S|]. split; [reflexivity|].
  apply (parseGlyphId_getGlyphId_roundtrip example_txid 1 S). reflexivity.
Defined.

Lemma getTokenType_of_valid_witness :
  ProtocolValidation.valid (validateProtocols (Some example_protocols)) = true
  /\ getTokenType example_protocols = "WAVE Name".
Proof.
  split; [reflexivity|].
  apply (getTokenType_of_valid example_protocols eq_refl).
  unfold example_protocols. simpl. auto.
Defined.

Lemma validateProtocols_order_insensitive_witness :
  Permutation [2; 5] [5; 2]
  /\ ProtocolValidation.valid (validateProtocols (Some [2; 5]))
     = ProtocolValidation.valid (validateProtocols (Some [5; 2])).
Proof.
  assert (P : Permutation [2; 5] [5; 2]) by apply perm_swap.
  split; [exact P|]. exact (validateProtocols_order_insensitive _ _ P).
Defined.

Lemma validateMetadata_returns_iff_typed_witness :
  metadata_typed example_metadata = true
  /\ (exists result, validateMetadata example_metadata = Ret result)
  /\ metadata_typed example_ill_typed = false
  /\ validateMetadata example_ill_typed = Throw TypeError.
Proof.
  split; [reflexivity|]. split.
  - exact (proj1 (validateMetadata_returns_iff_typed example_metadata) eq_refl).
  - split; [reflexivity|].
    exact (proj2 (validateMetadata_returns_iff_typed example_ill_typed)
             eq_refl).
Defined.

Lemma commit_envelope_roundtrip_in_script_witness :
  exists bytes,
    encodeCommitEnvelope
      (CommitOptions.mk (Some example_hash) (Some 4)
         (Some example_contentRoot) None) = Ret bytes
    /\ indexOf (example_script_prefix ++ bytes ++ [x51]) GLYPH_MAGIC
       = len example_script_prefix
    /\ decodeEnvelope sample_toString sample_parse
         (example_script_prefix ++ bytes ++ [x51])
       = Ret (Some (CommitEnvelope
                      (Commit.mk 2 5 example_hash (Some example_contentRoot)
                         None))).
Proof.
  destruct (commit_envelope_roundtrip_in_script sample_toString sample_parse
              example_hash (Some 4) (Some example_contentRoot) None
              example_script_prefix [x51])
    as [bytes [E D]].
  - reflexivity.
  - simpl. lia.
  - reflexivity.
  - exact I.
  - intros H. discriminate H.
  - intros H. discriminate H.
  - exists bytes.
    assert (B : bytes
                = GLYPH_MAGIC ++ [x02; x05] ++ example_hash
                  ++ example_contentRoot).
    { assert (E' : encodeCommitEnvelope
                     (CommitOptions.mk (Some example_hash) (Some 4)
                        (Some example_contentRoot) None)
                   = Ret (GLYPH_MAGIC ++ [x02; x05] ++ example_hash
                          ++ example_contentRoot)) by reflexivity.
      rewrite E' in E. now injection E as <-. }
    assert (I0 : indexOf (example_script_prefix ++ bytes ++ [x51]) GLYPH_MAGIC
                 = len example_script_prefix)
      by (rewrite B; reflexivity).
    split; [exact E|]. split; [exact I0 | exact (D I0)].
Defined.

Lemma commit_envelope_with_reveal_bit_witness :
  exists bytes r,
    encodeCommitEnvelope
      (CommitOptions.mk (Some example_hash) (Some 128) None None) = Ret bytes
    /\ decodeEnvelope sample_toString sample_parse bytes
       = Ret (Some (RevealEnvelope r))
    /\ Reveal.version r = 2
    /\ Reveal.flags r = 128.
Proof.
  refine (commit_envelope_with_reveal_bit sample_toString sample_parse
            example_hash 128 None None eq_refl _).
  lia.
Defined.

Lemma commit_envelope_long_contentRoot_witness :
  exists bytes,
    encodeCommitEnvelope
      (CommitOptions.mk (Some example_hash) None (Some example_controller) None)
    = Ret bytes
    /\ len bytes = 37 + len example_controller
    /\ decodeEnvelope sample_toString sample_parse bytes
       = Ret (Some (CommitEnvelope
                      (Commit.mk 2 1 example_hash
                         (Some (firstn 32 example_controller)) None)))
    /\ (firstn 32 example_controller = example_controller
        <-> len example_controller = 32).
Proof.
  refine (commit_envelope_long_contentRoot sample_toString sample_parse
            example_hash example_controller eq_refl _).
  unfold len. simpl. lia.
Defined.

Lemma reveal_envelope_roundtrip_witness :
  encodeRevealEnvelope sample_stringify
    (RevealOptions.mk (MetaBytes example_json) None)
  = (MetaBytes example_json, Ret example_chunks)
  /\ decodeEnvelope sample_toString sample_parse (List.concat example_chunks)
     = Ret (Some (RevealEnvelope (Reveal.mk 2 128 (VObj []) [] None))).
Proof.
  split; [reflexivity|].
  exact (reveal_envelope_roundtrip sample_stringify sample_toString
           sample_parse (MetaBytes example_json) (MetaBytes example_json) None
           example_chunks eq_refl).
Defined.

Lemma reveal_envelope_B_not_decoded_witness :
  truncated_or_unknown_version example_json
  /\ decodeEnvelope sample_toString sample_parse
       (List.concat
          (snd (encodeRevealEnvelopeB sample_stringify
                  (RevealOptions.mk (MetaBytes example_json) None))))
     = Ret None.
Proof.
  assert (T : truncated_or_unknown_version example_json)
    by (split; discriminate).
  split; [exact T|].
  exact (reveal_envelope_B_not_decoded sample_stringify sample_toString
           sample_parse (MetaBytes example_json) None T).
Defined.

Lemma decodeEnvelope_invariants_witness :
  decodeEnvelope sample_toString sample_parse example_script
  = Ret (Some (CommitEnvelope (Commit.mk 2 0 example_hash None None)))
  /\ exists pre v f rest,
       example_script = pre ++ GLYPH_MAGIC ++ [v; f] ++ rest
       /\ indexOf example_script GLYPH_MAGIC = len pre
       /\ (Z_of_byte v = 1 \/ Z_of_byte v = 2)
       /\ false = Z.testbit (Z_of_byte f) 7
       /\ 2 = Z_of_byte v
       /\ 0 = Z_of_byte f
       /\ false = Z.testbit (Z_of_byte f) 0
       /\ false = Z.testbit (Z_of_byte f) 1
       /\ exists tail, rest = example_hash ++ [] ++ [] ++ tail.
Proof.
  split; [reflexivity|].
  exact (decodeEnvelope_invariants sample_toString sample_parse example_script
           (CommitEnvelope (Commit.mk 2 0 example_hash None None)) eq_refl).
Defined.

Lemma parseGlyphTransaction_first_match_witness :
  parseGlyphTransaction sample_toString sample_parse example_tx
  = Ret (Some (Parsed.mk "commit" (Parsed.outputIndex 1)
                 (CommitEnvelope (Commit.mk 2 0 example_hash None None)))).
Proof.
  destruct (parseGlyphTransaction_first_match sample_toString sample_parse
              example_tx) as [_ [W _]].
  apply (W [[x6a]] example_later_envelope []
           (CommitEnvelope (Commit.mk 2 0 example_hash None None))).
  - reflexivity.
  - repeat constructor.
  - reflexivity.
Defined.

Lemma parseGlyphTransaction_isGlyphTransaction_witness :
  parseGlyphTransaction sample_toString sample_parse example_tx
  = Ret (Some (Parsed.mk "commit" (Parsed.outputIndex 1)
                 (CommitEnvelope (Commit.mk 2 0 example_hash None None))))
  /\ isGlyphTransaction example_tx = true.
Proof.
  split; [reflexivity|].
  exact (parseGlyphTransaction_isGlyphTransaction sample_toString sample_parse
           example_tx _ eq_refl).
Defined.

Lemma commit_in_input_not_parsed_witness :
  parseGlyphTransaction sample_toString sample_parse example_spend = Ret None
  /\ isGlyphTransaction example_spend = true.
Proof.
  apply (commit_in_input_not_parsed sample_toString sample_parse example_spend
           example_later_envelope (Commit.mk 2 0 example_hash None None)).
  - repeat constructor.
  - constructor; [exact I|]. constructor; [|constructor].
    right. eexists. reflexivity.
  - right. left. reflexivity.
  - reflexivity.
Defined.

Lemma canonicalizeObject_preserves_content_witness :
  well_formed (VObj example_indexed)
  /\ equivalent (canonicalizeObject (VObj example_indexed))
       (VObj example_indexed).
Proof.
  assert (W : well_formed (VObj example_indexed))
    by (unfold example_indexed; solve_well_formed).
  split; [exact W|]. exact (canonicalizeObject_preserves_content _ W).
Defined.

Lemma canonicalizeObject_idempotent_witness :
  well_formed (VObj example_indexed)
  /\ canonicalizeObject (canonicalizeObject (VObj example_indexed))
     = canonicalizeObject (VObj example_indexed).
Proof.
  assert (W : well_formed (VObj example_indexed))
    by (unfold example_indexed; solve_well_formed).
  split; [exact W|]. exact (canonicalizeObject_idempotent _ W).
Defined.

Lemma commit_hash_binds_reveal_witness :
  snd (computeCommitHash sample_stringify sample_hash
         (MetaObject example_metadata_1))
  = sample_hash (nth 1 example_object_chunks []).
Proof.
  refine (proj1 (commit_hash_binds_reveal sample_stringify sample_hash
                   (MetaObject example_metadata_1)
                   (fst (encodeRevealEnvelope sample_stringify
                           (RevealOptions.mk (MetaObject example_metadata_1)
                              None)))
                   None example_object_chunks _)).
  reflexivity.
Defined.

Lemma validateContent_accepts_iff_witness :
  nullish example_content = false
  /\ content_accepted example_content = true
  /\ validateContent example_content ["earlier"] = Ret ["earlier"].
Proof.
  split; [reflexivity|]. split; [reflexivity|].
  apply (validateContent_accepts_iff example_content ["earlier"] eq_refl).
  reflexivity.
Defined.

Lemma validateRoyalty_accepts_iff_witness :
  nullish example_royalty_even = false
  /\ safe_royalty example_royalty_even
  /\ royalty_accepted example_royalty_even = true
  /\ validateRoyalty example_royalty_even [] = Ret [].
Proof.
  assert (S : safe_royalty example_royalty_even)
    by (vm_compute; repeat split).
  split; [reflexivity|]. split; [exact S|]. split; [reflexivity|].
  apply (validateRoyalty_accepts_iff example_royalty_even [] eq_refl S).
  reflexivity.
Defined.

Lemma isValidGlyph_iff_accepted_witness :
  safe_royalty (Metadata.royalty example_accepted)
  /\ metadata_accepted example_accepted = true
  /\ isValidGlyph example_accepted = Ret true.
Proof.
  assert (S : safe_royalty (Metadata.royalty example_accepted))
    by (vm_compute; repeat split).
  split; [exact S|]. split; [reflexivity|].
  apply (isValidGlyph_iff_accepted example_accepted S).
  reflexivity.
Defined.


Lemma encodeCommitEnvelope_errors_witness :
  encodeCommitEnvelope (CommitOptions.mk (Some [x01]) (Some 4) None None)
  = Throw (Error "Invalid commit hash")
  /\ exists bytes,
       encodeCommitEnvelope
         (CommitOptions.mk (Some (example_bytes 32)) (Some 4) (Some [x01]) None)
       = Ret bytes
       /\ len bytes = 38.
Proof.
  split.
  - apply (proj1 (encodeCommitEnvelope_errors
                    (CommitOptions.mk (Some [x01]) (Some 4) None None))).
    reflexivity.
  - destruct (proj2 (encodeCommitEnvelope_errors
                       (CommitOptions.mk (Some (example_bytes 32)) (Some 4)
                          (Some [x01]) None)) eq_refl)
      as [bytes [Hb Hl]].
    + vm_compute. split; discriminate.
    + exists bytes. split; [exact Hb | exact Hl].
Defined.
